(** * The block-structured editing core of the thesis editor (script.js)

    A shallow embedding of the parts of [script.js] that restructure the
    document: the block model ([createBlockElement]), the numbering pass
    ([updateNumberedBlocks]), the type-conversion commands, [deleteBlocks],
    [clearAll], the Enter / Backspace / Tab key handlers, the autoformat
    [beforeinput] handler and the markdown bridge ([markdownToBlocks],
    [htmlToMarkdown]); further the handlers that move blocks (Alt+Arrow,
    Alt+Shift+Arrow), [focusBlock], the [copy] and [paste] handlers, the
    import of a markdown file, [deleteAllStrikethrough], the word count
    of [updateWordCount] and the body of the Word export
    ([generateDocxXml]).

    The editor has no data model besides the DOM, so the embedding is a
    small DOM: a block is a [div] carrying [data-type] and [data-level],
    some marker spans and one content element whose children are text
    nodes and inline elements.  The [class] attribute of a block is always
    assigned together with [data-type] and only drives styling; it is not
    represented.  Blocks are identified by their position in the editor. *)

From Stdlib Require Import List Ascii Arith Lia Bool Permutation.
From Stdlib Require Strings.String Numbers.DecimalString.
Import ListNotations.

(** ** JavaScript strings

    A string is the list of its code units; the embedding keeps the code
    units below 256, which covers every character the handlers test for. *)

Definition jstr := list ascii.

Inductive jstr_literal := LitNil | LitCons (c : ascii) (r : jstr_literal).

Fixpoint literal_of_bytes (bs : list Byte.byte) : jstr_literal :=
  match bs with
  | [] => LitNil
  | b :: r => LitCons (ascii_of_byte b) (literal_of_bytes r)
  end.

Fixpoint bytes_of_literal (t : jstr_literal) : list Byte.byte :=
  match t with
  | LitNil => []
  | LitCons c r => byte_of_ascii c :: bytes_of_literal r
  end.

Declare Scope jstr_scope.
Delimit Scope jstr_scope with jstr.
#[warnings="-via-type-mismatch,-via-type-remapping"]
String Notation jstr literal_of_bytes bytes_of_literal
  (via jstr_literal mapping [[nil] => LitNil, [cons] => LitCons]) : jstr_scope.
Open Scope jstr_scope.

Arguments Ascii.eqb : simpl never.

Definition newline : ascii := ascii_of_nat 10.
Definition carriageReturn : ascii := ascii_of_nat 13.
Definition nul : ascii := ascii_of_nat 0.

(** White space as [String.prototype.trim] and the regexp class [\s] see
    it, within the first 256 code units. *)
Definition isWhiteSpace (c : ascii) : bool :=
  let n := nat_of_ascii c in
  (n =? 9) || (n =? 10) || (n =? 11) || (n =? 12) || (n =? 13)
  || (n =? 32) || (n =? 160).

(** The regexp class [\d]. *)
Definition isDigit (c : ascii) : bool :=
  let n := nat_of_ascii c in (48 <=? n) && (n <=? 57).

Definition isAsciiAlpha (c : ascii) : bool :=
  let n := nat_of_ascii c in
  ((65 <=? n) && (n <=? 90)) || ((97 <=? n) && (n <=? 122)).

Definition toAsciiLower (c : ascii) : ascii :=
  let n := nat_of_ascii c in
  if (65 <=? n) && (n <=? 90) then ascii_of_nat (n + 32) else c.

Fixpoint dropWhile (p : ascii -> bool) (s : jstr) : jstr :=
  match s with
  | [] => []
  | c :: r => if p c then dropWhile p r else s
  end.

Fixpoint takeWhile (p : ascii -> bool) (s : jstr) : jstr :=
  match s with
  | [] => []
  | c :: r => if p c then c :: takeWhile p r else []
  end.

Definition trimStart (s : jstr) : jstr := dropWhile isWhiteSpace s.
Definition trimEnd (s : jstr) : jstr := rev (dropWhile isWhiteSpace (rev s)).
Definition trim (s : jstr) : jstr := trimEnd (trimStart s).

Definition jstr_eqb (a b : jstr) : bool :=
  if list_eq_dec ascii_dec a b then true else false.

Fixpoint startsWith (p s : jstr) : bool :=
  match p, s with
  | [], _ => true
  | _ :: _, [] => false
  | a :: p', b :: s' => Ascii.eqb a b && startsWith p' s'
  end.

(** [s.slice(n)] and [s.substring(n)] for [0 <= n]. *)
Definition sliceFrom (n : nat) (s : jstr) : jstr := skipn n s.

(** [s.substring(0, n)]. *)
Definition substringTo (n : nat) (s : jstr) : jstr := firstn n s.

(** [parts.join(sep)]. *)
Fixpoint join (sep : jstr) (parts : list jstr) : jstr :=
  match parts with
  | [] => []
  | [p] => p
  | p :: rest => p ++ sep ++ join sep rest
  end.

(** [s.split(c)] for a one-character separator. *)
Fixpoint split (sep : ascii) (s : jstr) : list jstr :=
  match s with
  | [] => [[]]
  | c :: r =>
      if Ascii.eqb c sep then [] :: split sep r
      else match split sep r with
           | [] => [[c]]
           | l :: ls => (c :: l) :: ls
           end
  end.

(** [pad.repeat(n)]. *)
Fixpoint repeatStr (pad : jstr) (n : nat) : jstr :=
  match n with
  | O => []
  | S k => pad ++ repeatStr pad k
  end.

(** Decimal rendering of a number, as string concatenation does it. *)
Definition natToString (n : nat) : jstr :=
  String.list_ascii_of_string
    (DecimalString.NilEmpty.string_of_uint (Nat.to_uint n)).

(** ** The DOM fragment under a block *)

#[warnings="-register-all"]
Inductive Node :=
| Text (data : jstr)                         (* a text node *)
| Br                                         (* a <br> element *)
| Elem (tag : jstr) (children : list Node).  (* any other element *)

Fixpoint textContent (n : Node) : jstr :=
  match n with
  | Text d => d
  | Br => []
  | Elem _ ks => concat (map textContent ks)
  end.

(** [el.textContent] of an element with the given children. *)
Definition textOf (ks : list Node) : jstr := concat (map textContent ks).

(** [node.nodeName === 'BR'] *)
Definition isBR (n : Node) : bool :=
  match n with Br => true | _ => false end.

(** Assigning [el.textContent = s]: every child is replaced by one text
    node, or by nothing when [s] is empty. *)
Definition setTextContent (s : jstr) : list Node :=
  match s with [] => [] | _ => [Text s] end.

(** *** Assigning [innerHTML]

    [createBlockElement] builds a block by assigning markup to
    [innerHTML], with the content string spliced in unescaped.  The
    platform's fragment parser is modelled for character data and for
    start and end tags (a tokenizer state machine followed by a stack of
    open elements).  In character data a carriage return becomes a line
    break, joined with a line break that follows it, and NUL is dropped.
    Character references are not decoded, an end tag is never implied (an
    element stays open until its end tag or the end of the input), and
    [br], [hr], [img], [input] and [wbr] are the void elements known.
    The statements that depend on the parse are therefore about character
    data without ['<'] and ['&'], and about the markup that the copy
    handler writes: [ul], [ol], [li] and [p] elements, each closed by its
    end tag, around such character data. *)

Inductive Token :=
| TChar (c : ascii)
| TStart (name : jstr)
| TEnd (name : jstr).

Inductive TokState :=
| Data
| TagOpen
| EndTagOpen
| TagName (isEnd : bool) (name : jstr)
| AfterTagName (isEnd : bool) (name : jstr)
| BogusComment.

Definition emitTag (isEnd : bool) (name : jstr) : Token :=
  if isEnd then TEnd name else TStart name.

Fixpoint tokenize (st : TokState) (s : jstr) : list Token :=
  match s with
  | [] =>
      match st with
      | TagOpen => [TChar "<"%char]
      | EndTagOpen => [TChar "<"%char; TChar "/"%char]
      | _ => []
      end
  | c :: r =>
      match st with
      | Data =>
          if Ascii.eqb c "<"%char then tokenize TagOpen r
          else if Ascii.eqb c nul then tokenize Data r
          else if Ascii.eqb c carriageReturn then
            if startsWith [newline] r then tokenize Data r
            else TChar newline :: tokenize Data r
          else TChar c :: tokenize Data r
      | TagOpen =>
          if isAsciiAlpha c then tokenize (TagName false [toAsciiLower c]) r
          else if Ascii.eqb c "/"%char then tokenize EndTagOpen r
          else if Ascii.eqb c "!"%char || Ascii.eqb c "?"%char then tokenize BogusComment r
          else if Ascii.eqb c "<"%char then TChar "<"%char :: tokenize TagOpen r
          else TChar "<"%char :: TChar c :: tokenize Data r
      | EndTagOpen =>
          if isAsciiAlpha c then tokenize (TagName true [toAsciiLower c]) r
          else if Ascii.eqb c ">"%char then tokenize Data r
          else tokenize BogusComment r
      | TagName e n =>
          if isWhiteSpace c || Ascii.eqb c "/"%char then tokenize (AfterTagName e n) r
          else if Ascii.eqb c ">"%char then emitTag e n :: tokenize Data r
          else tokenize (TagName e (n ++ [toAsciiLower c])) r
      | AfterTagName e n =>
          if Ascii.eqb c ">"%char then emitTag e n :: tokenize Data r
          else tokenize (AfterTagName e n) r
      | BogusComment =>
          if Ascii.eqb c ">"%char then tokenize Data r
          else tokenize BogusComment r
      end
  end.

(** Void elements other than [br]. *)
Definition isVoidTag (t : jstr) : bool :=
  jstr_eqb t "hr" || jstr_eqb t "img" || jstr_eqb t "input" || jstr_eqb t "wbr".

(** Children are accumulated in reverse; a character joins the text node
    that is being built, if any. *)
Definition addChar (c : ascii) (kidsRev : list Node) : list Node :=
  match kidsRev with
  | Text d :: k => Text (d ++ [c]) :: k
  | _ => Text [c] :: kidsRev
  end.

(** A frame of the stack of open elements: the tag of the open element
    and the children its parent had collected before it. *)
Definition Frame := (jstr * list Node)%type.

Fixpoint closeUntil (name : jstr) (stack : list Frame) (cur : list Node)
  : list Frame * list Node :=
  match stack with
  | [] => ([], cur)
  | (t, parentKids) :: rest =>
      let cur' := Elem t (rev cur) :: parentKids in
      if jstr_eqb t name then (rest, cur') else closeUntil name rest cur'
  end.

Fixpoint closeAll (stack : list Frame) (cur : list Node) : list Node :=
  match stack with
  | [] => rev cur
  | (t, parentKids) :: rest => closeAll rest (Elem t (rev cur) :: parentKids)
  end.

Fixpoint buildTree (toks : list Token) (stack : list Frame) (cur : list Node)
  : list Node :=
  match toks with
  | [] => closeAll stack cur
  | TChar c :: r => buildTree r stack (addChar c cur)
  | TStart n :: r =>
      if jstr_eqb n "br" then buildTree r stack (Br :: cur)
      else if isVoidTag n then buildTree r stack (Elem n [] :: cur)
      else buildTree r ((n, cur) :: stack) []
  | TEnd n :: r =>
      if existsb (fun f => jstr_eqb (fst f) n) stack
      then let '(stack', cur') := closeUntil n stack cur in
           buildTree r stack' cur'
      else buildTree r stack cur
  end.

(** The children an element has after [el.innerHTML = s]. *)
Definition parseHTML (s : jstr) : list Node :=
  buildTree (tokenize Data s) [] [].

(** ** Blocks *)

Inductive BlockType :=
| text
| heading (n : nat)
| bullet
| numbered
| quote.

Definition isNumbered (t : BlockType) : bool :=
  match t with numbered => true | _ => false end.

Definition isListType (t : BlockType) : bool :=
  match t with bullet | numbered => true | _ => false end.

(** The class that tells a marker span apart: [bullet-marker] or
    [number-marker]; both also carry [block-marker]. *)
Inductive MarkerClass := bullet_marker | number_marker.

Record Marker := mkMarker { mclass : MarkerClass; mtext : jstr }.

Record Block := mkBlock {
  btype : BlockType;        (* dataset.type *)
  blevel : nat;             (* dataset.level *)
  markers : list Marker;    (* the .block-marker spans, in order *)
  content : list Node       (* children of the .block-content element *)
}.

(** The bullet glyph U+2022, as its three UTF-8 bytes. *)
Definition bulletGlyph : jstr :=
  [ascii_of_nat 226; ascii_of_nat 128; ascii_of_nat 162].

Definition bulletMarker : Marker := mkMarker bullet_marker bulletGlyph.
Definition numberMarker : Marker := mkMarker number_marker "1.".

(** [createBlockElement(type, content, level)].  The source assembles
    the markup of the marker span and of the content element around the
    content string and assigns it to [block.innerHTML]; here the marker
    is built directly and the content string is parsed as the children of
    the content element, which is the same as long as the string does not
    close the content element itself. *)
Definition createBlockElement (type : BlockType) (contentHtml : jstr)
    (level : nat) : Block :=
  let ms := match type with
            | bullet => [bulletMarker]
            | numbered => [numberMarker]
            | _ => []
            end in
  (* Empty blocks need <br> for cursor placement *)
  let html := match contentHtml with [] => "<br>" | _ => contentHtml end in
  mkBlock type level ms (parseHTML html).

(** [block.querySelector('.block-marker').remove()], when there is one. *)
Definition removeMarker (ms : list Marker) : list Marker := tl ms.

Definition blockText (b : Block) : jstr := textOf (content b).

(** ** The numbering pass *)

(** [while (counters.length <= level) counters.push(0)] *)
Definition growCounters (level : nat) (counters : list nat) : list nat :=
  counters ++ repeat 0 (S level - length counters).

(** [counters[level]++] on an array that is long enough. *)
Definition bumpCounter (level : nat) (counters : list nat) : list nat :=
  firstn level counters ++ S (nth level counters 0) :: skipn (S level) counters.

(** [for (i = level + 1; i < counters.length; i++) counters[i] = 0] *)
Definition resetDeeper (level : nat) (counters : list nat) : list nat :=
  firstn (S level) counters ++ repeat 0 (length counters - S level).

Definition numberString (level : nat) (counters : list nat) : jstr :=
  let numberParts := filter (fun n => 0 <? n) (firstn (S level) counters) in
  join "." (map natToString numberParts) ++ ".".

(** One iteration of the [forEach] of [updateNumberedBlocks]: the counters
    afterwards, and the number string when the block is numbered. *)
Definition numberStep (counters : list nat) (b : Block)
  : list nat * option jstr :=
  match btype b with
  | numbered =>
      let level := blevel b in
      let cs := resetDeeper level (bumpCounter level (growCounters level counters)) in
      (cs, Some (numberString level cs))
  | _ => ([], None)
  end.

(** [marker = block.querySelector('.number-marker');
     if (marker) marker.textContent = numberString] *)
Fixpoint setNumberMarker (s : jstr) (ms : list Marker) : list Marker :=
  match ms with
  | [] => []
  | m :: r =>
      match mclass m with
      | number_marker => mkMarker number_marker s :: r
      | bullet_marker => m :: setNumberMarker s r
      end
  end.

Definition relabel (label : option jstr) (b : Block) : Block :=
  match label with
  | Some s => mkBlock (btype b) (blevel b) (setNumberMarker s (markers b)) (content b)
  | None => b
  end.

Fixpoint updateNumberedFrom (counters : list nat) (blocks : list Block)
  : list Block :=
  match blocks with
  | [] => []
  | b :: r =>
      let '(cs, label) := numberStep counters b in
      relabel label b :: updateNumberedFrom cs r
  end.

Definition updateNumberedBlocks (blocks : list Block) : list Block :=
  updateNumberedFrom [] blocks.

(** The number strings the pass computes, block by block. *)
Fixpoint numberLabelsFrom (counters : list nat) (blocks : list Block)
  : list (option jstr) :=
  match blocks with
  | [] => []
  | b :: r =>
      let '(cs, label) := numberStep counters b in
      label :: numberLabelsFrom cs r
  end.

Definition numberLabels (blocks : list Block) : list (option jstr) :=
  numberLabelsFrom [] blocks.

(** ** Editor state and the window selection *)

Record Editor := mkEditor {
  blocks : list Block;              (* editor.querySelectorAll('.block') *)
  multiBlockSelection : list nat    (* blocks captured when "/" was pressed *)
}.

(** What the handlers read from [window.getSelection()].  The start
    container of the range is given by the path of child indices that
    leads to it from the content element of the anchor block; the empty
    path is the content element itself. *)
Record Selection := mkSelection {
  rangeCount : nat;
  isCollapsed : bool;
  anchorBlock : option nat;     (* the block around range.startContainer *)
  intersects : nat -> bool;     (* range.intersectsNode(block), by position *)
  startPath : list nat;
  startOffset : nat
}.

Definition getCurrentBlock (sel : Selection) : option nat :=
  if rangeCount sel =? 0 then None else anchorBlock sel.

(** [allBlocks.filter(block => range.intersectsNode(block))] *)
Definition getSelectedBlocks (ed : Editor) (sel : Selection) : list nat :=
  if rangeCount sel =? 0 then []
  else filter (intersects sel) (seq 0 (length (blocks ed))).

(** Where [focusBlock(block, atEnd)] puts the caret. *)
Record Focus := mkFocus { focusIndex : nat; atEnd : bool }.

Fixpoint updateAt {A : Type} (i : nat) (f : A -> A) (l : list A) : list A :=
  match l, i with
  | [], _ => []
  | x :: r, O => f x :: r
  | x :: r, S j => x :: updateAt j f r
  end.

Fixpoint insertAt {A : Type} (i : nat) (x : A) (l : list A) : list A :=
  match i, l with
  | O, _ => x :: l
  | S j, [] => [x]
  | S j, y :: r => y :: insertAt j x r
  end.

(** [targets.forEach(block => ...)] on blocks given by position. *)
Definition forEachBlock (f : Block -> Block) (targets : list nat)
    (bs : list Block) : list Block :=
  fold_left (fun acc i => updateAt i f acc) targets bs.

(** ** Type-conversion commands *)

(** [multiBlockSelection.length > 0 ? multiBlockSelection : [getCurrentBlock()]],
    with [None] for the early return on a [null] first element. *)
Definition commandTargets (ed : Editor) (sel : Selection) : option (list nat) :=
  match multiBlockSelection ed with
  | [] => option_map (fun i => [i]) (getCurrentBlock sel)
  | l => Some l
  end.

(** The body shared by the commands: convert each target, renumber, clear
    the multi-block selection, focus the first target at its end. *)
Definition runBlockCommand (f : Block -> Block) (ed : Editor) (sel : Selection)
  : Editor * option Focus :=
  match commandTargets ed sel with
  | None => (ed, None)
  | Some targets =>
      (mkEditor (updateNumberedBlocks (forEachBlock f targets (blocks ed))) [],
       Some (mkFocus (hd 0 targets) true))
  end.

(** "Normal Text" *)
Definition convertToText (b : Block) : Block :=
  mkBlock text 0 (removeMarker (markers b)) (content b).

(** "Bullet List" *)
Definition toggleBullet (b : Block) : Block :=
  match btype b with
  | bullet =>
      (* Already bullet - convert to text *)
      mkBlock text (blevel b) (removeMarker (markers b)) (content b)
  | _ =>
      mkBlock bullet (blevel b) (removeMarker (markers b) ++ [bulletMarker])
        (content b)
  end.

(** "Numbered List" *)
Definition toggleNumbered (b : Block) : Block :=
  match btype b with
  | numbered =>
      (* Already numbered - convert to text *)
      mkBlock text (blevel b) (removeMarker (markers b)) (content b)
  | _ =>
      mkBlock numbered (blevel b) (removeMarker (markers b) ++ [numberMarker])
        (content b)
  end.

(** The per-block body of [applyHeading(level)]. *)
Definition convertToHeading (n : nat) (b : Block) : Block :=
  mkBlock (heading n) 0 (removeMarker (markers b)) (content b).

(** The per-block body of [applyBlockQuote]. *)
Definition toggleQuote (b : Block) : Block :=
  match btype b with
  | quote =>
      (* Already a quote - convert to text *)
      mkBlock text 0 (markers b) (content b)
  | _ => mkBlock quote 0 (removeMarker (markers b)) (content b)
  end.

Definition normalText := runBlockCommand convertToText.
Definition bulletList := runBlockCommand toggleBullet.
Definition numberedList := runBlockCommand toggleNumbered.
Definition applyHeading (n : nat) := runBlockCommand (convertToHeading n).
Definition applyBlockQuote := runBlockCommand toggleQuote.

(** The commands of the palette that convert the type of a block, each
    with the type it converts to. *)
Inductive ConvertCommand :=
| CmdHeading (n : nat)
| CmdNormalText
| CmdBulletList
| CmdNumberedList
| CmdBlockQuote.

Definition commandTarget (c : ConvertCommand) : BlockType :=
  match c with
  | CmdHeading n => heading n
  | CmdNormalText => text
  | CmdBulletList => bullet
  | CmdNumberedList => numbered
  | CmdBlockQuote => quote
  end.

Definition commandBody (c : ConvertCommand) : Block -> Block :=
  match c with
  | CmdHeading n => convertToHeading n
  | CmdNormalText => convertToText
  | CmdBulletList => toggleBullet
  | CmdNumberedList => toggleNumbered
  | CmdBlockQuote => toggleQuote
  end.

Definition runCommand (c : ConvertCommand) : Editor -> Selection -> Editor * option Focus :=
  runBlockCommand (commandBody c).

(** ** Deleting blocks *)

Definition emptyTextBlock : Block := createBlockElement text "" 0.

Definition deleteTargets (ed : Editor) (sel : Selection) : option (list nat) :=
  match multiBlockSelection ed with
  | [] =>
      match getSelectedBlocks ed sel with
      | [] => option_map (fun i => [i]) (getCurrentBlock sel)
      | l => Some l
      end
  | l => Some l
  end.

(** [targets.forEach(block => block.remove())]: the blocks whose position
    is not among the targets remain, in order. *)
Fixpoint removeBlocksFrom (pos : nat) (targets : list nat) (bs : list Block)
  : list Block :=
  match bs with
  | [] => []
  | b :: r =>
      if existsb (Nat.eqb pos) targets then removeBlocksFrom (S pos) targets r
      else b :: removeBlocksFrom (S pos) targets r
  end.

Definition removeBlocks (targets : list nat) (bs : list Block) : list Block :=
  removeBlocksFrom 0 targets bs.

(** The sibling that gets the focus, as a position before the removal:
    the block before the first target, else the block after the last. *)
Definition deleteFocusTarget (targets : list nat) (n : nat) : option nat :=
  let first := hd 0 targets in
  let last := List.last targets 0 in
  if (0 <? first) && (first <? n) then Some (first - 1)
  else if S last <? n then Some (S last)
  else None.

(** The position of a surviving block once the targets are gone. *)
Definition positionAfterRemoval (targets : list nat) (j : nat) : option nat :=
  if existsb (Nat.eqb j) targets then None
  else Some (j - length (filter (fun i => existsb (Nat.eqb i) targets) (seq 0 j))).

Definition deleteBlocks (ed : Editor) (sel : Selection) : Editor * option Focus :=
  match deleteTargets ed sel with
  | None => (ed, None)
  | Some targets =>
      let focusTarget := deleteFocusTarget targets (length (blocks ed)) in
      let remaining := removeBlocks targets (blocks ed) in
      match remaining with
      | [] =>
          (* If no blocks remain, create a new empty block *)
          (mkEditor (updateNumberedBlocks [emptyTextBlock]) [],
           Some (mkFocus 0 false))
      | _ =>
          (mkEditor (updateNumberedBlocks remaining) [],
           match focusTarget with
           | Some j => option_map (fun k => mkFocus k false)
                         (positionAfterRemoval targets j)
           | None => None
           end)
      end
  end.

(** [clearAll], given the answer to the confirmation dialog. *)
Definition clearAll (confirmed : bool) (ed : Editor) : Editor * option Focus :=
  if confirmed
  then (mkEditor [emptyTextBlock] (multiBlockSelection ed), Some (mkFocus 0 false))
  else (ed, None).

(** ** Key handlers *)

(** What a handler did with an event: left it to the browser's default
    editing, or called [preventDefault] and produced the editor and the
    focus request given. *)
Inductive Outcome :=
| Default
| Handled (ed : Editor) (focus : option Focus).

(** *** Ranges inside a content element *)

(** [range.toString()] for the range from the boundary point to the end
    of the content element. *)
Fixpoint textAfter (path : list nat) (offset : nat) (ks : list Node) : jstr :=
  match path with
  | [] => textOf (skipn offset ks)
  | i :: p =>
      match nth_error ks i with
      | Some (Text d) => skipn offset d
      | Some (Elem _ cs) => textAfter p offset cs
      | Some Br | None => []
      end ++ textOf (skipn (S i) ks)
  end.

(** [range.deleteContents()] for the same range: a text node that holds
    the boundary point is cut there, the ancestors of the boundary point
    stay, whatever follows goes. *)
Fixpoint deleteAfter (path : list nat) (offset : nat) (ks : list Node)
  : list Node :=
  match path with
  | [] => firstn offset ks
  | i :: p =>
      firstn i ks ++
      match nth_error ks i with
      | Some (Text d) => [Text (firstn offset d)]
      | Some (Elem t cs) => [Elem t (deleteAfter p offset cs)]
      | Some Br => [Br]
      | None => []
      end
  end.

(** *** Enter *)

Definition keydownEnter (ed : Editor) (sel : Selection) : Outcome :=
  match getCurrentBlock sel with
  | None => Handled ed None
  | Some i =>
      match nth_error (blocks ed) i with
      | None => Handled ed None
      | Some currentBlock =>
          let textContent := blockText currentBlock in
          let type := btype currentBlock in
          if (length (trim textContent) =? 0) && isListType type then
            (* Empty bullet/numbered block -> convert to text *)
            let converted :=
              mkBlock text (blevel currentBlock)
                (removeMarker (markers currentBlock)) (content currentBlock) in
            Handled
              (mkEditor
                 (updateNumberedBlocks (updateAt i (fun _ => converted) (blocks ed)))
                 (multiBlockSelection ed))
              (Some (mkFocus i false))
          else
            (* Split at cursor *)
            let afterContent :=
              textAfter (startPath sel) (startOffset sel) (content currentBlock) in
            let kept :=
              deleteAfter (startPath sel) (startOffset sel) (content currentBlock) in
            let kept' := match kept with [] => parseHTML "<br>" | _ => kept end in
            let newType := if isListType type then type else text in
            let currentLevel := blevel currentBlock in
            let newBlock := createBlockElement newType afterContent currentLevel in
            let current' :=
              mkBlock type currentLevel (markers currentBlock) kept' in
            let bs := insertAt (S i) newBlock
                        (updateAt i (fun _ => current') (blocks ed)) in
            let bs' := if isNumbered type || isNumbered newType
                       then updateNumberedBlocks bs else bs in
            Handled (mkEditor bs' (multiBlockSelection ed))
              (Some (mkFocus (S i) false))
      end
  end.

(** *** Backspace *)

(** A caret inside the content of a block: a child of the content
    element and an offset in it. *)
Record Caret := mkCaret { caretBlock : nat; caretNode : nat; caretOffset : nat }.

(** The offset of a caret in the flattened text of the content. *)
Definition caretTextOffset (ks : list Node) (node offset : nat) : nat :=
  length (textOf (firstn node ks)) + offset.

(** What the Backspace handler did. *)
Inductive BackspaceOutcome :=
| BsDefault                                  (* left to the browser *)
| BsSuppressed                               (* preventDefault, nothing else *)
| BsMerged (ed : Editor) (prev previousLength : nat).
    (* merged into the block at [prev]; the caret is restored by a
       callback scheduled for the next frame *)

(** [if (prev.lastChild && prev.lastChild.nodeName === 'BR')
       prev.removeChild(prev.lastChild)] *)
Definition dropTrailingBR (ks : list Node) : list Node :=
  match rev ks with
  | n :: r => if isBR n then rev r else ks
  | [] => ks
  end.

(** The content of the previous block after the append. *)
Definition mergedContent (prev cur : list Node) : list Node :=
  let currentContent := textOf cur in
  dropTrailingBR prev ++
  match currentContent with
  | [] => []
  | _ => [Text currentContent]
  end.

(** The loop of the deferred callback that looks for the text node and
    offset of the merge point among the children of the previous block. *)
Fixpoint findMergePoint (previousLength currentOffset index : nat)
    (ks : list Node) : option (nat * nat) :=
  match ks with
  | [] => None
  | Text d :: r =>
      let nodeLength := length d in
      if previousLength <=? currentOffset + nodeLength
      then Some (index, previousLength - currentOffset)
      else findMergePoint previousLength (currentOffset + nodeLength) (S index) r
  | _ :: r => findMergePoint previousLength currentOffset (S index) r
  end.

(** The callback as a whole: the children afterwards and the position of
    the caret; an empty text node is appended when the loop finds none. *)
Definition restoreMergeCaret (previousLength : nat) (ks : list Node)
  : list Node * (nat * nat) :=
  match findMergePoint previousLength 0 0 ks with
  | Some p => (ks, p)
  | None => (ks ++ [Text []], (length ks, 0))
  end.

Definition removeAt {A : Type} (i : nat) (l : list A) : list A :=
  firstn i l ++ skipn (S i) l.

Definition keydownBackspace (ed : Editor) (sel : Selection) : BackspaceOutcome :=
  if rangeCount sel =? 0 then BsDefault
  else if negb (isCollapsed sel) then BsDefault
  else
    match getCurrentBlock sel with
    | None => BsDefault
    | Some i =>
        match nth_error (blocks ed) i with
        | None => BsDefault
        | Some currentBlock =>
            let contentEl := content currentBlock in
            (* Check if this is the only block - prevent deletion if empty *)
            if (length (blocks ed) =? 1)
               && (length (trim (textOf contentEl)) =? 0)
            then BsSuppressed
            else
              (* cursorOffset === 0 && node === contentEl.firstChild *)
              let atStart :=
                (startOffset sel =? 0)
                && match startPath sel, contentEl with
                   | [0], _ :: _ => true
                   | _, _ => false
                   end in
              if atStart then
                match i with
                | O => BsSuppressed   (* Can't merge first block *)
                | S j =>
                    match nth_error (blocks ed) j with
                    | None => BsSuppressed
                    | Some previousBlock =>
                        let previousLength := length (blockText previousBlock) in
                        let previous' :=
                          mkBlock (btype previousBlock) (blevel previousBlock)
                            (markers previousBlock)
                            (mergedContent (content previousBlock) contentEl) in
                        let bs := removeAt i
                                    (updateAt j (fun _ => previous') (blocks ed)) in
                        BsMerged
                          (mkEditor (updateNumberedBlocks bs) (multiBlockSelection ed))
                          j previousLength
                    end
                end
              else BsDefault
        end
    end.

(** The callback that [requestAnimationFrame] runs after a merge. *)
Definition mergeCaretCallback (ed : Editor) (prev previousLength : nat)
  : Editor * option Caret :=
  match nth_error (blocks ed) prev with
  | None => (ed, None)
  | Some p =>
      let '(kids, (node, offset)) := restoreMergeCaret previousLength (content p) in
      (mkEditor
         (updateAt prev
            (fun _ => mkBlock (btype p) (blevel p) (markers p) kids) (blocks ed))
         (multiBlockSelection ed),
       Some (mkCaret prev node offset))
  end.

(** *** Tab and Shift+Tab *)

Definition tabTargets (ed : Editor) (sel : Selection) : option (list nat) :=
  let selectedBlocks := getSelectedBlocks ed sel in
  if 1 <? length selectedBlocks then Some selectedBlocks
  else option_map (fun i => [i]) (getCurrentBlock sel).

Definition indentBlock (b : Block) : Block :=
  mkBlock (btype b) (blevel b + 1) (markers b) (content b).

Definition outdentBlock (b : Block) : Block :=
  if 0 <? blevel b
  then mkBlock (btype b) (blevel b - 1) (markers b) (content b)
  else b.

Definition keydownTabWith (f : Block -> Block) (ed : Editor) (sel : Selection)
  : Outcome :=
  match tabTargets ed sel with
  | None => Handled ed None
  | Some targets =>
      Handled
        (mkEditor (updateNumberedBlocks (forEachBlock f targets (blocks ed)))
           (multiBlockSelection ed))
        (Some (mkFocus (hd 0 targets) true))
  end.

Definition keydownTab := keydownTabWith indentBlock.
Definition keydownShiftTab := keydownTabWith outdentBlock.

(** ** Autoformat on a typed space *)

(** The [beforeinput] event, as far as the handler looks at it. *)
Record InputEvent := mkInputEvent {
  isComposing : bool;
  isInsertText : bool;      (* inputType === 'insertText' *)
  data : jstr
}.

(** [textContent.match(/^(\d{1,2})\./)]: the length of the match. *)
Definition numberedPrefix (s : jstr) : option nat :=
  match s with
  | d1 :: d2 :: dot :: _ =>
      if isDigit d1 && isDigit d2 && Ascii.eqb dot "."%char then Some 3
      else if isDigit d1 && Ascii.eqb d2 "."%char then Some 2
      else None
  | d1 :: dot :: _ =>
      if isDigit d1 && Ascii.eqb dot "."%char then Some 2 else None
  | _ => None
  end.

Definition autoformatQuote (b : Block) : Block :=
  let remainingText := trimStart (sliceFrom 1 (blockText b)) in
  mkBlock quote (blevel b) (markers b) (setTextContent remainingText).

Definition autoformatBullet (b : Block) : Block :=
  let remainingText := trimStart (sliceFrom 1 (blockText b)) in
  mkBlock bullet (blevel b) (markers b ++ [bulletMarker])
    (setTextContent remainingText).

Definition autoformatNumbered (prefixLength : nat) (b : Block) : Block :=
  let remainingText := trimStart (sliceFrom prefixLength (blockText b)) in
  mkBlock numbered (blevel b) (markers b ++ [numberMarker])
    (setTextContent remainingText).

Definition beforeinputAutoformat (ev : InputEvent) (ed : Editor)
    (sel : Selection) : Outcome :=
  if isComposing ev then Default
  else if isInsertText ev && jstr_eqb (data ev) " " then
    match getCurrentBlock sel with
    | None => Default
    | Some i =>
        match nth_error (blocks ed) i with
        | None => Default
        | Some currentBlock =>
            let textContent := blockText currentBlock in
            if startsWith ">" textContent then
              Handled
                (mkEditor (updateAt i autoformatQuote (blocks ed))
                   (multiBlockSelection ed))
                (Some (mkFocus i true))
            else if startsWith "-" textContent || startsWith "*" textContent then
              Handled
                (mkEditor (updateAt i autoformatBullet (blocks ed))
                   (multiBlockSelection ed))
                (Some (mkFocus i true))
            else
              match numberedPrefix textContent with
              | Some prefixLength =>
                  Handled
                    (mkEditor
                       (updateNumberedBlocks
                          (updateAt i (autoformatNumbered prefixLength) (blocks ed)))
                       (multiBlockSelection ed))
                    (Some (mkFocus i true))
              | None => Default
              end
        end
    end
  else Default.

(** [detectListPattern(text, cursorPosition)], a helper that looks at the
    text before the cursor once the space is in: [/^[-*]\s$/] for a
    bullet, [/^(\d{1,2})\.\s$/] for a numbered item.  It returns the type
    found, if any, and the length of the pattern. *)
Definition detectListPattern (text : jstr) (cursorPosition : nat)
  : option BlockType * nat :=
  let textBeforeCursor := substringTo cursorPosition text in
  match textBeforeCursor with
  | [c; w] =>
      if (Ascii.eqb c "-"%char || Ascii.eqb c "*"%char) && isWhiteSpace w
      then (Some bullet, 2)
      else (None, 0)
  | [d; dot; w] =>
      if isDigit d && Ascii.eqb dot "."%char && isWhiteSpace w
      then (Some numbered, 3)
      else (None, 0)
  | [d1; d2; dot; w] =>
      if isDigit d1 && isDigit d2 && Ascii.eqb dot "."%char && isWhiteSpace w
      then (Some numbered, 4)
      else (None, 0)
  | _ => (None, 0)
  end.


(** ** The markdown bridge *)

(** [trimmedLine.match(/^[-*]\s+/)], returning what
    [trimmedLine.replace(/^[-*]\s+/, '')] leaves. *)
Definition bulletLine (s : jstr) : option jstr :=
  match s with
  | c :: w :: r =>
      if (Ascii.eqb c "-"%char || Ascii.eqb c "*"%char) && isWhiteSpace w
      then Some (dropWhile isWhiteSpace r)
      else None
  | _ => None
  end.

(** [trimmedLine.match(/^\d+\.\s+/)], returning what the replacement
    leaves. *)
Definition numberedLine (s : jstr) : option jstr :=
  match takeWhile isDigit s, dropWhile isDigit s with
  | _ :: _, dot :: w :: r =>
      if Ascii.eqb dot "."%char && isWhiteSpace w
      then Some (dropWhile isWhiteSpace r)
      else None
  | _, _ => None
  end.

Definition isSpace (c : ascii) : bool := Ascii.eqb c " "%char.

(** One iteration of the loop of [markdownToBlocks]. *)
Definition markdownLineToBlock (line : jstr) : Block :=
  (* Calculate indentation level (2 spaces = 1 level) *)
  let leadingSpaces := length (takeWhile isSpace line) in
  let level := leadingSpaces / 2 in
  let trimmedLine := trim line in
  match trimmedLine with
  | [] => createBlockElement text "" 0
  | _ =>
      if startsWith "### " trimmedLine then
        createBlockElement (heading 3) (sliceFrom 4 trimmedLine) 0
      else if startsWith "## " trimmedLine then
        createBlockElement (heading 2) (sliceFrom 3 trimmedLine) 0
      else if startsWith "# " trimmedLine then
        createBlockElement (heading 1) (sliceFrom 2 trimmedLine) 0
      else if startsWith "> " trimmedLine then
        createBlockElement quote (sliceFrom 2 trimmedLine) 0
      else
        match bulletLine trimmedLine with
        | Some c => createBlockElement bullet c level
        | None =>
            match numberedLine trimmedLine with
            | Some c => createBlockElement numbered c level
            | None => createBlockElement text trimmedLine 0
            end
        end
  end.

Definition markdownToBlocks (markdown : jstr) : list Block :=
  map markdownLineToBlock (split newline markdown).

(** The object [numberedCounters], keyed by level. *)
Definition Counters := list (nat * nat).

Definition getCounter (level : nat) (cs : Counters) : option nat :=
  option_map snd (find (fun kv => fst kv =? level) cs).

Definition setCounter (level n : nat) (cs : Counters) : Counters :=
  (level, n) :: filter (fun kv => negb (fst kv =? level)) cs.

(** One iteration of the [forEach] of [htmlToMarkdown]: the counters
    afterwards and the text appended to [markdown]. *)
Definition blockToMarkdown (numberedCounters : Counters) (b : Block)
  : Counters * jstr :=
  let type := btype b in
  let level := blevel b in
  let content := trim (blockText b) in
  match content, type with
  | [], text =>
      (* Empty text blocks reset numbered counters and add spacing *)
      ([], [newline])
  | _, _ =>
      let indent := repeatStr "  " level in
      match type with
      | heading 1 => ([], "# " ++ content ++ [newline; newline])
      | heading 2 => ([], "## " ++ content ++ [newline; newline])
      | heading 3 => ([], "### " ++ content ++ [newline; newline])
      | bullet => ([], indent ++ "- " ++ content ++ [newline])
      | numbered =>
          let n := match getCounter level numberedCounters with
                   | None | Some 0 => 1
                   | Some k => S k
                   end in
          let cs := filter (fun kv => fst kv <=? level)
                      (setCounter level n numberedCounters) in
          (cs, indent ++ natToString n ++ ". " ++ content ++ [newline])
      | quote => ([], "> " ++ content ++ [newline; newline])
      | _ =>
          ([], match content with
               | [] => []
               | _ => content ++ [newline; newline]
               end)
      end
  end.

Fixpoint blocksToMarkdownFrom (numberedCounters : Counters) (bs : list Block)
  : jstr :=
  match bs with
  | [] => []
  | b :: r =>
      let '(cs, piece) := blockToMarkdown numberedCounters b in
      piece ++ blocksToMarkdownFrom cs r
  end.

(** [markdown.replace(/\n{3,}/g, '\n\n')]: of every run of line breaks at
    most two are kept.  [run] counts the line breaks of the current run
    that were copied. *)
Fixpoint collapseNewlinesFrom (run : nat) (s : jstr) : jstr :=
  match s with
  | [] => []
  | c :: r =>
      if Ascii.eqb c newline then
        if run <? 2 then c :: collapseNewlinesFrom (S run) r
        else collapseNewlinesFrom run r
      else c :: collapseNewlinesFrom 0 r
  end.

Definition collapseNewlines (s : jstr) : jstr := collapseNewlinesFrom 0 s.

(** [htmlToMarkdown], on the blocks that the markup of the editor parses
    back to. *)
Definition htmlToMarkdown (bs : list Block) : jstr :=
  trim (collapseNewlines (blocksToMarkdownFrom [] bs)).

(** ** The numbering pass in the words of the specification

    A counter for every level, all zero at the start.  On a numbered
    block the counter of its level goes up by one and all deeper counters
    are zeroed; the label joins the non-zero counters of levels 0 to the
    level of the block with dots and ends in a dot.  On any other block
    all counters are zeroed.  The pass reads the type and the level of
    each block and nothing else. *)

Definition blockShape (b : Block) : BlockType * nat := (btype b, blevel b).

Definition specIncrement (level : nat) (c : nat -> nat) : nat -> nat :=
  fun i => if i =? level then S (c i) else c i.

Definition specZeroDeeper (level : nat) (c : nat -> nat) : nat -> nat :=
  fun i => if level <? i then 0 else c i.

Definition specZeroAll : nat -> nat := fun _ => 0.

Definition specLabel (level : nat) (c : nat -> nat) : jstr :=
  join "." (map natToString
              (filter (fun n => negb (n =? 0)) (map c (seq 0 (S level)))))
  ++ ".".

Fixpoint specNumberingFrom (c : nat -> nat) (shapes : list (BlockType * nat))
  : list (option jstr) :=
  match shapes with
  | [] => []
  | (numbered, level) :: r =>
      let c' := specZeroDeeper level (specIncrement level c) in
      Some (specLabel level c') :: specNumberingFrom c' r
  | _ :: r => None :: specNumberingFrom specZeroAll r
  end.

Definition specNumbering (shapes : list (BlockType * nat)) : list (option jstr) :=
  specNumberingFrom specZeroAll shapes.

(** The text of the number marker a block shows, if it has one. *)
Definition isNumberMarker (m : Marker) : bool :=
  match mclass m with number_marker => true | bullet_marker => false end.

Definition markerLabel (b : Block) : option jstr :=
  option_map mtext (find isNumberMarker (markers b)).

(** ** Reading the outcome of an event *)

(** The editor once the event has been handled. *)
Definition afterOutcome (ed : Editor) (o : Outcome) : Editor :=
  match o with
  | Default => ed
  | Handled ed' _ => ed'
  end.

(** Whether the block at a position is among the targets of an action. *)
Definition isTarget (targets : option (list nat)) (i : nat) : bool :=
  match targets with
  | Some ts => existsb (Nat.eqb i) ts
  | None => false
  end.

(** The blocks paired with their positions. *)
Definition indexed (bs : list Block) : list (nat * Block) :=
  combine (seq 0 (length bs)) bs.

Fixpoint mapIdxFrom (k : nat) (g : nat -> Block -> Block) (bs : list Block)
  : list Block :=
  match bs with
  | [] => []
  | b :: r => g k b :: mapIdxFrom (S k) g r
  end.

(** A key press: the editor that the handler leaves. *)
Definition press (handler : Editor -> Selection -> Outcome) (sel : Selection)
    (ed : Editor) : Editor :=
  afterOutcome ed (handler ed sel).

(** A collapsed caret in the block at position [i], at the boundary point
    given by a path and an offset. *)
Definition caretIn (i : nat) (path : list nat) (offset : nat) : Selection :=
  mkSelection 1 true (Some i) (Nat.eqb i) path offset.

(** ** Well-formed blocks

    The block of the data model has one marker when it is a bullet or a
    numbered item and none otherwise; this is how [createBlockElement]
    builds blocks. *)

Definition markersFor (t : BlockType) : list MarkerClass :=
  match t with
  | bullet => [bullet_marker]
  | numbered => [number_marker]
  | _ => []
  end.

Definition wellFormed (b : Block) : Prop :=
  map mclass (markers b) = markersFor (btype b).

(** The commands that the source documents as toggles. *)
Definition isToggleCommand (c : ConvertCommand) : bool :=
  match c with
  | CmdBulletList | CmdNumberedList | CmdBlockQuote => true
  | CmdHeading _ | CmdNormalText => false
  end.

(** ** Sequences of block-removing operations *)

Inductive RemovalOp :=
| OpDeleteBlocks (sel : Selection)     (* the Delete Block command, Cmd+D *)
| OpClearAll (confirmed : bool)        (* the Clear All command *)
| OpBackspace (sel : Selection).       (* the Backspace key *)

(** The editor as the Backspace handler leaves it.  When the handler
    leaves the key to the browser it has changed nothing itself; what the
    browser's own deletion then removes is no part of this. *)
Definition afterBackspace (ed : Editor) (o : BackspaceOutcome) : Editor :=
  match o with
  | BsMerged ed' _ _ => ed'
  | BsDefault | BsSuppressed => ed
  end.

(** The editor after an operation, where the code determines it.  Delete
    Block and Clear All run to their end in the code.  So does Backspace
    when the handler merges or returns after [preventDefault]; when it
    returns without, the deletion is the browser's own and the code does
    not say what the document holds afterwards: there is no result. *)
Definition applyOp (ed : Editor) (op : RemovalOp) : option Editor :=
  match op with
  | OpDeleteBlocks sel => Some (fst (deleteBlocks ed sel))
  | OpClearAll confirmed => Some (fst (clearAll confirmed ed))
  | OpBackspace sel =>
      match keydownBackspace ed sel with
      | BsMerged ed' _ _ => Some ed'
      | BsSuppressed => Some ed
      | BsDefault => None
      end
  end.

Fixpoint applyOps (ed : Editor) (ops : list RemovalOp) : option Editor :=
  match ops with
  | [] => Some ed
  | op :: r =>
      match applyOp ed op with
      | Some ed' => applyOps ed' r
      | None => None
      end
  end.

(** A range that is not collapsed, with its start in the block at
    position [i]. *)
Definition rangeIn (i : nat) (path : list nat) (offset : nat) : Selection :=
  mkSelection 1 false (Some i) (Nat.eqb i) path offset.

(** The [beforeinput] event of a typed space. *)
Definition spaceTyped : InputEvent := mkInputEvent false true " ".

(** The block at a position, seen as its type and its text. *)
Definition typeAndTextAt (ed : Editor) (i : nat) : option (BlockType * jstr) :=
  option_map (fun b => (btype b, blockText b)) (nth_error (blocks ed) i).

(** ** Text without markup

    A string without ['<'] holds no tag, without ['&'] no character
    reference, and without carriage return and NUL nothing that the
    parser rewrites: assigned to [innerHTML] it becomes one text node
    with the same characters. *)
Definition isMarkupChar (c : ascii) : bool :=
  Ascii.eqb c "<"%char || Ascii.eqb c "&"%char
  || Ascii.eqb c carriageReturn || Ascii.eqb c nul.

Definition markupFree (s : jstr) : bool := forallb (fun c => negb (isMarkupChar c)) s.

(** ** Markdown, line by line

    What [markdownToBlocks] makes of a line depends on the trimmed line,
    and on the leading spaces for the level of a list item. *)

(** The branch that the loop of [markdownToBlocks] takes: the type of
    the block and the content string handed to [createBlockElement]. *)
Definition classifyTrimmed (trimmedLine : jstr) : BlockType * jstr :=
  match trimmedLine with
  | [] => (text, [])
  | _ =>
      if startsWith "### " trimmedLine then (heading 3, sliceFrom 4 trimmedLine)
      else if startsWith "## " trimmedLine then (heading 2, sliceFrom 3 trimmedLine)
      else if startsWith "# " trimmedLine then (heading 1, sliceFrom 2 trimmedLine)
      else if startsWith "> " trimmedLine then (quote, sliceFrom 2 trimmedLine)
      else
        match bulletLine trimmedLine with
        | Some c => (bullet, c)
        | None =>
            match numberedLine trimmedLine with
            | Some c => (numbered, c)
            | None => (text, trimmedLine)
            end
        end
  end.

(** The level handed to [createBlockElement]. *)
Definition lineLevel (line : jstr) : nat :=
  match fst (classifyTrimmed (trim line)) with
  | bullet | numbered => length (takeWhile isSpace line) / 2
  | _ => 0
  end.

(** A line as the reader sees it: its classification and its content,
    without the white space around the content. *)
Definition Item := (BlockType * jstr)%type.

Definition lineItem (line : jstr) : Item :=
  let '(t, c) := classifyTrimmed (trim line) in (t, trim c).

Definition isBlankItem (it : Item) : bool :=
  match it with
  | (text, []) => true
  | _ => false
  end.

(** The lines of a markdown text that are not blank, in order. *)
Definition contentLines (markdown : jstr) : list Item :=
  filter (fun it => negb (isBlankItem it)) (map lineItem (split newline markdown)).

(** A line of the markdown that the round trip is claimed for: blank, a
    heading, a bullet at level 0 or a paragraph. *)
Definition simpleLine (line : jstr) : bool :=
  match fst (classifyTrimmed (trim line)) with
  | text | heading _ => true
  | bullet => lineLevel line =? 0
  | numbered | quote => false
  end.

Definition simpleMarkdown (markdown : jstr) : bool :=
  forallb simpleLine (split newline markdown).

(** Markdown whose lines, once trimmed, hold no character that
    [innerHTML] would not take literally.  Carriage returns at the end of
    the lines are trimmed away and do not count. *)
Definition plainMarkdown (markdown : jstr) : bool :=
  forallb (fun line => markupFree (trim line)) (split newline markdown).

(** Import followed by export. *)
Definition roundTrip (markdown : jstr) : jstr :=
  htmlToMarkdown (markdownToBlocks markdown).

(** *** The export in terms of lines

    The text that [htmlToMarkdown] builds for blocks that came from simple
    markdown is a sequence of lines, each followed by a number of line
    breaks.  The definitions below describe it in that form. *)

(** No white space at either end, and not empty. *)
Definition tight (s : jstr) : bool :=
  match s with
  | [] => false
  | c :: _ => negb (isWhiteSpace c) && negb (isWhiteSpace (last s c))
  end.

(** The last character of a string is not white space. *)
Definition endsTight (s : jstr) : Prop :=
  exists x y, rev s = x :: y /\ isWhiteSpace x = false.

Definition noNewline (s : jstr) : bool :=
  forallb (fun c => negb (Ascii.eqb c newline)) s.

(** The line that the export writes for an item. *)
Definition itemLine (it : Item) : jstr :=
  match fst it with
  | heading 1 => "# " ++ snd it
  | heading 2 => "## " ++ snd it
  | heading 3 => "### " ++ snd it
  | bullet => "- " ++ snd it
  | _ => snd it
  end.

(** The number of line breaks that the export puts after it. *)
Definition itemBreaks (t : BlockType) : nat :=
  match t with
  | bullet => 1
  | _ => 2
  end.

Definition emitItem (it : Item) : jstr :=
  if isBlankItem it then [newline]
  else itemLine it ++ repeat newline (itemBreaks (fst it)).

(** An item that is not blank, as a simple, markup-free line gives it. *)
Definition goodItem (it : Item) : Prop :=
  tight (snd it) = true /\ noNewline (snd it) = true
  /\ markupFree (snd it) = true
  /\ match fst it with
     | heading n => n = 1 \/ n = 2 \/ n = 3
     | bullet => True
     | text => classifyTrimmed (snd it) = (text, snd it)
     | numbered | quote => False
     end.

Definition okItem (it : Item) : Prop := isBlankItem it = true \/ goodItem it.

(** A segment: an item and the number of line breaks after its line. *)
Definition Seg := (Item * nat)%type.

(** The items as segments: the line breaks of blank items are added to
    those of the item before them, or to the count of leading line
    breaks. *)
Fixpoint toSegs (items : list Item) : nat * list Seg :=
  match items with
  | [] => (0, [])
  | it :: r =>
      let '(k, l) := toSegs r in
      if isBlankItem it then (S k, l)
      else (0, (it, itemBreaks (fst it) + k) :: l)
  end.

Definition flatSeg (sg : Seg) : jstr :=
  itemLine (fst sg) ++ repeat newline (snd sg).

Definition flatSegs (k : nat) (l : list Seg) : jstr :=
  repeat newline k ++ concat (map flatSeg l).

Definition capSeg (sg : Seg) : Seg := (fst sg, Nat.min (snd sg) 2).

(** The segments joined, without the line breaks of the last. *)
Fixpoint joinSegs (l : list Seg) : jstr :=
  match l with
  | [] => []
  | sg :: r =>
      match r with
      | [] => itemLine (fst sg)
      | _ => flatSeg sg ++ joinSegs r
      end
  end.

(** The lines of the joined segments, and the items they are read as. *)
Fixpoint segLines (l : list Seg) : list jstr :=
  match l with
  | [] => [[]]
  | sg :: r =>
      match r with
      | [] => [itemLine (fst sg)]
      | _ => itemLine (fst sg) :: repeat [] (snd sg - 1) ++ segLines r
      end
  end.

Fixpoint segItems (l : list Seg) : list Item :=
  match l with
  | [] => [(text, [])]
  | sg :: r =>
      match r with
      | [] => [fst sg]
      | _ => fst sg :: repeat (text, []) (snd sg - 1) ++ segItems r
      end
  end.

(** The three conditions on a line that the export formula needs. *)
Definition lineOK (line : jstr) : Prop :=
  noNewline line = true /\ markupFree (trim line) = true
  /\ simpleLine line = true.

(** A segment of an export: one or two line breaks, two after anything
    but a bullet. *)
Definition validSeg (sg : Seg) : Prop :=
  goodItem (fst sg) /\ itemBreaks (fst (fst sg)) <= snd sg <= 2.

(** Content without inline elements: text nodes and line breaks only. *)
Definition plainContent (ks : list Node) : bool :=
  forallb (fun n => match n with Elem _ _ => false | _ => true end) ks.

(** ** Moving blocks

    The handlers of Alt+Arrow and Alt+Shift+Arrow move block elements
    with [insertBefore] and [appendChild].  An element keeps its identity
    while it moves, so during a move every block carries the position it
    had when the handler started ([indexed]).  In typewriter mode the
    listener stops at every arrow key before it reaches these handlers;
    [keydownMove] takes the mode into account. *)

Definition hasId (x : nat) (p : nat * Block) : bool := fst p =? x.

(** Taking an element out of the list of children, the first step of
    every insertion of an element that is in the document. *)
Definition detach (x : nat) (l : list (nat * Block)) : list (nat * Block) :=
  filter (fun p => negb (hasId x p)) l.

Fixpoint insertBeforeRef (node : nat * Block) (ref : nat)
    (l : list (nat * Block)) : list (nat * Block) :=
  match l with
  | [] => [node]
  | p :: r =>
      if hasId ref p then node :: p :: r
      else p :: insertBeforeRef node ref r
  end.

(** [editor.insertBefore(x, ref)] for two blocks of the editor.  With
    [x === ref] the reference becomes the next sibling of [x], which
    leaves [x] where it is. *)
Definition insertBefore (x ref : nat) (l : list (nat * Block))
  : list (nat * Block) :=
  if x =? ref then l
  else match find (hasId x) l with
       | Some node => insertBeforeRef node ref (detach x l)
       | None => l
       end.

(** [editor.appendChild(x)] for a block of the editor. *)
Definition appendChild (x : nat) (l : list (nat * Block))
  : list (nat * Block) :=
  match find (hasId x) l with
  | Some node => detach x l ++ [node]
  | None => l
  end.

(** Where an element is after the move. *)
Fixpoint positionOf (x : nat) (l : list (nat * Block)) : option nat :=
  match l with
  | [] => None
  | p :: r => if hasId x p then Some 0 else option_map S (positionOf x r)
  end.

(** What the handlers do once the elements are in place:
    [updateNumberedBlocks()].  The elements that [multiBlockSelection]
    refers to are the same as before, at their new positions. *)
Definition settleMove (ed : Editor) (moved : list (nat * Block)) : Editor :=
  mkEditor (updateNumberedBlocks (map snd moved))
    (map (fun x => match positionOf x moved with
                   | Some k => k
                   | None => x
                   end)
       (multiBlockSelection ed)).

(** [focusBlock(block)] for an element that moved. *)
Definition focusMoved (x : nat) (moved : list (nat * Block)) : option Focus :=
  option_map (fun k => mkFocus k false) (positionOf x moved).

(** [multiBlockSelection.length > 0 ? multiBlockSelection
     : (selectedBlocks.length > 1 ? selectedBlocks : [getCurrentBlock()])] *)
Definition moveTargets (ed : Editor) (sel : Selection) : option (list nat) :=
  match multiBlockSelection ed with
  | [] => tabTargets ed sel
  | l => Some l
  end.

(** Alt+ArrowUp *)
Definition keydownAltArrowUp (ed : Editor) (sel : Selection) : Outcome :=
  match moveTargets ed sel with
  | None => Handled ed None
  | Some blocksToMove =>
      let firstBlock := hd 0 blocksToMove in
      (* Can't move if first block doesn't have a previous sibling *)
      if (firstBlock =? 0) || (length (blocks ed) <=? firstBlock)
      then Handled ed None
      else
        let targetBlock := firstBlock - 1 in
        let moved :=
          fold_left (fun l x => insertBefore x targetBlock l)
            blocksToMove (indexed (blocks ed)) in
        Handled (settleMove ed moved)
          (if length blocksToMove =? 1 then focusMoved firstBlock moved
           else None)
  end.

(** Alt+ArrowDown *)
Definition keydownAltArrowDown (ed : Editor) (sel : Selection) : Outcome :=
  match moveTargets ed sel with
  | None => Handled ed None
  | Some blocksToMove =>
      let lastBlock := last blocksToMove 0 in
      (* Can't move if last block doesn't have a next sibling *)
      if length (blocks ed) <=? S lastBlock then Handled ed None
      else
        let nextBlock := S lastBlock in
        (* null if nextBlock is last *)
        let targetPosition :=
          if S nextBlock <? length (blocks ed) then Some (S nextBlock)
          else None in
        let moved :=
          fold_left
            (fun l x => match targetPosition with
                        | Some t => insertBefore x t l
                        | None => appendChild x l
                        end)
            (rev blocksToMove) (indexed (blocks ed)) in
        Handled (settleMove ed moved)
          (if length blocksToMove =? 1
           then focusMoved (hd 0 blocksToMove) moved
           else None)
  end.

(** Alt+Shift+ArrowUp *)
Definition keydownAltShiftArrowUp (ed : Editor) (sel : Selection) : Outcome :=
  match getCurrentBlock sel with
  | None => Handled ed None
  | Some currentBlock =>
      if (currentBlock =? 0) || (length (blocks ed) <=? currentBlock)
      then Handled ed None
      else
        let previousBlock := currentBlock - 1 in
        let moved := insertBefore currentBlock previousBlock
                       (indexed (blocks ed)) in
        Handled (settleMove ed moved) (focusMoved currentBlock moved)
  end.

(** Alt+Shift+ArrowDown *)
Definition keydownAltShiftArrowDown (ed : Editor) (sel : Selection) : Outcome :=
  match getCurrentBlock sel with
  | None => Handled ed None
  | Some currentBlock =>
      if length (blocks ed) <=? S currentBlock then Handled ed None
      else
        let nextBlock := S currentBlock in
        let moved := insertBefore nextBlock currentBlock
                       (indexed (blocks ed)) in
        Handled (settleMove ed moved) (focusMoved currentBlock moved)
  end.

Inductive MoveKey := AltUp | AltDown | AltShiftUp | AltShiftDown.

Definition keydownMove (typewriterMode : bool) (k : MoveKey)
  : Editor -> Selection -> Outcome :=
  if typewriterMode then
    (* Prevent arrow keys (cursor movement) *)
    fun ed _ => Handled ed None
  else
    match k with
    | AltUp => keydownAltArrowUp
    | AltDown => keydownAltArrowDown
    | AltShiftUp => keydownAltShiftArrowUp
    | AltShiftDown => keydownAltShiftArrowDown
    end.

(** The keys that move the blocks held in [multiBlockSelection] when it
    is not empty; the other two move the block of the caret. *)
Definition readsMultiBlockSelection (k : MoveKey) : bool :=
  match k with
  | AltUp | AltDown => true
  | AltShiftUp | AltShiftDown => false
  end.

(** [multiBlockSelection] holds elements, given here by their positions;
    an element that has left the document since the array was filled has
    no position.  Whether every element held is a block of the document. *)
Definition heldInDocument (ed : Editor) : bool :=
  forallb (fun x => x <? length (blocks ed)) (multiBlockSelection ed).

(** What stays of a block when only its markers may change. *)
Definition blockBody (b : Block) : BlockType * nat * list Node :=
  (btype b, blevel b, content b).

(** The blocks with the positions from [k] on. *)
Definition tagFrom (k : nat) (bs : list Block) : list (nat * Block) :=
  combine (seq k (length bs)) bs.

(** A document of four blocks and a selection over the two in the
    middle. *)
Definition moveExampleEditor : Editor :=
  mkEditor [createBlockElement text "a" 0; createBlockElement text "b" 0;
            createBlockElement text "c" 0; createBlockElement text "d" 0] [].

Definition moveExampleSelection : Selection :=
  mkSelection 1 false (Some 1) (fun i => (i =? 1) || (i =? 2)) [0] 0.

(** The same document with the two blocks in the middle held in
    [multiBlockSelection]. *)
Definition heldExampleEditor : Editor :=
  mkEditor (blocks moveExampleEditor) [1; 2].

(** A block as the numbering pass may have left it: the same block, or,
    when it is numbered, the block with another label. *)
Definition relabelled (b' b : Block) : Prop :=
  b' = b \/ (btype b = numbered /\ exists s, b' = relabel (Some s) b).

(** ** Placing the caret: [focusBlock] *)

Definition isTextNode (n : Node) : bool :=
  match n with Text _ => true | _ => false end.

(** The index of the first element that satisfies [p], as in
    [Array.from(childNodes).find(...)] when the position is what matters. *)
Fixpoint findIndex {A : Type} (p : A -> bool) (l : list A) : option nat :=
  match l with
  | [] => None
  | x :: r => if p x then Some 0 else option_map S (findIndex p r)
  end.

(** The callback of [focusBlock] on the children of the content element:
    the children afterwards and the boundary point of the caret, as a
    path from the content element and an offset. *)
Definition focusContent (atEnd : bool) (ks : list Node)
  : list Node * (list nat * nat) :=
  if atEnd then
    (* range.selectNodeContents(contentEl); range.collapse(false) *)
    (ks, ([], length ks))
  else
    match ks with
    | [] =>
        (* No children - add empty text node *)
        ([Text []], ([0], 0))
    | [Br] =>
        (* Only a BR tag - add text node before it *)
        ([Text []; Br], ([0], 0))
    | _ =>
        (* Find first text node or create one *)
        match findIndex isTextNode ks with
        | Some j => (ks, ([j], 0))
        | None => (Text [] :: ks, ([0], 0))
        end
    end.

(** [focusBlock(block, atEnd)] once its callback has run: the editor and
    the selection. *)
Definition focusBlock (f : Focus) (ed : Editor) : Editor * option Selection :=
  match nth_error (blocks ed) (focusIndex f) with
  | None => (ed, None)
  | Some b =>
      let '(kids, (path, offset)) := focusContent (atEnd f) (content b) in
      (mkEditor
         (updateAt (focusIndex f)
            (fun _ => mkBlock (btype b) (blevel b) (markers b) kids)
            (blocks ed))
         (multiBlockSelection ed),
       Some (caretIn (focusIndex f) path offset))
  end.

(** ** Paste *)

(** [s.includes(needle)] *)
Fixpoint includes (needle s : jstr) : bool :=
  startsWith needle s
  || match s with
     | [] => false
     | _ :: r => includes needle r
     end.

Definition isListTag (t : jstr) : bool := jstr_eqb t "ul" || jstr_eqb t "ol".

(** The text nodes among the children of a list item, concatenated. *)
Definition ownText (ks : list Node) : jstr :=
  concat (map (fun n => match n with Text d => d | _ => [] end) ks).

(** [convertNode(node, level)] of the paste handler: the blocks it
    pushes, in order. *)
Fixpoint convertNode (node : Node) (level : nat) : list Block :=
  match node with
  | Elem tag kids =>
      if isListTag tag then
        let type := if jstr_eqb tag "ul" then bullet else numbered in
        flat_map
          (fun child =>
             match child with
             | Elem t cs =>
                 if jstr_eqb t "li" then
                   (* Get text content (not including nested lists) *)
                   match trim (ownText cs) with
                   | [] => []
                   | txt => [createBlockElement type txt level]
                   end
                   ++
                   (* Process nested lists *)
                   flat_map
                     (fun nested =>
                        match nested with
                        | Elem t' _ =>
                            if isListTag t' then convertNode nested (S level)
                            else []
                        | _ => []
                        end)
                     cs
                 else []
             | _ => []
             end)
          kids
      else if jstr_eqb tag "p" || jstr_eqb tag "div" then
        match trim (textContent node) with
        | [] => []
        | txt => [createBlockElement text txt 0]
        end
      else []
  | _ => []
  end.

(** The blocks made from the markup on the clipboard, by the parse of
    [innerHTML] as far as it is modelled (see there). *)
Definition pastedBlocks (html : jstr) : list Block :=
  flat_map (fun child => convertNode child 0) (parseHTML html).

(** The second half of the [paste] handler, from [const currentBlock]
    on, given the array [blocks] that the conversion has filled: each new
    block goes in right after the current block, the document is
    renumbered and the last block of the array gets the focus, at its
    end.  The blocks that [multiBlockSelection] refers to move down when
    they follow the current block. *)
Definition insertPasted (newBlocks : list Block) (ed : Editor)
    (sel : Selection) : Outcome :=
  match getCurrentBlock sel, newBlocks with
  | Some i, _ :: _ =>
      if i <? length (blocks ed) then
        Handled
          (mkEditor
             (updateNumberedBlocks
                (fold_left (fun bs b => insertAt (S i) b bs) newBlocks
                   (blocks ed)))
             (map (fun x => if i <? x then x + length newBlocks else x)
                (multiBlockSelection ed)))
          (Some (mkFocus (S i) true))
      else Handled ed None
  | _, _ => Handled ed None
  end.

(** The [paste] handler, given the [text/html] data of the clipboard. *)
Definition pasteHandler (html : jstr) (ed : Editor) (sel : Selection)
  : Outcome :=
  if includes "<ul" html || includes "<ol" html then
    insertPasted (pastedBlocks html) ed sel
  else Default.

(** ** Copy *)

(** An entry of [listStack]: the tag of an open list and its level. *)
Definition ListFrame := (jstr * nat)%type.

(** [while (listStack.length > 0 && top.level >= level)]: the lists
    closed, as the parts pushed, and the stack that is left. *)
Fixpoint closeListsTo (level : nat) (listStack : list ListFrame)
  : list jstr * list ListFrame :=
  match listStack with
  | (type, l) :: rest =>
      if level <=? l then
        let '(parts, stack') := closeListsTo level rest in
        ("</li>" :: ("</" ++ type ++ ">") :: parts, stack')
      else ([], listStack)
  | [] => ([], [])
  end.

(** [while (listStack.length > 0)]: every open list closed. *)
Definition closeAllLists (listStack : list ListFrame) : list jstr :=
  flat_map (fun f => ["</li>"; "</" ++ fst f ++ ">"]) listStack.

(** One iteration of the [forEach] of the copy handler: the parts pushed
    to [htmlParts] and the stack of open lists afterwards. *)
Definition copyStep (listStack : list ListFrame) (b : Block)
  : list jstr * list ListFrame :=
  let blockType := btype b in
  let level := blevel b in
  let content := blockText b in
  if isListType blockType then
    let listType := match blockType with bullet => "ul" | _ => "ol" end in
    (* Close lists if we've decreased level *)
    let '(closed, stack1) := closeListsTo level listStack in
    let '(opened, stack2) :=
      match stack1 with
      | [] => (["<" ++ listType ++ ">"], [(listType, level)])
      | (_, l) :: _ =>
          if l <? level
          then (["<" ++ listType ++ ">"], (listType, level) :: stack1)
          else (["</li>"], stack1)   (* Same level, close previous item *)
      end in
    (closed ++ opened ++ ["<li>" ++ content], stack2)
  else
    (* Text block - close all lists and add as paragraph *)
    (closeAllLists listStack ++ ["<p>" ++ content ++ "</p>"], []).

(** The parts pushed for the blocks from a given stack on, with the
    closing parts of the lists that remain open at the end. *)
Fixpoint copyPartsFrom (listStack : list ListFrame) (bs : list Block)
  : list jstr :=
  match bs with
  | [] => closeAllLists listStack
  | b :: r =>
      let '(parts, stack') := copyStep listStack b in
      parts ++ copyPartsFrom stack' r
  end.

(** [htmlParts.join('')] and [plainTextParts.join('\n')] for the
    selected blocks. *)
Definition copiedHtml (selectedBlocks : list Block) : jstr :=
  concat (copyPartsFrom [] selectedBlocks).

Definition copiedPlain (selectedBlocks : list Block) : jstr :=
  join [newline] (map blockText selectedBlocks).

(** The blocks that the range of the selection intersects. *)
Definition selectedBlockList (ed : Editor) (sel : Selection) : list Block :=
  flat_map (fun i => match nth_error (blocks ed) i with
                     | Some b => [b]
                     | None => []
                     end)
    (getSelectedBlocks ed sel).

(** The [copy] handler: what it puts on the clipboard as [text/plain]
    and [text/html], or nothing when it leaves the event alone. *)
Definition copyHandler (ed : Editor) (sel : Selection) : option (jstr * jstr) :=
  if rangeCount sel =? 0 then None
  else
    match selectedBlockList ed sel with
    | [] => None
    | selectedBlocks =>
        Some (copiedPlain selectedBlocks, copiedHtml selectedBlocks)
    end.

(** *** Copied markup, pasted *)

(** A block whose text survives the way through the clipboard: not
    empty, no white space at its ends, no markup character. *)
Definition copyable (b : Block) : bool :=
  tight (blockText b) && markupFree (blockText b).

(** The levels of the list items form an outline: a list item after
    another is at most one level deeper, and the first item of a run of
    list items is at level 0.  [prev] is the level of the list item just
    before, if the block before is one. *)
Fixpoint outlineFrom (prev : option nat) (bs : list Block) : bool :=
  match bs with
  | [] => true
  | b :: r =>
      if isListType (btype b) then
        match prev with
        | None => blevel b =? 0
        | Some p => blevel b <=? S p
        end
        && outlineFrom (Some (blevel b)) r
      else outlineFrom None r
  end.

(** What the paste handler makes of a copied block. *)
Definition pasteImage (b : Block) : Block :=
  if isListType (btype b)
  then createBlockElement (btype b) (blockText b) (blevel b)
  else createBlockElement text (blockText b) 0.

(** The blocks that [convertNode] finds in a forest of top-level nodes. *)
Definition topConv (forest : list Node) : list Block :=
  flat_map (fun n => convertNode n 0) forest.

(** The blocks of a child of a list item: those of a nested list. *)
Definition nestedLists (level : nat) (n : Node) : list Block :=
  match n with
  | Elem t _ => if isListTag t then convertNode n level else []
  | _ => []
  end.

(** The stack of open elements while the parser reads copied markup,
    against the stack of open lists of the copy handler: a list item and
    its list for every open list, the list at the depth of its level. *)
Inductive stacksMatch : list ListFrame -> list Frame -> Prop :=
| stacksMatch_nil : stacksMatch [] []
| stacksMatch_cons (t : jstr) (listStack : list ListFrame)
    (stack : list Frame) (parentKids : list Node) :
    stacksMatch listStack stack ->
    isListTag t = true ->
    stacksMatch ((t, length listStack) :: listStack)
      (("li", []) :: (t, parentKids) :: stack).

(** The level of the list item before, as the stack of open lists has
    it. *)
Definition topLevel (listStack : list ListFrame) : option nat :=
  match listStack with
  | [] => None
  | (_, l) :: _ => Some l
  end.

(** ** Import of a markdown file

    The [onload] callback of the file reader: the blocks replace the
    children of the editor and are numbered; the first gets the focus.
    The blocks that [multiBlockSelection] refers to are no longer in the
    document, which positions past its end stand for. *)
Definition importMarkdown (markdownContent : jstr) (ed : Editor)
  : Editor * option Focus :=
  let newBlocks := markdownToBlocks markdownContent in
  (mkEditor (updateNumberedBlocks newBlocks)
     (map (fun x => length newBlocks + x) (multiBlockSelection ed)),
   match newBlocks with
   | [] => None
   | _ => Some (mkFocus 0 false)
   end).

(** ** Deleting struck-through text *)

Definition isStrikeTag (t : jstr) : bool :=
  jstr_eqb t "strike" || jstr_eqb t "s".

(** What is left of a node once every [strike] and [s] element below the
    content element has been removed. *)
Fixpoint removeStrikes (n : Node) : list Node :=
  match n with
  | Elem t ks =>
      if isStrikeTag t then []
      else [Elem t (flat_map removeStrikes ks)]
  | _ => [n]
  end.

Definition deleteAllStrikethrough (ed : Editor) : Editor :=
  mkEditor
    (map (fun b => mkBlock (btype b) (blevel b) (markers b)
                     (flat_map removeStrikes (content b)))
       (blocks ed))
    (multiBlockSelection ed).

Fixpoint hasStrike (n : Node) : bool :=
  match n with
  | Elem t ks => isStrikeTag t || existsb hasStrike ks
  | _ => false
  end.

(** ** The handlers as steps of the editor

    One step is what one handler does to the editor.  The autoformat
    handler is a step when the caret is not in a list item; in a list
    item it leaves the marker of the item and may add a second one. *)

Definition inListItem (ed : Editor) (sel : Selection) : bool :=
  match getCurrentBlock sel with
  | Some i =>
      match nth_error (blocks ed) i with
      | Some b => isListType (btype b)
      | None => false
      end
  | None => false
  end.

Inductive step : Editor -> Editor -> Prop :=
| step_command (c : ConvertCommand) (ed : Editor) (sel : Selection) :
    step ed (fst (runCommand c ed sel))
| step_delete (ed : Editor) (sel : Selection) :
    step ed (fst (deleteBlocks ed sel))
| step_clear (confirmed : bool) (ed : Editor) :
    step ed (fst (clearAll confirmed ed))
| step_enter (ed : Editor) (sel : Selection) :
    step ed (press keydownEnter sel ed)
| step_backspace (ed : Editor) (sel : Selection) :
    step ed (afterBackspace ed (keydownBackspace ed sel))
| step_merge_caret (ed : Editor) (prev previousLength : nat) :
    step ed (fst (mergeCaretCallback ed prev previousLength))
| step_tab (ed : Editor) (sel : Selection) :
    step ed (press keydownTab sel ed)
| step_shift_tab (ed : Editor) (sel : Selection) :
    step ed (press keydownShiftTab sel ed)
| step_move (typewriterMode : bool) (k : MoveKey) (ed : Editor)
    (sel : Selection) :
    step ed (press (keydownMove typewriterMode k) sel ed)
| step_paste (html : jstr) (ed : Editor) (sel : Selection) :
    step ed (press (pasteHandler html) sel ed)
| step_import (markdownContent : jstr) (ed : Editor) :
    step ed (fst (importMarkdown markdownContent ed))
| step_focus (f : Focus) (ed : Editor) :
    step ed (fst (focusBlock f ed))
| step_strikethrough (ed : Editor) :
    step ed (deleteAllStrikethrough ed)
| step_autoformat (ev : InputEvent) (ed : Editor) (sel : Selection) :
    inListItem ed sel = false ->
    step ed (press (beforeinputAutoformat ev) sel ed).

(** The editor after any number of steps. *)
Inductive steps : Editor -> Editor -> Prop :=
| steps_none (ed : Editor) : steps ed ed
| steps_more (ed ed1 ed2 : Editor) :
    steps ed ed1 -> step ed1 ed2 -> steps ed ed2.


(** ** The shape of exported markdown *)

(** Three line breaks in a row somewhere in the string. *)
Fixpoint hasTripleNewline (s : jstr) : bool :=
  match s with
  | [] => false
  | a :: r =>
      (Ascii.eqb a newline
       && match r with
          | b :: c :: _ => Ascii.eqb b newline && Ascii.eqb c newline
          | _ => false
          end)
      || hasTripleNewline r
  end.

(** The line breaks at the start of a string. *)
Definition leadingNewlines (s : jstr) : nat :=
  length (takeWhile (fun c => Ascii.eqb c newline) s).

(** ** The counters of the export against the numbering pass *)

(** [numberedCounters[level]], with 0 for a level that has no entry. *)
Definition counterAt (level : nat) (cs : Counters) : nat :=
  match getCounter level cs with
  | Some k => k
  | None => 0
  end.

(** What the loop of [htmlToMarkdown] does block by block: the counters
    after the block and the text appended for it. *)
Fixpoint exportSteps (numberedCounters : Counters) (bs : list Block)
  : list (Counters * jstr) :=
  match bs with
  | [] => []
  | b :: r =>
      let out := blockToMarkdown numberedCounters b in
      out :: exportSteps (fst out) r
  end.

(** The loop of [updateNumberedBlocks] block by block: the counters
    after the block and its label. *)
Fixpoint passSteps (counters : list nat) (bs : list Block)
  : list (list nat * option jstr) :=
  match bs with
  | [] => []
  | b :: r =>
      let st := numberStep counters b in
      st :: passSteps (fst st) r
  end.

(** The line that the export writes for a numbered block is made of the
    indentation, the counter of its level, and the trimmed text. *)
Definition numberedLineWritten (b : Block) (out : Counters * jstr) : Prop :=
  match btype b with
  | numbered =>
      snd out = repeatStr "  " (blevel b)
                ++ natToString (counterAt (blevel b) (fst out))
                ++ ". " ++ trim (blockText b) ++ [newline]
  | _ => True
  end.

(** ** Counting words *)

(** [text.split(/\s+/)]: the pieces between the runs of white space.
    [inRun] says that the last character belonged to a run, [cur] is the
    piece being read. *)
Fixpoint splitWhiteSpaceFrom (inRun : bool) (cur : jstr) (s : jstr)
  : list jstr :=
  match s with
  | [] => [cur]
  | c :: r =>
      if isWhiteSpace c then
        if inRun then splitWhiteSpaceFrom true cur r
        else cur :: splitWhiteSpaceFrom true [] r
      else splitWhiteSpaceFrom false (cur ++ [c]) r
  end.

Definition splitWhiteSpace (s : jstr) : list jstr :=
  splitWhiteSpaceFrom false [] s.

(** [text.trim().split(/\s+/).filter(w => w.length > 0).length] of
    [updateWordCount]. *)
Definition countWords (text : jstr) : nat :=
  length (filter (fun w => 0 <? length w) (splitWhiteSpace (trim text))).

(** The places where a word starts: a character that is not white space
    at the start of the text or after white space. *)
Fixpoint wordStarts (atBoundary : bool) (s : jstr) : nat :=
  match s with
  | [] => 0
  | c :: r =>
      if isWhiteSpace c then wordStarts true r
      else (if atBoundary then 1 else 0) + wordStarts false r
  end.

(** ** The Word export *)

Definition doubleQuote : ascii := ascii_of_nat 34.

(** [s.replace(/c/g, by)] for a pattern of one character. *)
Definition replaceAll (c : ascii) (replacement : jstr) (s : jstr) : jstr :=
  flat_map (fun x => if Ascii.eqb x c then replacement else [x]) s.

(** Escape XML special characters *)
Definition escapedContent (content : jstr) : jstr :=
  replaceAll "'" "&apos;"
    (replaceAll doubleQuote "&quot;"
       (replaceAll ">" "&gt;"
          (replaceAll "<" "&lt;"
             (replaceAll "&" "&amp;" content)))).

(** An attribute value between its quotes. *)
Definition quoted (value : jstr) : jstr := [doubleQuote] ++ value ++ [doubleQuote].

(** The run that holds the text of a paragraph. *)
Definition docxRun (content : jstr) : jstr :=
  "<w:r><w:t>" ++ escapedContent content ++ "</w:t></w:r></w:p>".

Definition docxStyled (style : jstr) (content : jstr) : jstr :=
  "<w:p><w:pPr><w:pStyle w:val=" ++ quoted style ++ "/></w:pPr>"
  ++ docxRun content.

Definition docxListItem (numId : jstr) (level : nat) (content : jstr) : jstr :=
  let indentLeft := level * 720 in   (* 720 twips = 0.5 inch *)
  "<w:p><w:pPr><w:pStyle w:val=" ++ quoted "ListParagraph"
  ++ "/><w:numPr><w:ilvl w:val=" ++ quoted (natToString level)
  ++ "/><w:numId w:val=" ++ quoted numId
  ++ "/></w:numPr><w:ind w:left=" ++ quoted (natToString indentLeft)
  ++ "/></w:pPr>" ++ docxRun content.

(** One iteration of the [forEach] of [generateDocxXml]: the counters
    afterwards and the XML appended. *)
Definition docxStep (numberedCounters : Counters) (b : Block)
  : Counters * jstr :=
  let type := btype b in
  let level := blevel b in
  let content := trim (blockText b) in
  match content, type with
  | [], text =>
      (* Empty paragraph *)
      ([], "<w:p><w:pPr></w:pPr></w:p>")
  | _, _ =>
      match type with
      | heading 1 => ([], docxStyled "Heading1" content)
      | heading 2 => ([], docxStyled "Heading2" content)
      | heading 3 => ([], docxStyled "Heading3" content)
      | bullet => ([], docxListItem "1" level content)
      | numbered =>
          let n := match getCounter level numberedCounters with
                   | None | Some 0 => 1
                   | Some k => S k
                   end in
          let cs := filter (fun kv => fst kv <=? level)
                      (setCounter level n numberedCounters) in
          (cs, docxListItem "2" level content)
      | quote => ([], docxStyled "Quote" content)
      | _ =>
          ([], match content with
               | [] => []
               | _ => "<w:p>" ++ docxRun content
               end)
      end
  end.

Fixpoint generateDocxXmlFrom (numberedCounters : Counters) (bs : list Block)
  : jstr :=
  match bs with
  | [] => []
  | b :: r =>
      let '(cs, xml) := docxStep numberedCounters b in
      xml ++ generateDocxXmlFrom cs r
  end.

Definition generateDocxXml (bs : list Block) : jstr :=
  generateDocxXmlFrom [] bs.

(** The characters that end text or an attribute value in XML. *)
Definition isXmlDelimiter (c : ascii) : bool :=
  Ascii.eqb c "<" || Ascii.eqb c ">" || Ascii.eqb c doubleQuote
  || Ascii.eqb c "'".

(** A character escaped on its own. *)
Definition escapeChar (c : ascii) : jstr :=
  if Ascii.eqb c "&" then "&amp;"
  else if Ascii.eqb c "<" then "&lt;"
  else if Ascii.eqb c ">" then "&gt;"
  else if Ascii.eqb c doubleQuote then "&quot;"
  else if Ascii.eqb c "'" then "&apos;"
  else [c].

(** Whether the pointed brackets of a string pair up as the delimiters
    of tags: no ['<'] inside a tag, no ['>'] outside one, and no tag left
    open at the end.  [inTag] says that a tag is open. *)
Fixpoint tagsClosed (inTag : bool) (s : jstr) : bool :=
  match s with
  | [] => negb inTag
  | c :: r =>
      if Ascii.eqb c "<" then negb inTag && tagsClosed true r
      else if Ascii.eqb c ">" then inTag && tagsClosed false r
      else tagsClosed inTag r
  end.

Definition noBracket (s : jstr) : bool :=
  forallb (fun c => negb (Ascii.eqb c "<" || Ascii.eqb c ">")) s.

(** ** Example documents *)

(** An editor with one block that reads "hello". *)
Definition helloEditor : Editor :=
  mkEditor [createBlockElement text "hello" 0] [].

(** An editor whose only block holds a typed dash. *)
Definition dashEditor : Editor :=
  mkEditor [createBlockElement text "-" 0] [].

(** An outline of list items followed by a heading, and a selection
    that spans the whole document. *)
Definition outlineEditor : Editor :=
  mkEditor [createBlockElement bullet "a" 0; createBlockElement numbered "b" 1;
            createBlockElement bullet "c" 1; createBlockElement (heading 1) "h" 0;
            createBlockElement numbered "n" 0] [].

Definition wholeSelection : Selection :=
  mkSelection 1 false (Some 0) (fun _ => true) [0] 0.

(** An editor whose only block is a bullet item that holds a typed
    dash. *)
Definition dashItemEditor : Editor :=
  mkEditor [createBlockElement bullet "-" 1] [].

(** * Properties *)

(** ** Lists and strings *)

Section ListUpdates.

Context {A : Type}.

Lemma updateAt_length (f : A -> A) (l : list A) (i : nat) :
  length (updateAt i f l) = length l.
Proof.
  revert i; induction l as [|x r IH]; intros [|j]; simpl; auto.
Qed.

Lemma updateAt_nth_same (f : A -> A) (l : list A) (i : nat) (x : A) :
  nth_error l i = Some x -> nth_error (updateAt i f l) i = Some (f x).
Proof.
  revert i; induction l as [|y r IH]; intros [|j]; simpl; try discriminate.
  - intros [= ->]; reflexivity.
  - apply IH.
Qed.

Lemma updateAt_nth_other (f : A -> A) (l : list A) (i k : nat) :
  i <> k -> nth_error (updateAt i f l) k = nth_error l k.
Proof.
  revert i k; induction l as [|y r IH]; intros [|j] [|k] H; simpl; auto.
  - congruence.
Qed.

End ListUpdates.

Lemma forEachBlock_length (f : Block -> Block) (targets : list nat) (bs : list Block) :
  length (forEachBlock f targets bs) = length bs.
Proof.
  unfold forEachBlock; revert bs.
  induction targets as [|i r IH]; intros bs; simpl; auto.
  rewrite IH; apply updateAt_length.
Qed.

(** ** The numbering pass *)

Lemma numberStep_shape (cs : list nat) (b b' : Block) :
  blockShape b = blockShape b' -> numberStep cs b = numberStep cs b'.
Proof.
  unfold blockShape, numberStep; intros [= Ht Hl]; rewrite Ht, Hl; reflexivity.
Qed.

Lemma relabel_shape (lab : option jstr) (b : Block) :
  blockShape (relabel lab b) = blockShape b.
Proof. destruct lab; reflexivity. Qed.

Lemma relabel_content (lab : option jstr) (b : Block) :
  content (relabel lab b) = content b.
Proof. destruct lab; reflexivity. Qed.

Lemma setNumberMarker_idem (s : jstr) (ms : list Marker) :
  setNumberMarker s (setNumberMarker s ms) = setNumberMarker s ms.
Proof.
  induction ms as [|m r IH]; simpl; auto.
  destruct (mclass m) eqn:E; simpl; [rewrite E, IH|]; reflexivity.
Qed.

Lemma relabel_idem (lab : option jstr) (b : Block) :
  relabel lab (relabel lab b) = relabel lab b.
Proof.
  destruct lab; simpl; auto. now rewrite setNumberMarker_idem.
Qed.

Lemma updateNumberedFrom_length (bs : list Block) (cs : list nat) :
  length (updateNumberedFrom cs bs) = length bs.
Proof.
  revert cs; induction bs as [|b r IH]; intros cs; simpl; auto.
  destruct (numberStep cs b); simpl; now rewrite IH.
Qed.

Lemma updateNumberedBlocks_length (bs : list Block) :
  length (updateNumberedBlocks bs) = length bs.
Proof. apply updateNumberedFrom_length. Qed.

Lemma updateNumberedFrom_shapes (bs : list Block) (cs : list nat) :
  map blockShape (updateNumberedFrom cs bs) = map blockShape bs.
Proof.
  revert cs; induction bs as [|b r IH]; intros cs; simpl; auto.
  destruct (numberStep cs b); simpl. now rewrite relabel_shape, IH.
Qed.

Lemma updateNumberedFrom_contents (bs : list Block) (cs : list nat) :
  map content (updateNumberedFrom cs bs) = map content bs.
Proof.
  revert cs; induction bs as [|b r IH]; intros cs; simpl; auto.
  destruct (numberStep cs b); simpl. now rewrite relabel_content, IH.
Qed.

(** What the pass does to the block at a position: its type, level and
    content stay, and the markers of a block that is not numbered stay. *)
Lemma updateNumberedFrom_nth (bs : list Block) (cs : list nat) (i : nat) (b : Block) :
  nth_error bs i = Some b ->
  exists b', nth_error (updateNumberedFrom cs bs) i = Some b'
             /\ btype b' = btype b /\ blevel b' = blevel b
             /\ content b' = content b
             /\ (btype b <> numbered -> markers b' = markers b)
             /\ (markers b = [] -> markers b' = []).
Proof.
  revert cs i; induction bs as [|x r IH]; intros cs [|i]; simpl; try discriminate.
  - intros [= ->]. unfold numberStep.
    destruct (btype b) eqn:E; simpl;
      try (exists b; repeat split; auto; fail).
    eexists; split; [reflexivity|]; simpl; repeat split; auto.
    + congruence.
    + intros ->; reflexivity.
  - intros H. destruct (numberStep cs x); simpl. apply IH, H.
Qed.

Lemma updateNumberedFrom_idem (bs : list Block) (cs : list nat) :
  updateNumberedFrom cs (updateNumberedFrom cs bs) = updateNumberedFrom cs bs.
Proof.
  revert cs; induction bs as [|b r IH]; intros cs; simpl; auto.
  destruct (numberStep cs b) as [cs' lab] eqn:E; simpl.
  rewrite (numberStep_shape cs _ _ (relabel_shape lab b)), E.
  now rewrite relabel_idem, IH.
Qed.

Lemma numberLabelsFrom_shapes (bs bs' : list Block) (cs : list nat) :
  map blockShape bs = map blockShape bs' ->
  numberLabelsFrom cs bs = numberLabelsFrom cs bs'.
Proof.
  revert bs' cs; induction bs as [|b r IH]; intros [|b' r'] cs; simpl;
    try discriminate; auto.
  intros H; injection H as Ht Hl Hr.
  assert (Hb : blockShape b = blockShape b') by (unfold blockShape; congruence).
  rewrite (numberStep_shape cs _ _ Hb).
  destruct (numberStep cs b'); f_equal; auto.
Qed.

(** *** The counter array against the counters of the specification *)

Lemma growCounters_length (level : nat) (cs : list nat) :
  length (growCounters level cs) = Nat.max (length cs) (S level).
Proof.
  unfold growCounters. rewrite length_app, repeat_length. lia.
Qed.

Lemma growCounters_nth (level : nat) (cs : list nat) (i : nat) :
  nth i (growCounters level cs) 0 = nth i cs 0.
Proof.
  unfold growCounters.
  destruct (Nat.lt_ge_cases i (length cs)) as [H|H].
  - now rewrite app_nth1.
  - rewrite app_nth2 by lia. rewrite nth_repeat.
    symmetry; apply nth_overflow; lia.
Qed.

Lemma bumpCounter_length (level : nat) (cs : list nat) :
  level < length cs -> length (bumpCounter level cs) = length cs.
Proof.
  intros H. unfold bumpCounter.
  rewrite length_app. cbn [length]. rewrite length_firstn, length_skipn. lia.
Qed.

Lemma bumpCounter_nth (level : nat) (cs : list nat) (i : nat) :
  level < length cs ->
  nth i (bumpCounter level cs) 0
  = if i =? level then S (nth level cs 0) else nth i cs 0.
Proof.
  intros H. unfold bumpCounter.
  assert (Hl : length (firstn level cs) = level)
    by (rewrite length_firstn; lia).
  destruct (Nat.eqb_spec i level) as [->|Hne].
  - rewrite <- Hl at 1. apply nth_middle.
  - destruct (Nat.lt_ge_cases i level) as [Hlt|Hge].
    + rewrite app_nth1 by lia. rewrite nth_firstn.
      destruct (Nat.ltb_spec i level); [reflexivity|lia].
    + rewrite app_nth2 by lia. rewrite Hl.
      destruct (i - level) as [|k] eqn:E; [lia|]. cbn [nth].
      rewrite nth_skipn. f_equal; lia.
Qed.

Lemma resetDeeper_length (level : nat) (cs : list nat) :
  level < length cs -> length (resetDeeper level cs) = length cs.
Proof.
  intros H. unfold resetDeeper.
  rewrite length_app, length_firstn, repeat_length. lia.
Qed.

Lemma resetDeeper_nth (level : nat) (cs : list nat) (i : nat) :
  level < length cs ->
  nth i (resetDeeper level cs) 0 = if level <? i then 0 else nth i cs 0.
Proof.
  intros H. unfold resetDeeper.
  assert (Hl : length (firstn (S level) cs) = S level)
    by (rewrite length_firstn; lia).
  destruct (Nat.ltb_spec level i) as [Hlt|Hge].
  - rewrite app_nth2 by lia. apply nth_repeat.
  - rewrite app_nth1 by lia. rewrite nth_firstn.
    destruct (Nat.ltb_spec i (S level)); [reflexivity|lia].
Qed.

Lemma firstn_as_map (n : nat) (l : list nat) :
  n <= length l -> firstn n l = map (fun i => nth i l 0) (seq 0 n).
Proof.
  revert l; induction n as [|n IH]; intros l H; [reflexivity|].
  destruct l as [|x r]; simpl in H; [lia|].
  simpl. f_equal. rewrite <- seq_shift, map_map. apply IH. lia.
Qed.

(** After the step on a numbered block the array holds the counters of
    the specification, and the number string is the label. *)
Lemma numberStep_refines (cs : list nat) (c : nat -> nat) (level : nat) :
  (forall i, nth i cs 0 = c i) ->
  let cs' := resetDeeper level (bumpCounter level (growCounters level cs)) in
  let c' := specZeroDeeper level (specIncrement level c) in
  (forall i, nth i cs' 0 = c' i) /\ numberString level cs' = specLabel level c'.
Proof.
  intros Hc cs' c'.
  assert (Hg : level < length (growCounters level cs))
    by (rewrite growCounters_length; lia).
  assert (Hb : level < length (bumpCounter level (growCounters level cs)))
    by (rewrite bumpCounter_length; auto).
  assert (Hn : forall i, nth i cs' 0 = c' i).
  { intros i. unfold cs', c', specZeroDeeper, specIncrement.
    rewrite resetDeeper_nth by auto.
    destruct (level <? i); [reflexivity|].
    rewrite bumpCounter_nth by auto.
    rewrite !growCounters_nth, !Hc.
    destruct (Nat.eqb_spec i level) as [->|]; reflexivity. }
  split; [exact Hn|].
  unfold numberString, specLabel. do 3 f_equal.
  rewrite firstn_as_map
    by (unfold cs'; rewrite resetDeeper_length by auto; lia).
  rewrite (map_ext _ _ Hn).
  apply filter_ext. intros n; destruct n; reflexivity.
Qed.

Lemma numberLabelsFrom_refines (bs : list Block) (cs : list nat) (c : nat -> nat) :
  (forall i, nth i cs 0 = c i) ->
  numberLabelsFrom cs bs = specNumberingFrom c (map blockShape bs).
Proof.
  revert cs c; induction bs as [|b r IH]; intros cs c Hc; [reflexivity|].
  simpl. unfold numberStep.
  destruct (btype b) eqn:E; simpl;
    try (f_equal; apply IH; intros i; destruct i; reflexivity).
  destruct (@numberStep_refines cs c (blevel b) Hc) as [Hn Hs].
  f_equal.
  - now rewrite Hs.
  - apply IH, Hn.
Qed.

(** The markers of a block after the pass, in terms of its label. *)
Lemma markerLabel_relabel (lab : option jstr) (b : Block) :
  markerLabel (relabel lab b)
  = match lab, markerLabel b with
    | Some s, Some _ => Some s
    | _, m => m
    end.
Proof.
  destruct lab as [s|]; [|simpl; destruct (markerLabel b); reflexivity].
  unfold markerLabel; simpl.
  induction (markers b) as [|m r IH]; [reflexivity|].
  simpl. unfold isNumberMarker at 2. destruct (mclass m) eqn:E; simpl.
  - unfold isNumberMarker at 1. rewrite E. exact IH.
  - reflexivity.
Qed.

Lemma updateNumberedFrom_markerLabels (bs : list Block) (cs : list nat) :
  map markerLabel (updateNumberedFrom cs bs)
  = map (fun p => match snd p, markerLabel (fst p) with
                  | Some s, Some _ => Some s
                  | _, m => m
                  end)
        (combine bs (numberLabelsFrom cs bs)).
Proof.
  revert cs; induction bs as [|b r IH]; intros cs; [reflexivity|].
  simpl. destruct (numberStep cs b) as [cs' lab]; simpl.
  now rewrite markerLabel_relabel, IH.
Qed.

(** C4.  The numbering pass computes, from the types and levels of the
    blocks in document order and nothing else, the labels that the
    counter discipline of the specification prescribes (increment the
    counter of the level of a numbered block, zero the deeper ones, join
    the non-zero counters up to that level with dots and close with a
    dot; zero everything on any other block); it writes each label into
    the number marker of its block; the sequence numbered at level 0,
    numbered at level 1, text, numbered at level 0 is labelled "1.",
    "1.1.", nothing, "1."; and running the pass again changes nothing. *)
Theorem C4_numbering_pass :
  (forall bs, numberLabels bs = specNumbering (map blockShape bs))
  /\ (forall bs,
        map markerLabel (updateNumberedBlocks bs)
        = map (fun p => match snd p, markerLabel (fst p) with
                        | Some s, Some _ => Some s
                        | _, m => m
                        end)
              (combine bs (numberLabels bs)))
  /\ (forall c1 c2 c3 c4,
        let doc := [createBlockElement numbered c1 0;
                    createBlockElement numbered c2 1;
                    createBlockElement text c3 0;
                    createBlockElement numbered c4 0] in
        numberLabels doc = [Some "1."; Some "1.1."; None; Some "1."]
        /\ map markerLabel (updateNumberedBlocks doc)
           = [Some "1."; Some "1.1."; None; Some "1."])
  /\ (forall bs,
        updateNumberedBlocks (updateNumberedBlocks bs) = updateNumberedBlocks bs
        /\ numberLabels (updateNumberedBlocks bs) = numberLabels bs).
Proof.
  split; [|split; [|split]].
  - intros bs. apply numberLabelsFrom_refines. intros i; destruct i; reflexivity.
  - intros bs. apply updateNumberedFrom_markerLabels.
  - intros c1 c2 c3 c4 doc. split; reflexivity.
  - intros bs. split.
    + apply updateNumberedFrom_idem.
    + apply numberLabelsFrom_shapes, updateNumberedFrom_shapes.
Qed.

(** ** Acting on a set of target blocks *)

Lemma mapIdxFrom_ext (g h : nat -> Block -> Block) (bs : list Block) (k : nat) :
  (forall i b, k <= i -> g i b = h i b) -> mapIdxFrom k g bs = mapIdxFrom k h bs.
Proof.
  revert k; induction bs as [|b r IH]; intros k E; simpl; [auto|].
  rewrite E by lia. f_equal. apply IH. intros i x Hi; apply E; lia.
Qed.

Lemma mapIdxFrom_id (bs : list Block) (k : nat) :
  mapIdxFrom k (fun _ b => b) bs = bs.
Proof.
  revert k; induction bs as [|b r IH]; intros k; simpl; [auto|]. now rewrite IH.
Qed.

Lemma mapIdxFrom_compose (g h : nat -> Block -> Block) (bs : list Block) (k : nat) :
  mapIdxFrom k g (mapIdxFrom k h bs) = mapIdxFrom k (fun i b => g i (h i b)) bs.
Proof.
  revert k; induction bs as [|b r IH]; intros k; simpl; [auto|]. now rewrite IH.
Qed.

Lemma updateAt_mapIdxFrom (f : Block -> Block) (bs : list Block) (t k : nat) :
  updateAt t f bs = mapIdxFrom k (fun i b => if i =? k + t then f b else b) bs.
Proof.
  revert t k; induction bs as [|b r IH]; intros t k; [destruct t; reflexivity|].
  destruct t as [|t]; simpl.
  - rewrite Nat.add_0_r, Nat.eqb_refl. f_equal.
    rewrite <- (mapIdxFrom_id r (S k)) at 1.
    apply mapIdxFrom_ext. intros i x Hi.
    destruct (Nat.eqb_spec i k); [lia|reflexivity].
  - destruct (Nat.eqb_spec k (k + S t)); [lia|]. f_equal.
    rewrite (IH t (S k)). apply mapIdxFrom_ext. intros i x _.
    now replace (S k + t) with (k + S t) by lia.
Qed.

(** Distinct targets: each target block is converted once, the others
    are left alone. *)
Lemma forEachBlock_mapIdx (f : Block -> Block) (ts : list nat) (bs : list Block) :
  NoDup ts ->
  forEachBlock f ts bs
  = mapIdxFrom 0 (fun i b => if existsb (Nat.eqb i) ts then f b else b) bs.
Proof.
  unfold forEachBlock. intros H; revert bs.
  induction H as [|t ts Hnot Hnd IH]; intros bs; simpl.
  - now rewrite mapIdxFrom_id.
  - rewrite IH, (updateAt_mapIdxFrom f bs t 0), mapIdxFrom_compose.
    apply mapIdxFrom_ext. intros i b _. simpl.
    destruct (Nat.eqb_spec i t) as [->|Hne]; simpl; [|reflexivity].
    destruct (existsb (Nat.eqb t) ts) eqn:E; [|reflexivity].
    apply existsb_exists in E. destruct E as [x [Hin Hx]].
    apply Nat.eqb_eq in Hx; subst x. contradiction.
Qed.

Lemma map_mapIdxFrom (A : Type) (h : Block -> A) (g : nat -> Block -> Block)
    (bs : list Block) (k : nat) :
  map h (mapIdxFrom k g bs)
  = map (fun p => h (g (fst p) (snd p))) (combine (seq k (length bs)) bs).
Proof.
  revert k; induction bs as [|b r IH]; intros k; simpl; [auto|]. now rewrite IH.
Qed.

Lemma map_indexed (A : Type) (h : Block -> A) (bs : list Block) :
  map (fun p => h (snd p)) (indexed bs) = map h bs.
Proof.
  unfold indexed. rewrite <- (mapIdxFrom_id bs 0) at 3.
  now rewrite map_mapIdxFrom.
Qed.

Lemma nth_error_mapIdxFrom (g : nat -> Block -> Block) (bs : list Block) (k i : nat) :
  nth_error (mapIdxFrom k g bs) i = option_map (g (k + i)) (nth_error bs i).
Proof.
  revert k i; induction bs as [|b r IH]; intros k [|i]; simpl; auto.
  - now rewrite Nat.add_0_r.
  - rewrite IH. now replace (S k + i) with (k + S i) by lia.
Qed.

Lemma getSelectedBlocks_NoDup (ed : Editor) (sel : Selection) :
  NoDup (getSelectedBlocks ed sel).
Proof.
  unfold getSelectedBlocks. destruct (rangeCount sel =? 0); [constructor|].
  apply NoDup_filter, seq_NoDup.
Qed.

Lemma singleton_NoDup (i : nat) : NoDup [i].
Proof. constructor; [intros []|constructor]. Qed.

Lemma tabTargets_NoDup (ed : Editor) (sel : Selection) (ts : list nat) :
  tabTargets ed sel = Some ts -> NoDup ts.
Proof.
  unfold tabTargets.
  destruct (1 <? length (getSelectedBlocks ed sel)).
  - intros [= <-]. apply getSelectedBlocks_NoDup.
  - destruct (getCurrentBlock sel); simpl; [|discriminate].
    intros [= <-]. apply singleton_NoDup.
Qed.

Lemma updateNumberedBlocks_levels (bs : list Block) :
  map blevel (updateNumberedBlocks bs) = map blevel bs.
Proof.
  change blevel with (fun b => snd (blockShape b)).
  rewrite <- !(map_map blockShape snd).
  unfold updateNumberedBlocks. now rewrite updateNumberedFrom_shapes.
Qed.

Lemma updateNumberedBlocks_types (bs : list Block) :
  map btype (updateNumberedBlocks bs) = map btype bs.
Proof.
  change btype with (fun b => fst (blockShape b)).
  rewrite <- !(map_map blockShape fst).
  unfold updateNumberedBlocks. now rewrite updateNumberedFrom_shapes.
Qed.

(** The levels after Tab or Shift+Tab, for any change [f] of one block. *)
Lemma keydownTabWith_levels (f : Block -> Block) (ed : Editor) (sel : Selection) :
  map blevel (blocks (afterOutcome ed (keydownTabWith f ed sel)))
  = map (fun p => if isTarget (tabTargets ed sel) (fst p)
                  then blevel (f (snd p)) else blevel (snd p))
        (indexed (blocks ed)).
Proof.
  unfold keydownTabWith.
  destruct (tabTargets ed sel) as [ts|] eqn:E; simpl.
  - rewrite updateNumberedBlocks_levels.
    rewrite forEachBlock_mapIdx by (eapply tabTargets_NoDup; eauto).
    rewrite map_mapIdxFrom. apply map_ext. intros [i b]; simpl.
    now destruct (existsb (Nat.eqb i) ts).
  - now rewrite map_indexed.
Qed.

(** C9.  Tab adds exactly one to the level of every affected block and
    Shift+Tab takes exactly one away, stopping at zero (subtraction on the
    naturals), the other blocks keeping their level; a block at level 0 is
    left as it is by Shift+Tab; and a text block made a bullet at level 0,
    indented twice (level 2) and outdented three times ends at level 0. *)
Theorem C9_indent_outdent_levels :
  (forall ed sel,
      map blevel (blocks (press keydownTab sel ed))
      = map (fun p => if isTarget (tabTargets ed sel) (fst p)
                      then blevel (snd p) + 1 else blevel (snd p))
            (indexed (blocks ed))
      /\ map blevel (blocks (press keydownShiftTab sel ed))
         = map (fun p => if isTarget (tabTargets ed sel) (fst p)
                         then blevel (snd p) - 1 else blevel (snd p))
               (indexed (blocks ed)))
  /\ (forall t ms c, outdentBlock (mkBlock t 0 ms c) = mkBlock t 0 ms c)
  /\ (forall c,
        let sel := caretIn 0 [0] 0 in
        let e1 := fst (bulletList (mkEditor [createBlockElement text c 0] []) sel) in
        let e3 := press keydownTab sel (press keydownTab sel e1) in
        let e6 := press keydownShiftTab sel
                    (press keydownShiftTab sel (press keydownShiftTab sel e3)) in
        map blockShape (blocks e1) = [(bullet, 0)]
        /\ map blockShape (blocks e3) = [(bullet, 2)]
        /\ map blockShape (blocks e6) = [(bullet, 0)]).
Proof.
  split; [|split].
  - intros ed sel; split; unfold press, keydownTab, keydownShiftTab;
      rewrite keydownTabWith_levels; apply map_ext; intros [i b]; simpl;
      destruct (isTarget (tabTargets ed sel) i); auto.
    unfold outdentBlock. destruct (Nat.ltb_spec 0 (blevel b)); simpl; lia.
  - reflexivity.
  - intros c sel e1 e3 e6. repeat split; reflexivity.
Qed.

(** ** Type-conversion commands *)

Lemma createBlockElement_wellFormed (t : BlockType) (c : jstr) (l : nat) :
  wellFormed (createBlockElement t c l).
Proof. destruct t; reflexivity. Qed.

Lemma In_existsb_eqb (i : nat) (ts : list nat) :
  In i ts -> existsb (Nat.eqb i) ts = true.
Proof.
  intros H. apply existsb_exists. exists i. split; [exact H|apply Nat.eqb_refl].
Qed.

(** What a command leaves at the position of one of its targets. *)
Lemma runBlockCommand_target (f : Block -> Block) (ed : Editor) (sel : Selection)
    (ts : list nat) (i : nat) (b : Block) :
  commandTargets ed sel = Some ts -> NoDup ts -> In i ts ->
  nth_error (blocks ed) i = Some b ->
  exists b', nth_error (blocks (fst (runBlockCommand f ed sel))) i = Some b'
             /\ btype b' = btype (f b) /\ blevel b' = blevel (f b)
             /\ content b' = content (f b)
             /\ (btype (f b) <> numbered -> markers b' = markers (f b))
             /\ (markers (f b) = [] -> markers b' = []).
Proof.
  intros Ht Hnd Hin Hb. unfold runBlockCommand. rewrite Ht. simpl.
  apply updateNumberedFrom_nth.
  rewrite forEachBlock_mapIdx by exact Hnd.
  rewrite nth_error_mapIdxFrom, Hb. simpl.
  now rewrite (In_existsb_eqb _ _ Hin).
Qed.

Lemma toggleBullet_involutive (b : Block) :
  wellFormed b -> btype b = text -> toggleBullet (toggleBullet b) = b.
Proof.
  unfold wellFormed. destruct b as [t l ms c]; simpl. intros Hw ->.
  destruct ms; [reflexivity|discriminate].
Qed.

(** A command on a well-formed block of the type it converts to. *)
Lemma commandBody_on_own_type (c : ConvertCommand) (b : Block) :
  wellFormed b -> btype b = commandTarget c ->
  content (commandBody c b) = content b
  /\ (isToggleCommand c = true ->
      btype (commandBody c b) = text /\ markers (commandBody c b) = [])
  /\ (isToggleCommand c = false -> btype (commandBody c b) = btype b).
Proof.
  unfold wellFormed. destruct b as [t l ms k]; simpl. intros Hw ->.
  destruct c; simpl in *; repeat split; try discriminate; try reflexivity;
    destruct ms as [|m [|m' r]]; try discriminate Hw; reflexivity.
Qed.

(** C6 as stated fails on the heading commands: Heading 1 on a block that
    is a heading 1 leaves it a heading 1. *)
Lemma C6_heading_on_heading_counterexample :
  btype (createBlockElement (heading 1) "Title" 0) = commandTarget (CmdHeading 1)
  /\ map btype
       (blocks (fst (runCommand (CmdHeading 1)
                       (mkEditor [createBlockElement (heading 1) "Title" 0] [])
                       (caretIn 0 [0] 0))))
     = [heading 1]
  /\ heading 1 <> text.
Proof. repeat split. discriminate. Qed.

(** C6, amended.  On a well-formed block among the targets of the
    command, Bullet List on a bullet, Numbered List on a numbered item and
    Block Quote on a quote leave a text block without markers and with the
    content it had; a heading command on a heading of its own size leaves
    the heading (it sets, it does not toggle); and Bullet List twice with
    the caret in a text block gives the block back as it was. *)
Theorem C6_toggle_commands (ed : Editor) (sel : Selection) (ts : list nat)
    (i : nat) (b : Block) :
  NoDup ts -> In i ts -> nth_error (blocks ed) i = Some b -> wellFormed b ->
  (forall c,
      commandTargets ed sel = Some ts ->
      btype b = commandTarget c ->
      exists b', nth_error (blocks (fst (runCommand c ed sel))) i = Some b'
                 /\ content b' = content b
                 /\ (isToggleCommand c = true -> btype b' = text /\ markers b' = [])
                 /\ (isToggleCommand c = false -> btype b' = btype b))
  /\ (multiBlockSelection ed = [] -> getCurrentBlock sel = Some i ->
      btype b = text ->
      nth_error (blocks (fst (bulletList (fst (bulletList ed sel)) sel))) i
      = Some b).
Proof.
  intros Hnd Hin Hb Hw. split.
  - intros c Ht Hc.
    destruct (@runBlockCommand_target (commandBody c) ed sel ts i b Ht Hnd Hin Hb)
      as [b' [Hn [Hty [_ [Hco [_ Hms]]]]]].
    destruct (commandBody_on_own_type c b Hw Hc) as [Ec [Et Eh]].
    exists b'. split; [exact Hn|]. split; [congruence|]. split.
    + intros E. destruct (Et E) as [E1 E2]. split; [congruence|auto].
    + intros E. rewrite Hty. auto.
  - intros Hm Hcur Hty.
    assert (Ht1 : commandTargets ed sel = Some [i])
      by (unfold commandTargets; rewrite Hm, Hcur; reflexivity).
    destruct (@runBlockCommand_target toggleBullet ed sel [i] i b Ht1
                (singleton_NoDup i) (or_introl eq_refl) Hb)
      as [b1 [Hn1 [Hty1 [Hl1 [Hc1 [Hm1 _]]]]]].
    set (ed1 := fst (bulletList ed sel)) in *.
    assert (Ht2 : commandTargets ed1 sel = Some [i]).
    { unfold commandTargets, ed1, bulletList, runBlockCommand.
      rewrite Ht1. simpl. now rewrite Hcur. }
    destruct (@runBlockCommand_target toggleBullet ed1 sel [i] i b1 Ht2
                (singleton_NoDup i) (or_introl eq_refl) Hn1)
      as [b2 [Hn2 [Hty2 [Hl2 [Hc2 [Hm2 _]]]]]].
    unfold bulletList. rewrite Hn2. f_equal.
    assert (E1 : b1 = toggleBullet b).
    { destruct b1, (toggleBullet b) eqn:E; simpl in *.
      rewrite Hm1 by (unfold toggleBullet in E; rewrite Hty in E;
                      injection E as <- _ _ _; discriminate).
      congruence. }
    assert (E2 : b2 = toggleBullet b1).
    { subst b1. rewrite toggleBullet_involutive in * by assumption.
      destruct b2, b; simpl in *. rewrite Hm2 by congruence. congruence. }
    subst b2 b1. now apply toggleBullet_involutive.
Qed.

(** C7 on the code: Bullet List on a bullet at level 2 and Numbered List
    on a numbered item at level 2 leave a text block that is still at
    level 2, while Normal Text on the same bullet leaves a text block at
    level 0, and the conversions to a heading, to normal text and to or
    from a quote all put the level back to 0. *)
Theorem C7_toggle_off_keeps_level :
  map blockShape
    (blocks (fst (bulletList (mkEditor [createBlockElement bullet "item" 2] [])
                    (caretIn 0 [0] 0))))
  = [(text, 2)]
  /\ map blockShape
       (blocks (fst (numberedList
                       (mkEditor [createBlockElement numbered "item" 2] [])
                       (caretIn 0 [0] 0))))
     = [(text, 2)]
  /\ map blockShape
       (blocks (fst (normalText
                       (mkEditor [createBlockElement bullet "item" 2] [])
                       (caretIn 0 [0] 0))))
     = [(text, 0)]
  /\ (forall n b, blevel (convertToHeading n b) = 0
                  /\ blevel (convertToText b) = 0
                  /\ blevel (toggleQuote b) = 0).
Proof.
  repeat split. unfold toggleQuote. destruct (btype b); reflexivity.
Qed.

(** ** The document never runs out of blocks *)

Lemma removeAt_length {A : Type} (l : list A) (i : nat) :
  i < length l -> S (length (removeAt i l)) = length l.
Proof.
  intros H. unfold removeAt.
  rewrite length_app, length_firstn, length_skipn. lia.
Qed.

Lemma deleteBlocks_nonempty (ed : Editor) (sel : Selection) :
  blocks ed <> [] -> blocks (fst (deleteBlocks ed sel)) <> [].
Proof.
  intros H. unfold deleteBlocks.
  destruct (deleteTargets ed sel) as [ts|]; [|exact H].
  destruct (removeBlocks ts (blocks ed)) as [|b r] eqn:E; simpl.
  - discriminate.
  - intros C. apply (f_equal (@length Block)) in C.
    rewrite updateNumberedBlocks_length in C. discriminate C.
Qed.

Lemma keydownBackspace_nonempty (ed : Editor) (sel : Selection) :
  blocks ed <> [] ->
  blocks (afterBackspace ed (keydownBackspace ed sel)) <> [].
Proof.
  intros H. unfold keydownBackspace.
  destruct (rangeCount sel =? 0); [exact H|].
  destruct (negb (isCollapsed sel)); [exact H|].
  destruct (getCurrentBlock sel) as [i|]; [|exact H].
  destruct (nth_error (blocks ed) i) as [cur|] eqn:Ei; [|exact H].
  destruct ((length (blocks ed) =? 1) && _); [exact H|].
  destruct (_ && _); [|exact H].
  destruct i as [|j]; [exact H|].
  destruct (nth_error (blocks ed) j) as [prev|] eqn:Ej; [|exact H].
  simpl. intros C. apply (f_equal (@length Block)) in C.
  rewrite updateNumberedBlocks_length in C.
  assert (Hi : S j < length (blocks ed))
    by (apply nth_error_Some; congruence).
  pose proof (@removeAt_length Block
                (updateAt j (fun _ => mkBlock (btype prev) (blevel prev)
                                        (markers prev)
                                        (mergedContent (content prev) (content cur)))
                   (blocks ed))
                (S j)) as Hl.
  rewrite updateAt_length in Hl. specialize (Hl Hi).
  simpl in C. lia.
Qed.

Lemma applyOp_nonempty (ed ed' : Editor) (op : RemovalOp) :
  blocks ed <> [] -> applyOp ed op = Some ed' -> blocks ed' <> [].
Proof.
  intros H E. destruct op as [sel|c|sel]; cbn [applyOp] in E.
  - injection E as <-. now apply deleteBlocks_nonempty.
  - injection E as <-. destruct c; simpl; [discriminate|exact H].
  - pose proof (keydownBackspace_nonempty ed sel H) as N.
    destruct (keydownBackspace ed sel); [discriminate| |];
      injection E as <-; exact N.
Qed.

Lemma applyOps_nonempty (ops : list RemovalOp) (ed ed' : Editor) :
  blocks ed <> [] -> applyOps ed ops = Some ed' -> blocks ed' <> [].
Proof.
  revert ed. induction ops as [|op r IH]; intros ed H E; cbn [applyOps] in E.
  - injection E as <-. exact H.
  - destruct (applyOp ed op) as [ed1|] eqn:E1; [|discriminate].
    apply (IH ed1); [|exact E].
    now apply (applyOp_nonempty ed ed1 op).
Qed.

(** A selection that is not collapsed is left to the browser, whatever
    the document holds. *)
Lemma keydownBackspace_range (ed : Editor) (sel : Selection) :
  isCollapsed sel = false -> keydownBackspace ed sel = BsDefault.
Proof.
  intros H. unfold keydownBackspace. rewrite H.
  now destruct (rangeCount sel =? 0).
Qed.

(** C1 as stated fails on Backspace with a selection that is not
    collapsed.  In a document whose only block is empty, be it without
    text or with one space that is selected, the handler returns before
    it looks at the blocks and without [preventDefault]: the key is not
    suppressed but left to the browser. *)
Lemma C1_backspace_with_selection_counterexample :
  (length (blocks (mkEditor [emptyTextBlock] [])) = 1
   /\ blockText emptyTextBlock = []
   /\ getCurrentBlock (rangeIn 0 [] 0) = Some 0
   /\ keydownBackspace (mkEditor [emptyTextBlock] []) (rangeIn 0 [] 0)
      = BsDefault)
  /\ (length (blocks (mkEditor [mkBlock text 0 [] [Text " "]] [])) = 1
      /\ trim (blockText (mkBlock text 0 [] [Text " "])) = []
      /\ getCurrentBlock (rangeIn 0 [0] 0) = Some 0
      /\ keydownBackspace (mkEditor [mkBlock text 0 [] [Text " "]] [])
           (rangeIn 0 [0] 0)
         = BsDefault)
  /\ BsDefault <> BsSuppressed.
Proof. repeat split. discriminate. Qed.

(** C1, amended.  Whatever sequence of Delete Block, Clear All and
    Backspace presses that the handler completes itself (a merge, or a
    return after [preventDefault]) is applied to a document that has a
    block, the document still has a block afterwards.  A deletion that
    removes every block leaves exactly one empty text block and focuses
    it, and a confirmed Clear All leaves exactly one empty text block.
    Backspace with a collapsed caret in the only block is suppressed, the
    document staying as it is, when that block is empty.  Backspace with
    a selection that is not collapsed is never suppressed: the handler
    leaves it to the browser, and the sequence has no result in the
    code. *)
Theorem C1_never_zero_blocks :
  (forall ops ed ed',
      blocks ed <> [] -> applyOps ed ops = Some ed' ->
      1 <= length (blocks ed'))
  /\ (forall ed sel ts,
        deleteTargets ed sel = Some ts ->
        removeBlocks ts (blocks ed) = [] ->
        deleteBlocks ed sel
        = (mkEditor [emptyTextBlock] [], Some (mkFocus 0 false)))
  /\ (forall ed, blocks (fst (clearAll true ed)) = [emptyTextBlock])
  /\ (btype emptyTextBlock = text /\ blockText emptyTextBlock = [])
  /\ (forall b multi sel,
        isCollapsed sel = true ->
        getCurrentBlock sel = Some 0 ->
        trim (blockText b) = [] ->
        let ed := mkEditor [b] multi in
        keydownBackspace ed sel = BsSuppressed
        /\ applyOp ed (OpBackspace sel) = Some ed)
  /\ (forall ed sel,
        isCollapsed sel = false ->
        keydownBackspace ed sel = BsDefault
        /\ applyOp ed (OpBackspace sel) = None).
Proof.
  split; [|split; [|split; [|split; [|split]]]].
  - intros ops ed ed' H E. pose proof (applyOps_nonempty ops ed ed' H E) as N.
    destruct (blocks ed'); [congruence|simpl; lia].
  - intros ed sel ts Ht Hr. unfold deleteBlocks. rewrite Ht, Hr. reflexivity.
  - reflexivity.
  - split; reflexivity.
  - intros b multi sel Hcol Hcur Hb ed.
    assert (Hrc : (rangeCount sel =? 0) = false).
    { unfold getCurrentBlock in Hcur.
      destruct (rangeCount sel =? 0); [discriminate|reflexivity]. }
    assert (E : keydownBackspace ed sel = BsSuppressed).
    { unfold keydownBackspace. rewrite Hrc, Hcol, Hcur. unfold ed; simpl.
      unfold blockText in Hb. rewrite Hb. reflexivity. }
    split; [exact E|]. cbn [applyOp]. now rewrite E.
  - intros ed sel Hcol.
    pose proof (keydownBackspace_range ed sel Hcol) as E.
    split; [exact E|]. cbn [applyOp]. now rewrite E.
Qed.

(** ** Autoformat *)

Lemma textOf_setTextContent (s : jstr) : textOf (setTextContent s) = s.
Proof.
  destruct s; [reflexivity|]. unfold textOf; simpl. now rewrite app_nil_r.
Qed.

Lemma typeAndTextAt_updateAt (f : Block -> Block) (bs : list Block)
    (multi : list nat) (i : nat) (b : Block) :
  nth_error bs i = Some b ->
  typeAndTextAt (mkEditor (updateAt i f bs) multi) i
  = Some (btype (f b), blockText (f b)).
Proof.
  intros H. unfold typeAndTextAt; simpl.
  now rewrite (updateAt_nth_same f bs i b H).
Qed.

Lemma typeAndTextAt_renumbered (bs : list Block) (multi : list nat) (i : nat)
    (b : Block) :
  nth_error bs i = Some b ->
  typeAndTextAt (mkEditor (updateNumberedBlocks bs) multi) i
  = Some (btype b, blockText b).
Proof.
  intros H. unfold typeAndTextAt; simpl.
  destruct (updateNumberedFrom_nth bs [] i b H) as [b' [Hn [Ht [_ [Hc _]]]]].
  unfold updateNumberedBlocks. rewrite Hn; simpl.
  unfold blockText. now rewrite Ht, Hc.
Qed.

(** [numberedPrefix] recognises one or two digits and a dot at the start,
    and gives the length of that prefix. *)
Lemma numberedPrefix_spec (s : jstr) (n : nat) :
  numberedPrefix s = Some n <->
  exists ds rest,
    s = ds ++ "." ++ rest /\ forallb isDigit ds = true
    /\ (length ds = 1 \/ length ds = 2) /\ n = S (length ds).
Proof.
  split.
  - unfold numberedPrefix.
    destruct s as [|d1 [|d2 [|d3 r]]]; try discriminate.
    + destruct (isDigit d1) eqn:E1; simpl; [|discriminate].
      destruct (Ascii.eqb_spec d2 "."%char) as [->|]; [|discriminate].
      intros [= <-]. exists [d1], []. simpl. rewrite E1. auto.
    + destruct (isDigit d1) eqn:E1; simpl; [|discriminate].
      destruct (isDigit d2) eqn:E2; simpl.
      * destruct (Ascii.eqb_spec d3 "."%char) as [->|]; simpl.
        -- intros [= <-]. exists [d1; d2], r. simpl. rewrite E1, E2. auto.
        -- destruct (Ascii.eqb_spec d2 "."%char) as [->|]; [|discriminate].
           discriminate E2.
      * destruct (Ascii.eqb_spec d2 "."%char) as [->|]; [|discriminate].
        intros [= <-]. exists [d1], (d3 :: r). simpl. rewrite E1. auto.
  - intros [ds [rest [-> [Hd [[Hl|Hl] ->]]]]].
    + destruct ds as [|d1 [|? ?]]; try discriminate Hl.
      simpl in Hd. rewrite andb_true_r in Hd.
      destruct rest as [|c r]; simpl; rewrite Hd; simpl; [reflexivity|].
      destruct (isDigit "."%char) eqn:E; [discriminate E|reflexivity].
    + destruct ds as [|d1 [|d2 [|? ?]]]; try discriminate Hl.
      simpl in Hd. rewrite andb_true_r in Hd.
      apply andb_true_iff in Hd. destruct Hd as [H1 H2].
      simpl. now rewrite H1, H2.
Qed.



(** ** Merging a block into the previous one *)

Lemma textOf_app (ks ks' : list Node) : textOf (ks ++ ks') = textOf ks ++ textOf ks'.
Proof. unfold textOf. now rewrite map_app, concat_app. Qed.

Lemma textOf_dropTrailingBR (ks : list Node) : textOf (dropTrailingBR ks) = textOf ks.
Proof.
  unfold dropTrailingBR. destruct (rev ks) as [|n r] eqn:E; [reflexivity|].
  destruct n; try reflexivity. simpl.
  rewrite <- (rev_involutive ks), E. simpl.
  rewrite textOf_app. unfold textOf at 3; simpl. now rewrite app_nil_r.
Qed.

Lemma textOf_mergedContent (prev cur : list Node) :
  textOf (mergedContent prev cur) = textOf prev ++ textOf cur.
Proof.
  unfold mergedContent. rewrite textOf_app, textOf_dropTrailingBR. f_equal.
  destruct (textOf cur) eqn:E; [reflexivity|].
  unfold textOf; simpl. now rewrite app_nil_r.
Qed.

Lemma nth_error_removeAt_before {A : Type} (l : list A) (i j : nat) :
  j < i -> nth_error (removeAt i l) j = nth_error l j.
Proof.
  intros H. unfold removeAt.
  destruct (Nat.lt_ge_cases j (length l)) as [Hl|Hl].
  - rewrite nth_error_app1 by (rewrite length_firstn; lia).
    now rewrite nth_error_firstn, (proj2 (Nat.ltb_lt j i) H).
  - rewrite (proj2 (nth_error_None l j) Hl).
    apply nth_error_None. rewrite length_app, length_firstn, length_skipn. lia.
Qed.

(** The handler on a caret at the very start of a block that has a
    predecessor. *)
Lemma keydownBackspace_merges (ed : Editor) (j : nat) (prev cur : Block) :
  nth_error (blocks ed) j = Some prev ->
  nth_error (blocks ed) (S j) = Some cur ->
  content cur <> [] ->
  keydownBackspace ed (caretIn (S j) [0] 0)
  = BsMerged
      (mkEditor
         (updateNumberedBlocks
            (removeAt (S j)
               (updateAt j
                  (fun _ => mkBlock (btype prev) (blevel prev) (markers prev)
                              (mergedContent (content prev) (content cur)))
                  (blocks ed))))
         (multiBlockSelection ed))
      j (length (blockText prev)).
Proof.
  intros Hp Hc Hne. unfold keydownBackspace, caretIn, getCurrentBlock.
  cbn [rangeCount isCollapsed anchorBlock startPath startOffset].
  cbn [Nat.eqb negb]. rewrite Hc, Hp.
  assert (Hl : S j < length (blocks ed)) by (apply nth_error_Some; congruence).
  destruct (Nat.eqb_spec (length (blocks ed)) 1) as [E|_]; [lia|].
  cbn [andb]. destruct (content cur); [contradiction|reflexivity].
Qed.

(** C10.  When Backspace merges a block into the previous one, the
    previous block loses a [<br>] that was its last child and gains at
    most one node: a text node holding the flattened text of the merged
    block, nothing when that text is empty.  Elements of the merged block
    (bold, italic, strikethrough) are not carried over: a block holding
    "c", a bold "d" and a struck "e" merged into "ab" followed by [<br>]
    leaves the two text nodes "ab" and "cde". *)
Theorem C10_merge_appends_plain_text :
  (forall ed j prev cur,
      nth_error (blocks ed) j = Some prev ->
      nth_error (blocks ed) (S j) = Some cur ->
      content cur <> [] ->
      exists ed' p',
        keydownBackspace ed (caretIn (S j) [0] 0)
        = BsMerged ed' j (length (blockText prev))
        /\ nth_error (blocks ed') j = Some p'
        /\ content p'
           = dropTrailingBR (content prev)
             ++ match blockText cur with
                | [] => []
                | t => [Text t]
                end
        /\ blockText p' = blockText prev ++ blockText cur)
  /\ (let ed := mkEditor
                  [mkBlock text 0 [] [Text "ab"; Br];
                   mkBlock text 0 []
                     [Text "c"; Elem "b" [Text "d"]; Elem "s" [Text "e"]]] [] in
      exists ed' n,
        keydownBackspace ed (caretIn 1 [0] 0) = BsMerged ed' 0 n
        /\ map content (blocks ed') = [[Text "ab"; Text "cde"]]).
Proof.
  split.
  - intros ed j prev cur Hp Hc Hne.
    rewrite (keydownBackspace_merges ed j prev cur Hp Hc Hne).
    set (p1 := mkBlock (btype prev) (blevel prev) (markers prev)
                 (mergedContent (content prev) (content cur))).
    assert (H1 : nth_error (removeAt (S j) (updateAt j (fun _ => p1) (blocks ed))) j
                 = Some p1).
    { rewrite nth_error_removeAt_before by lia.
      apply (updateAt_nth_same (fun _ => p1) _ _ prev Hp). }
    destruct (updateNumberedFrom_nth _ [] j p1 H1) as [p' [Hn [_ [_ [Hco _]]]]].
    exists (mkEditor
              (updateNumberedBlocks
                 (removeAt (S j) (updateAt j (fun _ => p1) (blocks ed))))
              (multiBlockSelection ed)), p'.
    split; [reflexivity|]. split; [exact Hn|]. split.
    + rewrite Hco. unfold p1, mergedContent, blockText. cbn [content].
      destruct (textOf (content cur)); reflexivity.
    + unfold blockText. rewrite Hco. apply textOf_mergedContent.
  - eexists; eexists; split; reflexivity.
Qed.

(** The loop finds the merge point when the content has no inline
    elements. *)
Lemma findMergePoint_plain (ks : list Node) (len cur idx : nat) :
  plainContent ks = true -> cur <= len -> len <= cur + length (textOf ks) ->
  match findMergePoint len cur idx ks with
  | Some (node, off) =>
      idx <= node /\ cur + length (textOf (firstn (node - idx) ks)) + off = len
  | None => len = cur + length (textOf ks)
  end.
Proof.
  revert cur idx; induction ks as [|n r IH]; intros cur idx Hp Hc Hl.
  - unfold textOf in Hl; simpl in *. lia.
  - simpl in Hp. apply andb_true_iff in Hp. destruct Hp as [Hn Hr].
    change (n :: r) with ([n] ++ r) in Hl. rewrite textOf_app, length_app in Hl.
    destruct n as [d| |t cs]; [| |discriminate Hn]; cbn [findMergePoint].
    + unfold textOf at 1 in Hl; simpl in Hl. rewrite app_nil_r in Hl.
      destruct (Nat.leb_spec len (cur + length d)) as [Hle|Hgt].
      * split; [lia|]. rewrite Nat.sub_diag. unfold textOf; simpl. lia.
      * specialize (IH (cur + length d) (S idx) Hr ltac:(lia) ltac:(lia)).
        destruct (findMergePoint len (cur + length d) (S idx) r) as [[node off]|].
        -- destruct IH as [Hi He]. split; [lia|].
           replace (node - idx) with (S (node - S idx)) by lia.
           cbn [firstn]. change (Text d :: firstn (node - S idx) r)
             with ([Text d] ++ firstn (node - S idx) r).
           rewrite textOf_app, length_app. unfold textOf at 1; simpl.
           rewrite app_nil_r. lia.
        -- change (Text d :: r) with ([Text d] ++ r).
           rewrite textOf_app, length_app. unfold textOf at 1; simpl.
           rewrite app_nil_r. lia.
    + unfold textOf at 1 in Hl; simpl in Hl.
      specialize (IH cur (S idx) Hr Hc ltac:(lia)).
      destruct (findMergePoint len cur (S idx) r) as [[node off]|].
      * destruct IH as [Hi He]. split; [lia|].
        replace (node - idx) with (S (node - S idx)) by lia.
        cbn [firstn]. change (Br :: firstn (node - S idx) r)
          with ([Br] ++ firstn (node - S idx) r).
        rewrite textOf_app, length_app. unfold textOf at 1; simpl. lia.
      * change (Br :: r) with ([Br] ++ r).
        rewrite textOf_app, length_app. unfold textOf at 1; simpl. lia.
Qed.

(** When the previous block holds no inline elements the callback puts
    the caret at the length its text had before the merge. *)
Lemma restoreMergeCaret_plain (prev cur : list Node) :
  plainContent prev = true ->
  let previousLength := length (textOf prev) in
  let result := restoreMergeCaret previousLength (mergedContent prev cur) in
  caretTextOffset (fst result) (fst (snd result)) (snd (snd result))
  = previousLength.
Proof.
  intros Hp previousLength result.
  assert (Hm : plainContent (mergedContent prev cur) = true).
  { unfold mergedContent, plainContent. rewrite forallb_app.
    apply andb_true_iff. split; [|destruct (textOf cur); reflexivity].
    unfold dropTrailingBR. destruct (rev prev) as [|n r] eqn:E; [exact Hp|].
    destruct (isBR n); [|exact Hp].
    unfold plainContent in Hp. rewrite forallb_forall in Hp.
    apply forallb_forall. intros x Hx. apply Hp.
    apply in_rev. rewrite E. right. now apply in_rev. }
  assert (Hl : previousLength <= 0 + length (textOf (mergedContent prev cur))).
  { rewrite textOf_mergedContent, length_app. unfold previousLength. lia. }
  pose proof (findMergePoint_plain (mergedContent prev cur) previousLength 0 0
                Hm (Nat.le_0_l _) Hl) as H.
  unfold result, restoreMergeCaret, caretTextOffset.
  destruct (findMergePoint previousLength 0 0 (mergedContent prev cur))
    as [[node off]|]; cbn [fst snd].
  - destruct H as [_ H]. rewrite Nat.sub_0_r in H. lia.
  - rewrite firstn_app, firstn_all, Nat.sub_diag. cbn [firstn].
    rewrite app_nil_r. lia.
Qed.

(** C3 on the code.  The text of the merged block is appended and the
    block is removed, but the loop that restores the caret counts only
    the text nodes that are children of the content element: with a bold
    "ab" in the previous block and "cd" merged into it, the text becomes
    "abcd", the length before the merge is 2, and the caret is put at
    offset 4 of the text, after "cd". *)
Theorem C3_merge_caret_after_inline_markup :
  exists ed' ed'' node offset,
    keydownBackspace
      (mkEditor [mkBlock text 0 [] [Elem "b" [Text "ab"]];
                 mkBlock text 0 [] [Text "cd"]] [])
      (caretIn 1 [0] 0)
    = BsMerged ed' 0 2
    /\ map blockText (blocks ed') = ["abcd"]
    /\ mergeCaretCallback ed' 0 2 = (ed'', Some (mkCaret 0 node offset))
    /\ map (fun p => caretTextOffset (content p) node offset) (blocks ed'') = [4].
Proof.
  do 4 eexists. repeat split.
Qed.

(** ** Markup-free strings under [innerHTML] *)

Lemma tokenize_markupFree (s : jstr) :
  markupFree s = true -> tokenize Data s = map TChar s.
Proof.
  induction s as [|c r IH]; [reflexivity|]. simpl.
  intros H. apply andb_true_iff in H. destruct H as [Hc Hr].
  unfold isMarkupChar in Hc. apply negb_true_iff in Hc.
  apply orb_false_iff in Hc. destruct Hc as [Hc Hnul].
  apply orb_false_iff in Hc. destruct Hc as [Hc Hcr].
  apply orb_false_iff in Hc. destruct Hc as [Hlt _].
  rewrite Hlt, Hnul, Hcr. now rewrite IH.
Qed.

Lemma buildTree_chars (s d : jstr) (k : list Node) :
  buildTree (map TChar s) [] (Text d :: k) = rev k ++ [Text (d ++ s)].
Proof.
  revert d; induction s as [|c r IH]; intros d; simpl.
  - now rewrite app_nil_r.
  - rewrite IH. now rewrite <- app_assoc.
Qed.

Lemma parseHTML_markupFree (s : jstr) :
  markupFree s = true -> s <> [] -> parseHTML s = [Text s].
Proof.
  intros H Hne. unfold parseHTML. rewrite tokenize_markupFree by exact H.
  destruct s as [|c r]; [contradiction|]. simpl.
  unfold addChar. now rewrite buildTree_chars.
Qed.

Lemma blockText_createBlockElement (t : BlockType) (s : jstr) (l : nat) :
  markupFree s = true -> blockText (createBlockElement t s l) = s.
Proof.
  intros H. unfold blockText, createBlockElement; cbn [content].
  destruct s as [|c r]; [reflexivity|].
  rewrite parseHTML_markupFree by (auto; discriminate).
  unfold textOf; simpl. now rewrite app_nil_r.
Qed.

(** ** Splitting a block *)

Lemma nth_error_split_at {A : Type} (l : list A) (i : nat) (x : A) :
  nth_error l i = Some x -> l = firstn i l ++ x :: skipn (S i) l.
Proof.
  revert i; induction l as [|y r IH]; intros [|i]; simpl; try discriminate.
  - now intros [= ->].
  - intros H. f_equal. now apply IH.
Qed.

(** The text that [deleteContents] leaves, followed by the text of the
    range, is the text there was. *)
Lemma deleteAfter_textAfter (path : list nat) (offset : nat) (ks : list Node) :
  textOf (deleteAfter path offset ks) ++ textAfter path offset ks = textOf ks.
Proof.
  revert ks; induction path as [|i p IH]; intros ks; cbn [deleteAfter textAfter].
  - now rewrite <- textOf_app, firstn_skipn.
  - destruct (nth_error ks i) as [n|] eqn:E.
    + transitivity (textOf (firstn i ks ++ n :: skipn (S i) ks));
        [|now rewrite <- (nth_error_split_at ks i n E)].
      rewrite !textOf_app, <- app_assoc. f_equal.
      change (n :: skipn (S i) ks) with ([n] ++ skipn (S i) ks).
      rewrite textOf_app, app_assoc. f_equal.
      destruct n as [d| |t cs]; unfold textOf; simpl; rewrite ?app_nil_r.
      * apply firstn_skipn.
      * reflexivity.
      * apply IH.
    + apply nth_error_None in E.
      rewrite firstn_all2, skipn_all2 by lia.
      unfold textOf at 2; simpl. now rewrite !app_nil_r.
Qed.

Lemma map_updateAt_const {A B : Type} (g : A -> B) (l : list A) (i : nat) (x y : A) :
  nth_error l i = Some y ->
  map g (updateAt i (fun _ => x) l)
  = firstn i (map g l) ++ g x :: skipn (S i) (map g l).
Proof.
  revert i; induction l as [|z r IH]; intros [|i]; simpl; try discriminate.
  - reflexivity.
  - intros H. f_equal. now apply IH.
Qed.

Lemma map_insertAt_updateAt {A B : Type} (g : A -> B) (l : list A) (i : nat)
    (x y z : A) :
  nth_error l i = Some z ->
  map g (insertAt (S i) y (updateAt i (fun _ => x) l))
  = firstn i (map g l) ++ g x :: g y :: skipn (S i) (map g l).
Proof.
  revert i; induction l as [|w r IH]; intros [|i]; simpl; try discriminate.
  - destruct r; reflexivity.
  - intros H. f_equal. now apply IH.
Qed.

Lemma updateNumberedBlocks_texts (bs : list Block) :
  map blockText (updateNumberedBlocks bs) = map blockText bs.
Proof.
  change blockText with (fun b => textOf (content b)).
  rewrite <- !(map_map content textOf).
  unfold updateNumberedBlocks. now rewrite updateNumberedFrom_contents.
Qed.

Lemma updateNumberedBlocks_shapes (bs : list Block) :
  map blockShape (updateNumberedBlocks bs) = map blockShape bs.
Proof. apply updateNumberedFrom_shapes. Qed.

(** C2 as stated fails on a list item that holds only white space: its
    text is not empty, yet Enter converts it to a text block and creates
    no block. *)
Lemma C2_whitespace_item_counterexample :
  blockText (mkBlock bullet 0 [bulletMarker] [Text " "]) <> []
  /\ exists ed',
       keydownEnter (mkEditor [mkBlock bullet 0 [bulletMarker] [Text " "]] [])
         (caretIn 0 [0] 1)
       = Handled ed' (Some (mkFocus 0 false))
       /\ map blockShape (blocks ed') = [(text, 0)].
Proof.
  split; [discriminate|]. eexists; split; reflexivity.
Qed.

(** C2, amended.  Enter with the caret in a block.  If the text of the
    block is empty or white space only and the block is a bullet or a
    numbered item, the block becomes a text block in place, with its
    level and content, no block is created and the focus goes to its
    start.  Otherwise a block is inserted right after it, of the same
    list type when the block is a bullet or a numbered item and of type
    text otherwise, at the level of the block; the text before the caret
    stays, the text after it becomes the text of the new block when it
    holds neither ['<'] nor ['&'] (nor a carriage return or NUL); the
    focus goes to the start of the new block. *)
Theorem C2_enter_splits_or_converts (ed : Editor) (sel : Selection) (i : nat)
    (b : Block) :
  getCurrentBlock sel = Some i -> nth_error (blocks ed) i = Some b ->
  let shapes := map blockShape (blocks ed) in
  let texts := map blockText (blocks ed) in
  let after := textAfter (startPath sel) (startOffset sel) (content b) in
  (trim (blockText b) = [] -> isListType (btype b) = true ->
   exists ed',
     keydownEnter ed sel = Handled ed' (Some (mkFocus i false))
     /\ map blockShape (blocks ed')
        = firstn i shapes ++ (text, blevel b) :: skipn (S i) shapes
     /\ map content (blocks ed') = map content (blocks ed))
  /\ (trim (blockText b) <> [] \/ isListType (btype b) = false ->
      exists ed' before newText,
        keydownEnter ed sel = Handled ed' (Some (mkFocus (S i) false))
        /\ map blockShape (blocks ed')
           = firstn i shapes
             ++ blockShape b
                :: ((if isListType (btype b) then btype b else text), blevel b)
                :: skipn (S i) shapes
        /\ map blockText (blocks ed')
           = firstn i texts ++ before :: newText :: skipn (S i) texts
        /\ before ++ after = blockText b
        /\ (markupFree after = true -> newText = after)).
Proof.
  intros Hcur Hb shapes texts after. unfold keydownEnter. rewrite Hcur, Hb.
  split.
  - intros Ht Hl. rewrite Ht, Hl. cbn [length Nat.eqb andb].
    eexists; split; [reflexivity|]. cbn [blocks]. split.
    + rewrite updateNumberedBlocks_shapes.
      now rewrite (map_updateAt_const blockShape _ _ _ b Hb).
    + unfold updateNumberedBlocks. rewrite updateNumberedFrom_contents.
      rewrite (map_updateAt_const content _ _ _ b Hb). cbn [content].
      symmetry. apply nth_error_split_at, map_nth_error, Hb.
  - intros Hcase.
    assert (Hc : (length (trim (blockText b)) =? 0) && isListType (btype b) = false).
    { destruct Hcase as [Ht|Hl].
      - destruct (trim (blockText b)); [contradiction|reflexivity].
      - rewrite Hl. apply andb_false_r. }
    rewrite Hc.
    set (kept := deleteAfter (startPath sel) (startOffset sel) (content b)).
    set (kept' := match kept with [] => parseHTML "<br>" | _ => kept end).
    set (newType := if isListType (btype b) then btype b else text).
    set (newBlock := createBlockElement newType after (blevel b)).
    set (current' := mkBlock (btype b) (blevel b) (markers b) kept').
    exists (mkEditor
              (if isNumbered (btype b) || isNumbered newType
               then updateNumberedBlocks
                      (insertAt (S i) newBlock
                         (updateAt i (fun _ => current') (blocks ed)))
               else insertAt (S i) newBlock
                      (updateAt i (fun _ => current') (blocks ed)))
              (multiBlockSelection ed)),
           (textOf kept), (blockText newBlock).
    split; [reflexivity|]. cbn [blocks].
    assert (Hk : textOf kept' = textOf kept)
      by (unfold kept'; destruct kept; reflexivity).
    split; [|split; [|split]].
    + destruct (isNumbered (btype b) || isNumbered newType);
        rewrite ?updateNumberedBlocks_shapes;
        rewrite (map_insertAt_updateAt blockShape _ _ _ _ b Hb);
        destruct newType; reflexivity.
    + assert (E : map blockText
                    (insertAt (S i) newBlock
                       (updateAt i (fun _ => current') (blocks ed)))
                  = firstn i texts
                    ++ textOf kept :: blockText newBlock :: skipn (S i) texts).
      { rewrite (map_insertAt_updateAt blockText _ _ _ _ b Hb).
        replace (blockText current') with (textOf kept) by (symmetry; exact Hk).
        reflexivity. }
      destruct (isNumbered (btype b) || isNumbered newType);
        [rewrite updateNumberedBlocks_texts|]; exact E.
    + apply deleteAfter_textAfter.
    + intros Hm. now apply blockText_createBlockElement.
Qed.

(** ** The theorems at concrete documents *)

(** C1 at a document of two blocks and a sequence of five operations
    (the first Backspace merges, the second is suppressed), at a deletion
    of the only block, and at Backspace in an only block that holds one
    space, with the caret after the space and with the space selected. *)
Lemma C1_never_zero_blocks_witness :
  (blocks (mkEditor [createBlockElement text "a" 0;
                     createBlockElement bullet "b" 0] []) <> []
   /\ applyOps
        (mkEditor [createBlockElement text "a" 0;
                   createBlockElement bullet "b" 0] [])
        [OpBackspace (caretIn 1 [0] 0);
         OpDeleteBlocks (caretIn 0 [0] 0);
         OpClearAll true;
         OpBackspace (caretIn 0 [0] 0);
         OpDeleteBlocks (caretIn 0 [0] 0)]
      = Some (mkEditor [emptyTextBlock] [])
   /\ 1 <= length (blocks (mkEditor [emptyTextBlock] [])))
  /\ (deleteTargets (mkEditor [createBlockElement text "a" 0] [])
        (caretIn 0 [0] 1) = Some [0]
      /\ removeBlocks [0] [createBlockElement text "a" 0] = []
      /\ deleteBlocks (mkEditor [createBlockElement text "a" 0] [])
           (caretIn 0 [0] 1)
         = (mkEditor [emptyTextBlock] [], Some (mkFocus 0 false)))
  /\ (isCollapsed (caretIn 0 [0] 1) = true
      /\ getCurrentBlock (caretIn 0 [0] 1) = Some 0
      /\ trim (blockText (mkBlock text 0 [] [Text " "])) = []
      /\ keydownBackspace (mkEditor [mkBlock text 0 [] [Text " "]] [])
           (caretIn 0 [0] 1)
         = BsSuppressed
      /\ applyOp (mkEditor [mkBlock text 0 [] [Text " "]] [])
           (OpBackspace (caretIn 0 [0] 1))
         = Some (mkEditor [mkBlock text 0 [] [Text " "]] []))
  /\ (isCollapsed (rangeIn 0 [0] 0) = false
      /\ keydownBackspace (mkEditor [mkBlock text 0 [] [Text " "]] [])
           (rangeIn 0 [0] 0)
         = BsDefault
      /\ applyOp (mkEditor [mkBlock text 0 [] [Text " "]] [])
           (OpBackspace (rangeIn 0 [0] 0))
         = None).
Proof.
  destruct C1_never_zero_blocks as (Hseq & Hdel & _ & _ & Hguard & Hrange).
  split; [|split; [|split]].
  - split; [discriminate|]. split; [reflexivity|].
    apply (Hseq
             [OpBackspace (caretIn 1 [0] 0);
              OpDeleteBlocks (caretIn 0 [0] 0);
              OpClearAll true;
              OpBackspace (caretIn 0 [0] 0);
              OpDeleteBlocks (caretIn 0 [0] 0)]
             (mkEditor [createBlockElement text "a" 0;
                        createBlockElement bullet "b" 0] [])).
    + discriminate.
    + reflexivity.
  - split; [reflexivity|]. split; [reflexivity|].
    apply (Hdel (mkEditor [createBlockElement text "a" 0] [])
             (caretIn 0 [0] 1) [0]); reflexivity.
  - split; [reflexivity|]. split; [reflexivity|]. split; [reflexivity|].
    apply (Hguard (mkBlock text 0 [] [Text " "]) [] (caretIn 0 [0] 1));
      reflexivity.
  - split; [reflexivity|].
    apply (Hrange (mkEditor [mkBlock text 0 [] [Text " "]] [])
             (rangeIn 0 [0] 0)); reflexivity.
Defined.

(** C2 at a bullet holding "ab" at level 1, the caret after "a". *)
Lemma C2_enter_splits_or_converts_witness :
  getCurrentBlock (caretIn 0 [0] 1) = Some 0
  /\ nth_error (blocks (mkEditor [createBlockElement bullet "ab" 1] [])) 0
     = Some (createBlockElement bullet "ab" 1)
  /\ (trim (blockText (createBlockElement bullet "ab" 1)) <> []
      \/ isListType (btype (createBlockElement bullet "ab" 1)) = false)
  /\ exists ed',
       keydownEnter (mkEditor [createBlockElement bullet "ab" 1] [])
         (caretIn 0 [0] 1)
       = Handled ed' (Some (mkFocus 1 false))
       /\ map blockShape (blocks ed') = [(bullet, 1); (bullet, 1)].
Proof.
  split; [reflexivity|]. split; [reflexivity|].
  split; [left; discriminate|].
  destruct (proj2 (C2_enter_splits_or_converts
                     (mkEditor [createBlockElement bullet "ab" 1] [])
                     (caretIn 0 [0] 1) 0 (createBlockElement bullet "ab" 1)
                     eq_refl eq_refl)
                  (or_introl (fun H => @nil_cons _ _ _ (eq_sym H))))
    as [ed' [before [newText [H1 [H2 _]]]]].
  exists ed'. split; [exact H1|exact H2].
Defined.


(** C6 at a bullet block, Bullet List invoked with the caret in it. *)
Lemma C6_toggle_commands_witness :
  NoDup [0] /\ In 0 [0]
  /\ nth_error (blocks (mkEditor [createBlockElement bullet "item" 0] [])) 0
     = Some (createBlockElement bullet "item" 0)
  /\ wellFormed (createBlockElement bullet "item" 0)
  /\ exists b',
       nth_error
         (blocks (fst (runCommand CmdBulletList
                         (mkEditor [createBlockElement bullet "item" 0] [])
                         (caretIn 0 [0] 0))))
         0 = Some b'
       /\ content b' = content (createBlockElement bullet "item" 0)
       /\ (isToggleCommand CmdBulletList = true -> btype b' = text /\ markers b' = [])
       /\ (isToggleCommand CmdBulletList = false
           -> btype b' = btype (createBlockElement bullet "item" 0)).
Proof.
  split; [apply singleton_NoDup|]. split; [left; reflexivity|].
  split; [reflexivity|]. split; [reflexivity|].
  exact (proj1 (C6_toggle_commands
                  (mkEditor [createBlockElement bullet "item" 0] [])
                  (caretIn 0 [0] 0) [0] 0 (createBlockElement bullet "item" 0)
                  (singleton_NoDup 0) (or_introl eq_refl) eq_refl eq_refl)
               CmdBulletList eq_refl eq_refl).
Defined.

(** C10 at "ab" followed by a block that holds "c" and an italic "d". *)
Lemma C10_merge_appends_plain_text_witness :
  nth_error
    (blocks (mkEditor [createBlockElement text "ab" 0;
                       mkBlock text 0 [] [Text "c"; Elem "i" [Text "d"]]] []))
    0 = Some (createBlockElement text "ab" 0)
  /\ nth_error
       (blocks (mkEditor [createBlockElement text "ab" 0;
                          mkBlock text 0 [] [Text "c"; Elem "i" [Text "d"]]] []))
       1 = Some (mkBlock text 0 [] [Text "c"; Elem "i" [Text "d"]])
  /\ content (mkBlock text 0 [] [Text "c"; Elem "i" [Text "d"]]) <> []
  /\ exists ed' p',
       keydownBackspace
         (mkEditor [createBlockElement text "ab" 0;
                    mkBlock text 0 [] [Text "c"; Elem "i" [Text "d"]]] [])
         (caretIn 1 [0] 0)
       = BsMerged ed' 0 (length (blockText (createBlockElement text "ab" 0)))
       /\ nth_error (blocks ed') 0 = Some p'
       /\ content p'
          = dropTrailingBR (content (createBlockElement text "ab" 0))
            ++ match blockText (mkBlock text 0 [] [Text "c"; Elem "i" [Text "d"]]) with
               | [] => []
               | t => [Text t]
               end
       /\ blockText p'
          = blockText (createBlockElement text "ab" 0)
            ++ blockText (mkBlock text 0 [] [Text "c"; Elem "i" [Text "d"]]).
Proof.
  split; [reflexivity|]. split; [reflexivity|]. split; [discriminate|].
  apply (proj1 C10_merge_appends_plain_text
           (mkEditor [createBlockElement text "ab" 0;
                      mkBlock text 0 [] [Text "c"; Elem "i" [Text "d"]]] [])
           0 (createBlockElement text "ab" 0)
           (mkBlock text 0 [] [Text "c"; Elem "i" [Text "d"]])).
  - reflexivity.
  - reflexivity.
  - discriminate.
Defined.

(** ** The markdown round trip *)

(** *** Trimming *)

Lemma dropWhile_Forall (p q : ascii -> bool) (s : jstr) :
  forallb q s = true -> forallb q (dropWhile p s) = true.
Proof.
  induction s as [|c r IH]; simpl; [auto|].
  intros H. destruct (p c); [|exact H].
  apply andb_true_iff in H. apply IH, H.
Qed.

Lemma forallb_rev (q : ascii -> bool) (s : jstr) :
  forallb q (rev s) = forallb q s.
Proof.
  induction s as [|c r IH]; [reflexivity|]. simpl.
  rewrite forallb_app, IH. simpl. rewrite andb_true_r. apply andb_comm.
Qed.

Lemma trim_Forall (q : ascii -> bool) (s : jstr) :
  forallb q s = true -> forallb q (trim s) = true.
Proof.
  intros H. unfold trim, trimEnd, trimStart.
  rewrite forallb_rev. apply dropWhile_Forall.
  rewrite forallb_rev. apply dropWhile_Forall, H.
Qed.

Lemma skipn_Forall (q : ascii -> bool) (n : nat) (s : jstr) :
  forallb q s = true -> forallb q (skipn n s) = true.
Proof.
  revert s; induction n as [|n IH]; intros [|c r]; simpl; auto.
  intros H. apply andb_true_iff in H. apply IH, H.
Qed.

Lemma dropWhile_head (p : ascii -> bool) (s : jstr) :
  match dropWhile p s with
  | [] => True
  | c :: _ => p c = false
  end.
Proof.
  induction s as [|c r IH]; simpl; [exact I|].
  destruct (p c) eqn:E; [exact IH|exact E].
Qed.

Lemma dropWhile_id (p : ascii -> bool) (c : ascii) (r : jstr) :
  p c = false -> dropWhile p (c :: r) = c :: r.
Proof. intros H; simpl; now rewrite H. Qed.

Lemma dropWhile_app_nonempty (p : ascii -> bool) (x y : jstr) :
  dropWhile p x <> [] -> dropWhile p (x ++ y) = dropWhile p x ++ y.
Proof.
  induction x as [|c r IH]; simpl; [contradiction|].
  destruct (p c); [exact IH|reflexivity].
Qed.

Lemma dropWhile_repeat (p : ascii -> bool) (c : ascii) (n : nat) (x : jstr) :
  p c = true -> dropWhile p (repeat c n ++ x) = dropWhile p x.
Proof.
  intros H; induction n as [|n IH]; simpl; [reflexivity|]. now rewrite H.
Qed.

Lemma last_rev_head (c d : ascii) (r : jstr) :
  exists x y, rev (c :: r) = x :: y /\ x = last (c :: r) d.
Proof.
  destruct (rev (c :: r)) as [|x y] eqn:E.
  - apply (f_equal (@length ascii)) in E. rewrite length_rev in E. discriminate.
  - exists x, y. split; [reflexivity|].
    rewrite <- (rev_involutive (c :: r)), E. simpl. apply eq_sym, last_last.
Qed.

Lemma tight_cases (s : jstr) :
  tight s = true ->
  exists c r, s = c :: r /\ isWhiteSpace c = false
              /\ exists x y, rev s = x :: y /\ isWhiteSpace x = false.
Proof.
  destruct s as [|c r]; [discriminate|]. unfold tight.
  intros H. apply andb_true_iff in H. destruct H as [H1 H2].
  apply negb_true_iff in H1, H2.
  exists c, r. split; [reflexivity|]. split; [exact H1|].
  destruct (last_rev_head c c r) as [x [y [E ->]]].
  exists (last (c :: r) c), y. split; [exact E|exact H2].
Qed.

Lemma tight_trimStart (s : jstr) : tight s = true -> trimStart s = s.
Proof.
  intros H. destruct (tight_cases s H) as [c [r [-> [Hc _]]]].
  now apply dropWhile_id.
Qed.

Lemma tight_trimEnd (s : jstr) : tight s = true -> trimEnd s = s.
Proof.
  intros H. destruct (tight_cases s H) as [_ [_ [_ [_ [x [y [E Hx]]]]]]].
  unfold trimEnd. rewrite E, dropWhile_id by exact Hx.
  rewrite <- E. apply rev_involutive.
Qed.

Lemma tight_trim (s : jstr) : tight s = true -> trim s = s.
Proof.
  intros H. unfold trim. rewrite tight_trimStart by exact H.
  now apply tight_trimEnd.
Qed.

Lemma dropWhile_suffix (p : ascii -> bool) (t u : jstr) :
  dropWhile p t = u -> exists pre, t = pre ++ u.
Proof.
  revert u; induction t as [|a t IH]; simpl; intros u.
  - intros <-. now exists [].
  - destruct (p a).
    + intros E. destruct (IH u E) as [pre Hp]. exists (a :: pre). now rewrite Hp.
    + intros <-. now exists [].
Qed.

(** A trimmed string is empty or tight. *)
Lemma trim_tight (s : jstr) : trim s = [] \/ tight (trim s) = true.
Proof.
  unfold trim, trimEnd.
  pose proof (dropWhile_head isWhiteSpace (rev (trimStart s))) as Hh.
  destruct (dropWhile isWhiteSpace (rev (trimStart s))) as [|x y] eqn:E;
    [left; reflexivity|right].
  assert (Hs : exists c r, rev (x :: y) = c :: r).
  { destruct (rev (x :: y)) as [|c r] eqn:E'; [|eauto].
    apply (f_equal (@length ascii)) in E'. rewrite length_rev in E'. discriminate. }
  destruct Hs as [c [r Hs]]. rewrite Hs. unfold tight.
  assert (Hc : isWhiteSpace c = false).
  { (* [c] is the first character of the left-trimmed string *)
    pose proof (dropWhile_head isWhiteSpace s) as Hd. fold (trimStart s) in Hd.
    destruct (dropWhile_suffix _ _ _ E) as [pre Hp].
    apply (f_equal (@rev ascii)) in Hp. rewrite rev_involutive in Hp.
    rewrite rev_app_distr, Hs in Hp. rewrite Hp in Hd. exact Hd. }
  rewrite Hc. cbn [negb andb].
  destruct (last_rev_head c c r) as [x' [y' [E1 E2]]].
  rewrite <- Hs, rev_involutive in E1. injection E1 as <- <-.
  rewrite <- E2. now rewrite Hh.
Qed.

Lemma trim_idem (s : jstr) : trim (trim s) = trim s.
Proof.
  destruct (trim_tight s) as [E|E]; [now rewrite E|now apply tight_trim].
Qed.

Lemma dropWhile_nil_all (p : ascii -> bool) (s : jstr) :
  dropWhile p s = [] -> forallb p s = true.
Proof.
  induction s as [|c r IH]; simpl; [auto|].
  destruct (p c); [exact IH|discriminate].
Qed.

Lemma trim_nil_all_ws (s : jstr) : trim s = [] -> forallb isWhiteSpace s = true.
Proof.
  unfold trim, trimEnd. intros H.
  apply (f_equal (@rev ascii)) in H. rewrite rev_involutive in H. simpl in H.
  apply dropWhile_nil_all in H. rewrite forallb_rev in H.
  pose proof (dropWhile_head isWhiteSpace s) as Hh. unfold trimStart in H.
  destruct (dropWhile isWhiteSpace s) as [|c r] eqn:E.
  - now apply dropWhile_nil_all.
  - simpl in H. rewrite Hh in H. discriminate.
Qed.

Lemma tight_endsTight (s : jstr) : tight s = true -> endsTight s.
Proof.
  intros H. destruct (tight_cases s H) as [_ [_ [_ [_ He]]]]. exact He.
Qed.

Lemma endsTight_not_all_ws (s : jstr) :
  endsTight s -> forallb isWhiteSpace s = true -> False.
Proof.
  intros [x [y [E Hx]]] H. rewrite <- forallb_rev, E in H. simpl in H.
  rewrite Hx in H. discriminate.
Qed.

Lemma endsTight_app (p c : jstr) :
  endsTight (p ++ c) -> (endsTight p -> False) -> endsTight c.
Proof.
  intros [x [y [E Hx]]] Hp. rewrite rev_app_distr in E.
  destruct (rev c) as [|x' y'] eqn:Ec.
  - exfalso. apply Hp. exists x, y. split; [exact E|exact Hx].
  - simpl in E. injection E as -> _. exists x, y'. split; [exact Ec|exact Hx].
Qed.

Lemma endsTight_trim_tight (c : jstr) : endsTight c -> tight (trim c) = true.
Proof.
  intros H. destruct (trim_tight c) as [E|E]; [|exact E].
  exfalso. apply (endsTight_not_all_ws c H). now apply trim_nil_all_ws.
Qed.

Lemma endsTight_dropWhile (s : jstr) :
  endsTight s -> tight (dropWhile isWhiteSpace s) = true.
Proof.
  intros H.
  destruct (dropWhile isWhiteSpace s) as [|c r] eqn:E.
  - exfalso. apply (endsTight_not_all_ws s H). now apply dropWhile_nil_all.
  - pose proof (dropWhile_head isWhiteSpace s) as Hh. rewrite E in Hh.
    destruct (dropWhile_suffix _ _ _ E) as [pre Hp].
    assert (He : endsTight (c :: r)).
    { destruct H as [x [y [Ex Hx]]]. rewrite Hp, rev_app_distr in Ex.
      destruct (rev (c :: r)) as [|x' y'] eqn:Er.
      - apply (f_equal (@length ascii)) in Er. rewrite length_rev in Er.
        discriminate.
      - simpl in Ex. injection Ex as -> _. exists x, y'. split; [exact Er|exact Hx]. }
    destruct He as [x [y [Ex Hx]]].
    unfold tight. rewrite Hh. cbn [negb andb].
    destruct (last_rev_head c c r) as [x' [y' [E1 E2]]].
    rewrite Ex in E1. injection E1 as <- <-. rewrite <- E2. now rewrite Hx.
Qed.

(** *** One line of markdown *)

Lemma markdownLineToBlock_classify (line : jstr) :
  markdownLineToBlock line
  = createBlockElement (fst (classifyTrimmed (trim line)))
      (snd (classifyTrimmed (trim line))) (lineLevel line).
Proof.
  unfold markdownLineToBlock, lineLevel, classifyTrimmed.
  destruct (trim line) as [|c r]; [reflexivity|].
  destruct (startsWith "### " (c :: r)); [reflexivity|].
  destruct (startsWith "## " (c :: r)); [reflexivity|].
  destruct (startsWith "# " (c :: r)); [reflexivity|].
  destruct (startsWith "> " (c :: r)); [reflexivity|].
  destruct (bulletLine (c :: r)); [reflexivity|].
  destruct (numberedLine (c :: r)); reflexivity.
Qed.

Lemma startsWith_app (p s : jstr) :
  startsWith p s = true -> s = p ++ skipn (length p) s.
Proof.
  revert s; induction p as [|a p IH]; intros s; [reflexivity|].
  destruct s as [|b s]; simpl; [discriminate|].
  intros H. apply andb_true_iff in H. destruct H as [H1 H2].
  apply Ascii.eqb_eq in H1. subst b. f_equal. apply IH, H2.
Qed.

Lemma not_endsTight_space (p : jstr) : endsTight (p ++ " ") -> False.
Proof.
  intros [x [y [E Hx]]]. rewrite rev_app_distr in E. simpl in E.
  injection E as <- _. discriminate Hx.
Qed.

(** The content of a heading line that is tight ends tight. *)
Lemma heading_content_endsTight (p t : jstr) :
  endsTight t -> startsWith (p ++ " ") t = true ->
  endsTight (sliceFrom (length (p ++ " ")) t).
Proof.
  intros Ht Hs. unfold sliceFrom.
  rewrite (startsWith_app _ _ Hs) in Ht.
  apply (endsTight_app _ _ Ht). apply not_endsTight_space.
Qed.

Lemma bulletLine_content (t c : jstr) :
  endsTight t -> bulletLine t = Some c ->
  tight c = true /\ exists m w r, t = m :: w :: r /\ c = dropWhile isWhiteSpace r.
Proof.
  unfold bulletLine. destruct t as [|m [|w r]]; try discriminate.
  intros Ht. destruct (_ && isWhiteSpace w) eqn:E; [|discriminate].
  intros [= <-]. apply andb_true_iff in E. destruct E as [_ Hw].
  split; [|now exists m, w, r].
  apply endsTight_dropWhile.
  apply (endsTight_app [m; w] r Ht).
  intros [x [y [Ex Hx]]]. simpl in Ex. injection Ex as <- _. congruence.
Qed.

Ltac forall_chars :=
  unfold noNewline, markupFree in *;
  repeat first [ apply trim_Forall | apply skipn_Forall | apply dropWhile_Forall ];
  try assumption.

(** The item of a tight line that is a heading, a bullet or a paragraph. *)
Lemma classifyTrimmed_good (t : jstr) :
  tight t = true -> noNewline t = true -> markupFree t = true ->
  match fst (classifyTrimmed t) with
  | text | heading _ | bullet => True
  | numbered | quote => False
  end ->
  goodItem (fst (classifyTrimmed t), trim (snd (classifyTrimmed t))).
Proof.
  intros Ht Hn Hm.
  pose proof (tight_endsTight t Ht) as He.
  pose proof (eq_refl (classifyTrimmed t)) as Hcl.
  unfold classifyTrimmed at 2 in Hcl.
  destruct t as [|a r]; [discriminate Ht|].
  destruct (startsWith "### " (a :: r)) eqn:E3.
  { rewrite Hcl. intros _. cbn [fst snd]. unfold goodItem; cbn [fst snd].
    split; [|split; [|split]]; [|forall_chars|forall_chars|auto].
    apply endsTight_trim_tight.
    apply (heading_content_endsTight "###" (a :: r) He E3). }
  destruct (startsWith "## " (a :: r)) eqn:E2.
  { rewrite Hcl. intros _. cbn [fst snd]. unfold goodItem; cbn [fst snd].
    split; [|split; [|split]]; [|forall_chars|forall_chars|auto].
    apply endsTight_trim_tight.
    apply (heading_content_endsTight "##" (a :: r) He E2). }
  destruct (startsWith "# " (a :: r)) eqn:E1.
  { rewrite Hcl. intros _. cbn [fst snd]. unfold goodItem; cbn [fst snd].
    split; [|split; [|split]]; [|forall_chars|forall_chars|auto].
    apply endsTight_trim_tight.
    apply (heading_content_endsTight "#" (a :: r) He E1). }
  destruct (startsWith "> " (a :: r)) eqn:Eq.
  { rewrite Hcl. intros []. }
  destruct (bulletLine (a :: r)) as [c|] eqn:Eb.
  { rewrite Hcl. intros _. cbn [fst snd].
    destruct (bulletLine_content (a :: r) c He Eb) as [Hc [m [w [r' [Et Ec]]]]].
    rewrite (tight_trim c Hc). unfold goodItem; cbn [fst snd].
    split; [exact Hc|]. injection Et as -> ->. subst c.
    split; [|split; [|exact I]].
    - unfold noNewline in *. apply dropWhile_Forall.
      simpl in Hn. apply andb_true_iff in Hn. destruct Hn as [_ Hn].
      now apply andb_true_iff in Hn.
    - unfold markupFree in *. apply dropWhile_Forall.
      simpl in Hm. apply andb_true_iff in Hm. destruct Hm as [_ Hm].
      now apply andb_true_iff in Hm. }
  destruct (numberedLine (a :: r)) as [c|] eqn:En.
  { rewrite Hcl. intros []. }
  rewrite Hcl. intros _. cbn [fst snd]. rewrite (tight_trim _ Ht).
  unfold goodItem; cbn [fst snd]. auto.
Qed.

Lemma lineItem_blank : lineItem [] = (text, []).
Proof. reflexivity. Qed.

(** Every line of a simple, markup-free markdown text gives a blank item
    or a good one. *)
Lemma lineItem_ok (line : jstr) :
  noNewline line = true -> markupFree (trim line) = true ->
  simpleLine line = true ->
  okItem (lineItem line).
Proof.
  intros Hn Hm Hs. unfold lineItem.
  destruct (trim_tight line) as [E|E].
  - left. rewrite E. reflexivity.
  - right.
    assert (Hn' : noNewline (trim line) = true) by forall_chars.
    pose proof (classifyTrimmed_good (trim line) E Hn' Hm) as G.
    unfold simpleLine in Hs.
    destruct (classifyTrimmed (trim line)) as [ty c]. cbn [fst snd] in *.
    apply G. destruct ty; auto; discriminate.
Qed.

Lemma goodItem_not_blank (it : Item) : goodItem it -> isBlankItem it = false.
Proof.
  destruct it as [ty c]. intros [Ht _]. cbn [snd] in Ht.
  destruct ty; try reflexivity. destruct c; [discriminate Ht|reflexivity].
Qed.

Lemma bulletLine_Forall (q : ascii -> bool) (t c : jstr) :
  forallb q t = true -> bulletLine t = Some c -> forallb q c = true.
Proof.
  unfold bulletLine. destruct t as [|m [|w r]]; try discriminate.
  intros H. destruct (_ && _); [|discriminate]. intros [= <-].
  apply dropWhile_Forall. cbn [forallb] in H.
  apply andb_true_iff in H. destruct H as [_ H].
  now apply andb_true_iff in H.
Qed.

Lemma numberedLine_Forall (q : ascii -> bool) (t c : jstr) :
  forallb q t = true -> numberedLine t = Some c -> forallb q c = true.
Proof.
  unfold numberedLine. intros H.
  pose proof (dropWhile_Forall isDigit q t H) as Hd.
  destruct (takeWhile isDigit t); [discriminate|].
  destruct (dropWhile isDigit t) as [|dot [|w r]]; try discriminate.
  destruct (_ && _); [|discriminate]. intros [= <-].
  apply dropWhile_Forall. cbn [forallb] in Hd.
  apply andb_true_iff in Hd. destruct Hd as [_ Hd].
  now apply andb_true_iff in Hd.
Qed.

Lemma classifyTrimmed_Forall (q : ascii -> bool) (t : jstr) :
  forallb q t = true -> forallb q (snd (classifyTrimmed t)) = true.
Proof.
  intros H. unfold classifyTrimmed. destruct t as [|a r]; [reflexivity|].
  destruct (startsWith "### " (a :: r)); [now apply skipn_Forall|].
  destruct (startsWith "## " (a :: r)); [now apply skipn_Forall|].
  destruct (startsWith "# " (a :: r)); [now apply skipn_Forall|].
  destruct (startsWith "> " (a :: r)); [now apply skipn_Forall|].
  destruct (bulletLine (a :: r)) as [c|] eqn:Eb;
    [exact (bulletLine_Forall q _ c H Eb)|].
  destruct (numberedLine (a :: r)) as [c|] eqn:En;
    [exact (numberedLine_Forall q _ c H En)|exact H].
Qed.

(** What the export writes for the block of such a line. *)
Lemma blockToMarkdown_line (line : jstr) (cs : Counters) :
  noNewline line = true -> markupFree (trim line) = true ->
  simpleLine line = true ->
  blockToMarkdown cs (markdownLineToBlock line) = ([], emitItem (lineItem line)).
Proof.
  intros Hn Hm Hs.
  pose proof (lineItem_ok line Hn Hm Hs) as Hok.
  rewrite markdownLineToBlock_classify.
  assert (Hc : markupFree (snd (classifyTrimmed (trim line))) = true)
    by (apply classifyTrimmed_Forall; exact Hm).
  unfold lineItem in *. unfold simpleLine, lineLevel in *.
  destruct (classifyTrimmed (trim line)) as [ty c] eqn:Ec. cbn [fst snd] in *.
  unfold blockToMarkdown.
  rewrite (blockText_createBlockElement _ _ _ Hc).
  unfold createBlockElement; cbn [btype blevel].
  destruct Hok as [Hb|Hg].
  - destruct ty; try discriminate Hb.
    destruct (trim c); [reflexivity|discriminate Hb].
  - pose proof (goodItem_not_blank _ Hg) as Hnb.
    destruct Hg as [Ht [_ [_ Hty]]]. cbn [fst snd] in *.
    unfold emitItem, itemLine. rewrite Hnb. cbn [fst snd].
    destruct (trim c) as [|x y] eqn:Et; [discriminate Ht|].
    destruct ty as [|n| | |]; try contradiction.
    + reflexivity.
    + destruct Hty as [->|[->| ->]]; cbn [itemBreaks repeat];
        now rewrite <- !app_assoc.
    + apply Nat.eqb_eq in Hs. rewrite Hs. reflexivity.
Qed.

(** *** The line of an item, read again *)

Lemma tight_intro (a : ascii) (r : jstr) :
  isWhiteSpace a = false -> endsTight (a :: r) -> tight (a :: r) = true.
Proof.
  intros Ha [x [y [Ex Hx]]]. unfold tight. rewrite Ha. cbn [negb andb].
  destruct (last_rev_head a a r) as [x' [y' [E1 E2]]].
  rewrite Ex in E1. injection E1 as <- <-. rewrite <- E2. now rewrite Hx.
Qed.

Lemma endsTight_prefix (p c : jstr) : endsTight c -> endsTight (p ++ c).
Proof.
  intros [x [y [E Hx]]]. exists x, (y ++ rev p).
  rewrite rev_app_distr, E. split; [reflexivity|exact Hx].
Qed.

Lemma classifyTrimmed_heading1 (c : jstr) :
  classifyTrimmed ("# " ++ c) = (heading 1, c).
Proof. reflexivity. Qed.

Lemma classifyTrimmed_heading2 (c : jstr) :
  classifyTrimmed ("## " ++ c) = (heading 2, c).
Proof. reflexivity. Qed.

Lemma classifyTrimmed_heading3 (c : jstr) :
  classifyTrimmed ("### " ++ c) = (heading 3, c).
Proof. reflexivity. Qed.

Lemma classifyTrimmed_bullet (c : jstr) :
  classifyTrimmed ("- " ++ c) = (bullet, dropWhile isWhiteSpace c).
Proof. reflexivity. Qed.

Lemma itemLine_tight (it : Item) : goodItem it -> tight (itemLine it) = true.
Proof.
  destruct it as [ty c]. intros [Ht [_ [_ Hty]]]. cbn [fst snd] in *.
  pose proof (tight_endsTight c Ht) as He.
  unfold itemLine; cbn [fst snd].
  destruct ty as [|n| | |]; try contradiction; try exact Ht.
  - destruct Hty as [->|[->| ->]];
      apply tight_intro; try reflexivity;
      [apply (endsTight_prefix "# ")|apply (endsTight_prefix "## ")
       |apply (endsTight_prefix "### ")]; exact He.
  - apply tight_intro; [reflexivity|]. apply (endsTight_prefix "- "), He.
Qed.

Lemma itemLine_chars (q : ascii -> bool) (it : Item) :
  forallb q "# -" = true -> goodItem it -> forallb q (snd it) = true ->
  forallb q (itemLine it) = true.
Proof.
  destruct it as [ty c]. intros Hq [_ [_ [_ Hty]]] Hc. cbn [fst snd] in *.
  cbn [forallb] in Hq. rewrite andb_true_r in Hq.
  apply andb_true_iff in Hq. destruct Hq as [Hh Hq].
  apply andb_true_iff in Hq. destruct Hq as [Hsp Hd].
  unfold itemLine; cbn [fst snd].
  destruct ty as [|n| | |]; try contradiction; try exact Hc.
  - destruct Hty as [->|[->| ->]]; rewrite forallb_app, Hc; cbn [forallb];
      now rewrite ?Hh, ?Hsp.
  - rewrite forallb_app, Hc; cbn [forallb]. now rewrite Hd, Hsp.
Qed.

Lemma itemLine_noNewline (it : Item) : goodItem it -> noNewline (itemLine it) = true.
Proof.
  intros H. apply itemLine_chars; [reflexivity|exact H|apply H].
Qed.

Lemma itemLine_markupFree (it : Item) : goodItem it -> markupFree (itemLine it) = true.
Proof.
  intros H. apply itemLine_chars; [reflexivity|exact H|apply H].
Qed.

Lemma tight_dropWhile (c : jstr) : tight c = true -> dropWhile isWhiteSpace c = c.
Proof. apply tight_trimStart. Qed.

(** Reading the line of an item gives the item back, and the line is a
    simple one. *)
Lemma lineItem_itemLine (it : Item) :
  goodItem it -> lineItem (itemLine it) = it /\ simpleLine (itemLine it) = true.
Proof.
  intros Hg. pose proof (itemLine_tight it Hg) as Hl.
  unfold lineItem, simpleLine, lineLevel. rewrite (tight_trim _ Hl).
  destruct it as [ty c]. destruct Hg as [Ht [_ [_ Hty]]]. cbn [fst snd] in *.
  unfold itemLine; cbn [fst snd].
  destruct ty as [|n| | |]; try contradiction.
  - rewrite Hty. cbn [fst]. now rewrite (tight_trim _ Ht).
  - destruct Hty as [->|[->| ->]];
      rewrite ?classifyTrimmed_heading1, ?classifyTrimmed_heading2,
              ?classifyTrimmed_heading3; cbn [fst];
      now rewrite (tight_trim _ Ht).
  - rewrite classifyTrimmed_bullet, (tight_dropWhile _ Ht). cbn [fst].
    rewrite (tight_trim _ Ht). split; reflexivity.
Qed.

(** *** Lines and line breaks *)

Lemma split_Forall (q : ascii -> bool) (sep : ascii) (s : jstr) :
  forallb q s = true -> Forall (fun l => forallb q l = true) (split sep s).
Proof.
  induction s as [|c r IH]; simpl; intros H.
  - constructor; [reflexivity|constructor].
  - apply andb_true_iff in H. destruct H as [Hc Hr]. specialize (IH Hr).
    destruct (Ascii.eqb c sep).
    + constructor; [reflexivity|exact IH].
    + destruct (split sep r) as [|l ls]; constructor;
        try (simpl; rewrite Hc; simpl); try constructor.
      * now inversion IH.
      * now inversion IH.
Qed.

Lemma split_noNewline (s : jstr) :
  Forall (fun l => noNewline l = true) (split newline s).
Proof.
  unfold noNewline. induction s as [|c r IH]; simpl.
  - constructor; [reflexivity|constructor].
  - destruct (Ascii.eqb c newline) eqn:E.
    + constructor; [reflexivity|exact IH].
    + destruct (split newline r) as [|l ls]; constructor;
        try (simpl; rewrite E; simpl); try constructor.
      * now inversion IH.
      * now inversion IH.
Qed.

Lemma split_line_break (s x : jstr) :
  noNewline s = true -> split newline (s ++ newline :: x) = s :: split newline x.
Proof.
  unfold noNewline. induction s as [|c r IH]; simpl; intros H.
  - reflexivity.
  - apply andb_true_iff in H. destruct H as [Hc Hr].
    apply negb_true_iff in Hc. rewrite Hc, (IH Hr). reflexivity.
Qed.

Lemma split_single (s : jstr) : noNewline s = true -> split newline s = [s].
Proof.
  unfold noNewline. induction s as [|c r IH]; simpl; intros H; [reflexivity|].
  apply andb_true_iff in H. destruct H as [Hc Hr].
  apply negb_true_iff in Hc. rewrite Hc, (IH Hr). reflexivity.
Qed.

Lemma split_breaks (n : nat) (x : jstr) :
  split newline (repeat newline n ++ x) = repeat [] n ++ split newline x.
Proof.
  induction n as [|n IH]; [reflexivity|]. simpl. now rewrite IH.
Qed.

Lemma collapse_breaks (n r : nat) (x : jstr) :
  r <= 2 ->
  collapseNewlinesFrom r (repeat newline n ++ x)
  = repeat newline (Nat.min n (2 - r)) ++ collapseNewlinesFrom (Nat.min (r + n) 2) x.
Proof.
  revert r; induction n as [|n IH]; intros r Hr.
  - simpl. now rewrite Nat.add_0_r, Nat.min_l.
  - cbn [repeat app collapseNewlinesFrom].
    replace (Ascii.eqb newline newline) with true by reflexivity.
    destruct (Nat.ltb_spec r 2) as [Hlt|Hge].
    + rewrite (IH (S r)) by lia.
      replace (Nat.min (S n) (2 - r)) with (S (Nat.min n (2 - S r))) by lia.
      simpl. do 3 f_equal. lia.
    + rewrite (IH r) by lia.
      replace (Nat.min (S n) (2 - r)) with 0 by lia.
      replace (Nat.min n (2 - r)) with 0 by lia.
      simpl. f_equal. lia.
Qed.

Lemma collapse_line (s x : jstr) (r : nat) :
  s <> [] -> noNewline s = true ->
  collapseNewlinesFrom r (s ++ x) = s ++ collapseNewlinesFrom 0 x.
Proof.
  unfold noNewline. revert r; induction s as [|c s IH]; intros r Hne H;
    [contradiction|].
  simpl in H. apply andb_true_iff in H. destruct H as [Hc Hs].
  apply negb_true_iff in Hc. simpl. rewrite Hc. f_equal.
  destruct s as [|c' s']; [reflexivity|]. apply IH; [discriminate|exact Hs].
Qed.

Lemma tight_nonempty (s : jstr) : tight s = true -> s <> [].
Proof. destruct s; [discriminate|discriminate]. Qed.

Lemma collapse_segs (l : list Seg) (r : nat) :
  r <= 2 -> Forall (fun sg => goodItem (fst sg)) l ->
  collapseNewlinesFrom r (concat (map flatSeg l))
  = concat (map flatSeg (map capSeg l)).
Proof.
  intros Hr H; revert r Hr. induction H as [|sg l Hg Hl IH]; intros r Hr.
  - reflexivity.
  - cbn [map concat]. unfold flatSeg at 1 3. cbn [capSeg fst snd].
    rewrite <- !app_assoc.
    rewrite collapse_line
      by (auto using tight_nonempty, itemLine_tight, itemLine_noNewline).
    rewrite collapse_breaks by lia. rewrite Nat.sub_0_r. cbn [Nat.add].
    now rewrite IH by lia.
Qed.

Lemma isWhiteSpace_newline : isWhiteSpace newline = true.
Proof. reflexivity. Qed.

Lemma rev_repeat_char (c : ascii) (n : nat) : rev (repeat c n) = repeat c n.
Proof.
  induction n as [|n IH]; [reflexivity|]. simpl. rewrite IH.
  clear IH. induction n as [|n IH]; [reflexivity|]. simpl. now rewrite IH.
Qed.

Lemma trimEnd_line (s : jstr) (n : nat) :
  tight s = true -> trimEnd (s ++ repeat newline n) = s.
Proof.
  intros H. destruct (tight_cases s H) as [_ [_ [_ [_ [x [y [E Hx]]]]]]].
  unfold trimEnd. rewrite rev_app_distr, rev_repeat_char.
  rewrite dropWhile_repeat by apply isWhiteSpace_newline.
  rewrite E, dropWhile_id by exact Hx. rewrite <- E. apply rev_involutive.
Qed.

Lemma trimEnd_app (a b : jstr) :
  trimEnd b <> [] -> trimEnd (a ++ b) = a ++ trimEnd b.
Proof.
  unfold trimEnd. intros H. rewrite rev_app_distr.
  rewrite dropWhile_app_nonempty.
  - now rewrite rev_app_distr, rev_involutive.
  - intros E. rewrite E in H. now apply H.
Qed.

Lemma joinSegs_nonempty (sg : Seg) (l : list Seg) :
  goodItem (fst sg) -> joinSegs (sg :: l) <> [].
Proof.
  intros Hg E. pose proof (tight_nonempty _ (itemLine_tight _ Hg)) as Hne.
  cbn [joinSegs] in E. destruct l.
  - contradiction.
  - unfold flatSeg in E. destruct (itemLine (fst sg)); [contradiction|discriminate].
Qed.

Lemma trimEnd_segs (l : list Seg) :
  Forall (fun sg => goodItem (fst sg)) l ->
  trimEnd (concat (map flatSeg l)) = joinSegs l.
Proof.
  induction 1 as [|sg l Hg Hl IH]; [reflexivity|].
  cbn [map concat joinSegs]. destruct l as [|sg' l'].
  - cbn [map concat]. rewrite app_nil_r. unfold flatSeg.
    apply trimEnd_line, itemLine_tight, Hg.
  - rewrite trimEnd_app; rewrite IH; [reflexivity|].
    apply joinSegs_nonempty. now inversion Hl.
Qed.

(** The export, trimmed: the segments joined. *)
Lemma trim_flatSegs (k : nat) (l : list Seg) :
  Forall (fun sg => goodItem (fst sg)) l -> trim (flatSegs k l) = joinSegs l.
Proof.
  intros H. unfold trim, flatSegs, trimStart.
  rewrite dropWhile_repeat by apply isWhiteSpace_newline.
  destruct H as [|sg l Hg Hl]; [reflexivity|].
  assert (Hs : dropWhile isWhiteSpace (concat (map flatSeg (sg :: l)))
               = concat (map flatSeg (sg :: l))).
  { cbn [map concat]. unfold flatSeg at 1 3.
    destruct (tight_cases _ (itemLine_tight _ Hg)) as [c [r [E [Hc _]]]].
    rewrite E. cbn [app]. now apply dropWhile_id. }
  rewrite Hs. apply trimEnd_segs. now constructor.
Qed.

(** *** From items to segments and back *)

Lemma emitItems_flatSegs (items : list Item) :
  concat (map emitItem items)
  = flatSegs (fst (toSegs items)) (snd (toSegs items)).
Proof.
  induction items as [|it r IH]; [reflexivity|].
  cbn [map concat toSegs]. rewrite IH. unfold emitItem.
  destruct (toSegs r) as [k l]. cbn [fst snd].
  destruct (isBlankItem it); cbn [fst snd]; unfold flatSegs.
  - reflexivity.
  - cbn [repeat app map concat]. unfold flatSeg. cbn [fst snd].
    rewrite repeat_app, <- !app_assoc. reflexivity.
Qed.

Lemma toSegs_good (items : list Item) :
  Forall okItem items ->
  Forall (fun sg => goodItem (fst sg) /\ itemBreaks (fst (fst sg)) <= snd sg)
    (snd (toSegs items)).
Proof.
  induction 1 as [|it r Hok Hr IH]; [constructor|].
  cbn [toSegs]. destruct (toSegs r) as [k l]. cbn [snd] in *.
  destruct (isBlankItem it) eqn:E; cbn [snd]; [exact IH|].
  constructor; [|exact IH]. cbn [fst snd]. split; [|lia].
  destruct Hok as [Hb|Hg]; [congruence|exact Hg].
Qed.

Lemma itemBreaks_bounds (t : BlockType) : 1 <= itemBreaks t <= 2.
Proof. destruct t; simpl; lia. Qed.

Lemma capped_valid (l : list Seg) :
  Forall (fun sg => goodItem (fst sg) /\ itemBreaks (fst (fst sg)) <= snd sg) l ->
  Forall validSeg (map capSeg l).
Proof.
  induction 1 as [|sg l [Hg Hb] Hl IH]; [constructor|].
  cbn [map]. constructor; [|exact IH].
  unfold validSeg, capSeg; cbn [fst snd]. split; [exact Hg|].
  pose proof (itemBreaks_bounds (fst (fst sg))). lia.
Qed.

Lemma validSeg_good (l : list Seg) :
  Forall validSeg l -> Forall (fun sg => goodItem (fst sg)) l.
Proof. apply Forall_impl. now intros sg [H _]. Qed.

Lemma toSegs_items (items : list Item) :
  map fst (snd (toSegs items))
  = filter (fun it => negb (isBlankItem it)) items.
Proof.
  induction items as [|it r IH]; [reflexivity|].
  cbn [toSegs filter]. destruct (toSegs r) as [k l]. cbn [snd] in IH.
  destruct (isBlankItem it); cbn [negb snd map fst]; now rewrite IH.
Qed.

Lemma map_fst_capSeg (l : list Seg) : map fst (map capSeg l) = map fst l.
Proof. rewrite map_map. apply map_ext. now intros [it n]. Qed.

Lemma split_joinSegs (l : list Seg) :
  Forall validSeg l -> split newline (joinSegs l) = segLines l.
Proof.
  induction 1 as [|sg l [Hg Hb] Hl IH]; [reflexivity|].
  cbn [joinSegs segLines]. destruct l as [|sg' l'].
  - apply split_single, itemLine_noNewline, Hg.
  - unfold flatSeg. pose proof (itemBreaks_bounds (fst (fst sg))) as Hi.
    destruct (snd sg) as [|m] eqn:En; [lia|].
    cbn [repeat]. rewrite <- app_assoc. cbn [app].
    rewrite split_line_break by (apply itemLine_noNewline, Hg).
    rewrite split_breaks, IH. replace (S m - 1) with m by lia. reflexivity.
Qed.

Lemma segLines_cons2 (sg sg' : Seg) (l : list Seg) :
  segLines (sg :: sg' :: l)
  = itemLine (fst sg) :: repeat [] (snd sg - 1) ++ segLines (sg' :: l).
Proof. reflexivity. Qed.

Lemma segItems_cons2 (sg sg' : Seg) (l : list Seg) :
  segItems (sg :: sg' :: l)
  = fst sg :: repeat (text, []) (snd sg - 1) ++ segItems (sg' :: l).
Proof. reflexivity. Qed.

Lemma segLines_items (l : list Seg) :
  Forall validSeg l -> map lineItem (segLines l) = segItems l.
Proof.
  induction 1 as [|sg l [Hg Hb] Hl IH]; [reflexivity|].
  destruct l as [|sg' l'].
  - cbn [segLines segItems map]. now rewrite (proj1 (lineItem_itemLine _ Hg)).
  - rewrite segLines_cons2, segItems_cons2. cbn [map].
    rewrite (proj1 (lineItem_itemLine _ Hg)), map_app, map_repeat.
    f_equal. f_equal. exact IH.
Qed.

Lemma lineOK_blank : lineOK [].
Proof. repeat split. Qed.

Lemma segLines_ok (l : list Seg) : Forall validSeg l -> Forall lineOK (segLines l).
Proof.
  induction 1 as [|sg l [Hg Hb] Hl IH].
  - constructor; [exact lineOK_blank|constructor].
  - assert (Hline : lineOK (itemLine (fst sg))).
    { split; [apply itemLine_noNewline, Hg|].
      split; [|apply lineItem_itemLine, Hg].
      rewrite (tight_trim _ (itemLine_tight _ Hg)).
      apply itemLine_markupFree, Hg. }
    destruct l as [|sg' l'].
    + constructor; [exact Hline|constructor].
    + rewrite segLines_cons2.
      constructor; [exact Hline|]. apply Forall_app. split; [|exact IH].
      apply Forall_forall. intros x Hx. apply repeat_spec in Hx. subst x.
      exact lineOK_blank.
Qed.

Lemma segItems_content (l : list Seg) :
  Forall validSeg l ->
  filter (fun it => negb (isBlankItem it)) (segItems l) = map fst l.
Proof.
  induction 1 as [|sg l [Hg Hb] Hl IH]; [reflexivity|].
  pose proof (goodItem_not_blank _ Hg) as Hnb.
  destruct l as [|sg' l'].
  - cbn [segItems filter map]. now rewrite Hnb.
  - rewrite segItems_cons2. cbn [filter]. rewrite Hnb. cbn [negb map]. f_equal.
    rewrite filter_app.
    assert (E : forall n, filter (fun it : Item => negb (isBlankItem it))
                            (repeat (text, []) n) = [])
      by (induction n; auto).
    etransitivity; [apply (f_equal (fun x => x ++ _)), E|exact IH].
Qed.

Lemma toSegs_blanks (m : nat) (items : list Item) :
  toSegs (repeat (text, []) m ++ items)
  = (m + fst (toSegs items), snd (toSegs items)).
Proof.
  induction m as [|m IH]; [simpl; now destruct (toSegs items)|].
  cbn [repeat app toSegs]. rewrite IH. reflexivity.
Qed.

Lemma toSegs_cons_good (it : Item) (items : list Item) :
  goodItem it ->
  toSegs (it :: items)
  = (0, (it, itemBreaks (fst it) + fst (toSegs items)) :: snd (toSegs items)).
Proof.
  intros Hg. cbn [toSegs]. rewrite (goodItem_not_blank _ Hg).
  now destruct (toSegs items).
Qed.

Lemma toSegs_segItems_head (sg : Seg) (l : list Seg) :
  goodItem (fst sg) ->
  fst (toSegs (segItems (sg :: l))) = 0 /\ snd (toSegs (segItems (sg :: l))) <> [].
Proof.
  intros Hg. cbn [segItems].
  destruct l; rewrite toSegs_cons_good by exact Hg; split;
    try reflexivity; discriminate.
Qed.

(** Exporting what was read from an export gives the same text. *)
Lemma joinSegs_fixed (l : list Seg) :
  Forall validSeg l ->
  joinSegs (map capSeg (snd (toSegs (segItems l)))) = joinSegs l.
Proof.
  induction 1 as [|sg l [Hg Hb] Hl IH]; [reflexivity|].
  destruct l as [|sg' l'].
  - cbn [segItems]. rewrite toSegs_cons_good by exact Hg. reflexivity.
  - assert (Hg' : goodItem (fst sg')) by (inversion Hl as [|? ? [H' _] _]; exact H').
    destruct (toSegs_segItems_head sg' l' Hg') as [Hk Hne].
    change (segItems (sg :: sg' :: l'))
      with (fst sg :: repeat (text, []) (snd sg - 1) ++ segItems (sg' :: l')).
    rewrite toSegs_cons_good by exact Hg. rewrite toSegs_blanks, Hk.
    cbn [fst snd map]. cbn [joinSegs].
    destruct (map capSeg (snd (toSegs (segItems (sg' :: l'))))) as [|c1 cl] eqn:Em.
    { exfalso. apply Hne. now destruct (snd (toSegs (segItems (sg' :: l')))). }
    rewrite IH. unfold flatSeg, capSeg. cbn [fst snd].
    pose proof (itemBreaks_bounds (fst (fst sg))) as Hi.
    replace (Nat.min (itemBreaks (fst (fst sg)) + (snd sg - 1 + 0)) 2)
      with (snd sg) by lia.
    reflexivity.
Qed.

(** *** Import and export *)

Lemma blocksToMarkdownFrom_lines (lines : list jstr) (cs : Counters) :
  Forall lineOK lines ->
  blocksToMarkdownFrom cs (map markdownLineToBlock lines)
  = concat (map emitItem (map lineItem lines)).
Proof.
  intros H; revert cs. induction H as [|line r [Hn [Hm Hs]] Hr IH]; intros cs.
  - reflexivity.
  - cbn [map blocksToMarkdownFrom concat].
    rewrite (blockToMarkdown_line line cs Hn Hm Hs). now rewrite IH.
Qed.

Lemma lines_okItems (lines : list jstr) :
  Forall lineOK lines -> Forall okItem (map lineItem lines).
Proof.
  induction 1 as [|line r [Hn [Hm Hs]] Hr IH]; [constructor|].
  cbn [map]. constructor; [now apply lineItem_ok|exact IH].
Qed.

(** The round trip of a text with good lines, as joined segments. *)
Lemma roundTrip_segments (markdown : jstr) :
  Forall lineOK (split newline markdown) ->
  roundTrip markdown
  = joinSegs (map capSeg (snd (toSegs (map lineItem (split newline markdown)))))
  /\ Forall validSeg
       (map capSeg (snd (toSegs (map lineItem (split newline markdown))))).
Proof.
  intros H.
  pose proof (capped_valid _ (toSegs_good _ (lines_okItems _ H))) as Hv.
  split; [|exact Hv].
  unfold roundTrip, htmlToMarkdown, markdownToBlocks.
  rewrite (blocksToMarkdownFrom_lines _ [] H), emitItems_flatSegs.
  unfold collapseNewlines, flatSegs.
  rewrite collapse_breaks by lia. rewrite Nat.sub_0_r. cbn [Nat.add].
  pose proof (toSegs_good _ (lines_okItems _ H)) as Hgood.
  rewrite collapse_segs.
  - apply (trim_flatSegs _ _ (validSeg_good _ Hv)).
  - lia.
  - revert Hgood. apply Forall_impl. now intros sg [Hg _].
Qed.

Lemma simple_lines_ok (markdown : jstr) :
  simpleMarkdown markdown = true -> plainMarkdown markdown = true ->
  Forall lineOK (split newline markdown).
Proof.
  intros Hs Hm. unfold simpleMarkdown in Hs. unfold plainMarkdown in Hm.
  pose proof (split_noNewline markdown) as Hn.
  rewrite forallb_forall in Hs, Hm.
  rewrite Forall_forall in *. intros line Hin.
  split; [apply Hn, Hin|]. split; [apply Hm, Hin|apply Hs, Hin].
Qed.

(** C8 as stated fails on a paragraph with a less-than sign: the text is
    handed to [innerHTML] unescaped, so "a<b" is imported as a block whose
    text is "a", and the export writes "a". *)
Lemma C8_less_than_sign_counterexample :
  simpleMarkdown "a<b" = true
  /\ roundTrip "a<b" = "a"
  /\ contentLines "a<b" = [(text, "a<b")]
  /\ contentLines (roundTrip "a<b") = [(text, "a")]
  /\ contentLines (roundTrip "a<b") <> contentLines "a<b".
Proof.
  repeat split. vm_compute. discriminate.
Qed.

(** C8, amended.  For markdown made of blank lines, heading lines,
    bullet lines at level 0 and paragraph lines, whose trimmed lines hold
    neither ['<'] nor ['&'] (nor a carriage return or NUL): what import
    followed by export gives is a fixed point of import followed by
    export; its lines that are not blank are, in order, those of the
    original, each with the same classification and the same content up
    to the white space around it; and it is again markdown of that
    kind. *)
Theorem C8_markdown_round_trip (markdown : jstr) :
  simpleMarkdown markdown = true -> plainMarkdown markdown = true ->
  roundTrip (roundTrip markdown) = roundTrip markdown
  /\ contentLines (roundTrip markdown) = contentLines markdown
  /\ simpleMarkdown (roundTrip markdown) = true
  /\ plainMarkdown (roundTrip markdown) = true.
Proof.
  intros Hs Hm.
  pose proof (simple_lines_ok markdown Hs Hm) as Hok.
  destruct (roundTrip_segments markdown Hok) as [E Hv].
  set (L := map capSeg (snd (toSegs (map lineItem (split newline markdown))))) in *.
  assert (Hlines : split newline (roundTrip markdown) = segLines L)
    by (rewrite E; apply split_joinSegs, Hv).
  assert (Hok' : Forall lineOK (split newline (roundTrip markdown)))
    by (rewrite Hlines; apply segLines_ok, Hv).
  split; [|split].
  - destruct (roundTrip_segments (roundTrip markdown) Hok') as [E' _].
    rewrite E', Hlines, (segLines_items L Hv), (joinSegs_fixed L Hv).
    symmetry; exact E.
  - unfold contentLines. rewrite Hlines, (segLines_items L Hv).
    rewrite (segItems_content L Hv). unfold L.
    rewrite map_fst_capSeg. apply toSegs_items.
  - split; [unfold simpleMarkdown|unfold plainMarkdown];
      apply forallb_forall; intros line Hin;
      rewrite Forall_forall in Hok'; apply (Hok' line Hin).
Qed.

(** C8 at a heading ended by a carriage return, three line breaks, a
    starred bullet and a paragraph. *)
Lemma C8_markdown_round_trip_witness :
  simpleMarkdown ("# Title" ++ [carriageReturn; newline; newline; newline]
                  ++ "* one" ++ [newline] ++ "text") = true
  /\ plainMarkdown ("# Title" ++ [carriageReturn; newline; newline; newline]
                    ++ "* one" ++ [newline] ++ "text") = true
  /\ contentLines
       (roundTrip ("# Title" ++ [carriageReturn; newline; newline; newline]
                   ++ "* one" ++ [newline] ++ "text"))
     = contentLines ("# Title" ++ [carriageReturn; newline; newline; newline]
                     ++ "* one" ++ [newline] ++ "text").
Proof.
  split; [reflexivity|]. split; [reflexivity|].
  apply (C8_markdown_round_trip
           ("# Title" ++ [carriageReturn; newline; newline; newline]
            ++ "* one" ++ [newline] ++ "text")); reflexivity.
Defined.

(** ** Moving blocks *)

Lemma tagFrom_app (k : nat) (l1 l2 : list Block) :
  tagFrom k (l1 ++ l2) = tagFrom k l1 ++ tagFrom (k + length l1) l2.
Proof.
  unfold tagFrom. revert k; induction l1 as [|b r IH]; intros k; simpl.
  - now rewrite Nat.add_0_r.
  - f_equal. rewrite IH. now replace (S k + length r) with (k + S (length r)) by lia.
Qed.

Lemma tagFrom_cons (k : nat) (b : Block) (l : list Block) :
  tagFrom k (b :: l) = (k, b) :: tagFrom (S k) l.
Proof. reflexivity. Qed.

Lemma map_fst_tagFrom (k : nat) (l : list Block) :
  map fst (tagFrom k l) = seq k (length l).
Proof.
  unfold tagFrom. revert k; induction l as [|b r IH]; intros k; simpl; auto.
  now rewrite IH.
Qed.

Lemma map_snd_tagFrom (k : nat) (l : list Block) : map snd (tagFrom k l) = l.
Proof.
  unfold tagFrom. revert k; induction l as [|b r IH]; intros k; simpl; auto.
  now rewrite IH.
Qed.

Lemma indexed_tagFrom (bs : list Block) : indexed bs = tagFrom 0 bs.
Proof. reflexivity. Qed.

Lemma NoDup_indexed (bs : list Block) : NoDup (map fst (indexed bs)).
Proof. rewrite indexed_tagFrom, map_fst_tagFrom. apply seq_NoDup. Qed.

Lemma detach_notin (x : nat) (l : list (nat * Block)) :
  ~ In x (map fst l) -> detach x l = l.
Proof.
  induction l as [|p r IH]; simpl; intros H; auto.
  unfold hasId at 1. destruct (Nat.eqb_spec (fst p) x) as [E|E]; simpl.
  - exfalso; auto.
  - f_equal. apply IH. tauto.
Qed.

Lemma detach_app (x : nat) (l1 l2 : list (nat * Block)) :
  detach x (l1 ++ l2) = detach x l1 ++ detach x l2.
Proof. apply filter_app. Qed.

Lemma detach_here (n : nat * Block) (l : list (nat * Block)) :
  detach (fst n) (n :: l) = detach (fst n) l.
Proof. unfold detach; simpl. unfold hasId. now rewrite Nat.eqb_refl. Qed.

Lemma find_hasId_app (n : nat * Block) (l1 l2 : list (nat * Block)) :
  ~ In (fst n) (map fst l1) -> find (hasId (fst n)) (l1 ++ n :: l2) = Some n.
Proof.
  induction l1 as [|p r IH]; simpl; intros H.
  - unfold hasId. now rewrite Nat.eqb_refl.
  - unfold hasId at 1. destruct (Nat.eqb_spec (fst p) (fst n)) as [E|E].
    + exfalso; auto.
    + apply IH. tauto.
Qed.

Lemma insertBeforeRef_app (node r : nat * Block) (l1 l2 : list (nat * Block)) :
  ~ In (fst r) (map fst l1) ->
  insertBeforeRef node (fst r) (l1 ++ r :: l2) = l1 ++ node :: r :: l2.
Proof.
  induction l1 as [|p q IH]; simpl; intros H.
  - unfold hasId. now rewrite Nat.eqb_refl.
  - unfold hasId at 1. destruct (Nat.eqb_spec (fst p) (fst r)) as [E|E].
    + exfalso; auto.
    + f_equal. apply IH. tauto.
Qed.

Lemma insertBeforeRef_perm (node : nat * Block) (ref : nat)
    (l : list (nat * Block)) :
  Permutation (insertBeforeRef node ref l) (node :: l).
Proof.
  induction l as [|p r IH]; simpl; auto.
  destruct (hasId ref p); auto.
  rewrite IH. apply perm_swap.
Qed.

Lemma find_detach_perm (x : nat) (node : nat * Block) (l : list (nat * Block)) :
  NoDup (map fst l) -> find (hasId x) l = Some node ->
  Permutation (node :: detach x l) l.
Proof.
  induction l as [|p r IH]; simpl; intros Hnd Hf; [discriminate|].
  inversion Hnd as [|? ? Hni Hnd']; subst.
  unfold hasId at 1 in Hf. unfold hasId at 1.
  destruct (Nat.eqb_spec (fst p) x) as [E|E]; simpl.
  - injection Hf as <-. rewrite detach_notin; auto. now rewrite <- E.
  - rewrite perm_swap. constructor. now apply IH.
Qed.

Lemma insertBefore_perm (x ref : nat) (l : list (nat * Block)) :
  NoDup (map fst l) -> Permutation (insertBefore x ref l) l.
Proof.
  intros Hnd. unfold insertBefore.
  destruct (x =? ref); auto.
  destruct (find (hasId x) l) as [node|] eqn:E; auto.
  rewrite insertBeforeRef_perm. now apply find_detach_perm.
Qed.

Lemma appendChild_perm (x : nat) (l : list (nat * Block)) :
  NoDup (map fst l) -> Permutation (appendChild x l) l.
Proof.
  intros Hnd. unfold appendChild.
  destruct (find (hasId x) l) as [node|] eqn:E; auto.
  rewrite <- Permutation_cons_append. now apply find_detach_perm.
Qed.

Lemma fold_moves_perm (step : list (nat * Block) -> nat -> list (nat * Block))
    (xs : list nat) (l : list (nat * Block)) :
  (forall l x, NoDup (map fst l) -> Permutation (step l x) l) ->
  NoDup (map fst l) ->
  Permutation (fold_left step xs l) l.
Proof.
  intros Hs. revert l; induction xs as [|x r IH]; intros l Hnd; simpl; auto.
  rewrite IH.
  - now apply Hs.
  - eapply Permutation_NoDup; [|exact Hnd].
    apply Permutation_map, Permutation_sym, Hs, Hnd.
Qed.

Lemma updateNumberedBlocks_bodies (bs : list Block) :
  map blockBody (updateNumberedBlocks bs) = map blockBody bs.
Proof.
  unfold updateNumberedBlocks. generalize (@nil nat) as cs.
  induction bs as [|b r IH]; intros cs; simpl; auto.
  destruct (numberStep cs b) as [cs' lab]; simpl. rewrite IH. f_equal.
  destruct lab; reflexivity.
Qed.

Lemma settleMove_bodies (ed : Editor) (moved : list (nat * Block)) :
  Permutation moved (indexed (blocks ed)) ->
  Permutation (map blockBody (blocks (settleMove ed moved)))
              (map blockBody (blocks ed)).
Proof.
  intros H. unfold settleMove; cbn [blocks].
  rewrite updateNumberedBlocks_bodies.
  apply Permutation_map.
  rewrite <- (map_snd_tagFrom 0 (blocks ed)), <- indexed_tagFrom.
  now apply Permutation_map.
Qed.

(** X1.  None of the four move keys loses or duplicates a block: the
    blocks after the key are the blocks before it in some order, each
    with its type, level and content.  For Alt+Up and Alt+Down, which
    move the elements held in [multiBlockSelection], this is stated
    where each of them is a block of the document.  In typewriter mode
    the keys change nothing, blocks and [multiBlockSelection] alike. *)
Theorem move_keeps_every_block (typewriterMode : bool) (k : MoveKey)
    (ed : Editor) (sel : Selection) :
  ((readsMultiBlockSelection k = true -> heldInDocument ed = true) ->
   Permutation
     (map blockBody (blocks (press (keydownMove typewriterMode k) sel ed)))
     (map blockBody (blocks ed)))
  /\ press (keydownMove true k) sel ed = ed.
Proof.
  split; [intros _|reflexivity].
  unfold press. destruct typewriterMode; [reflexivity|].
  destruct k; cbn [keydownMove];
    [unfold keydownAltArrowUp | unfold keydownAltArrowDown
    | unfold keydownAltShiftArrowUp | unfold keydownAltShiftArrowDown].
  - destruct (moveTargets ed sel) as [ts|]; cbn [afterOutcome]; auto.
    destruct (_ || _); cbn [afterOutcome]; auto.
    apply settleMove_bodies, fold_moves_perm; [|apply NoDup_indexed].
    intros; now apply insertBefore_perm.
  - destruct (moveTargets ed sel) as [ts|]; cbn [afterOutcome]; auto.
    destruct (_ <=? _); cbn [afterOutcome]; auto.
    apply settleMove_bodies, fold_moves_perm; [|apply NoDup_indexed].
    intros; destruct (_ <? _); [now apply insertBefore_perm|now apply appendChild_perm].
  - destruct (getCurrentBlock sel) as [i|]; cbn [afterOutcome]; auto.
    destruct (_ || _); cbn [afterOutcome]; auto.
    apply settleMove_bodies, insertBefore_perm, NoDup_indexed.
  - destruct (getCurrentBlock sel) as [i|]; cbn [afterOutcome]; auto.
    destruct (_ <=? _); cbn [afterOutcome]; auto.
    apply settleMove_bodies, insertBefore_perm, NoDup_indexed.
Qed.

(** X1 at Alt+Down on the document of four blocks, the two in the middle
    held in [multiBlockSelection]. *)
Lemma move_keeps_every_block_witness :
  heldInDocument heldExampleEditor = true
  /\ Permutation
       (map blockBody
          (blocks (press (keydownMove false AltDown) (caretIn 0 [0] 0)
                     heldExampleEditor)))
       (map blockBody (blocks heldExampleEditor)).
Proof.
  split; [reflexivity|].
  apply (proj1 (move_keeps_every_block false AltDown heldExampleEditor
                  (caretIn 0 [0] 0))).
  intros _. reflexivity.
Defined.

Lemma NoDup_ids_mid (n : nat * Block) (a b : list (nat * Block)) :
  NoDup (map fst (a ++ n :: b)) ->
  ~ In (fst n) (map fst a) /\ ~ In (fst n) (map fst b)
  /\ NoDup (map fst (a ++ b)).
Proof.
  rewrite !map_app; cbn [map]. intros H.
  apply NoDup_remove in H as [H1 H2]. rewrite in_app_iff in H2. tauto.
Qed.

Lemma detach_mid (n : nat * Block) (a b : list (nat * Block)) :
  NoDup (map fst (a ++ n :: b)) -> detach (fst n) (a ++ n :: b) = a ++ b.
Proof.
  intros H. apply NoDup_ids_mid in H as (Ha & Hb & _).
  now rewrite detach_app, detach_here, !detach_notin.
Qed.

(** An element moved back, to just before an element that precedes it. *)
Lemma insertBefore_back (n r : nat * Block) (l1 m l2 : list (nat * Block)) :
  NoDup (map fst (l1 ++ r :: m ++ n :: l2)) ->
  insertBefore (fst n) (fst r) (l1 ++ r :: m ++ n :: l2)
  = l1 ++ n :: r :: m ++ l2.
Proof.
  intros H. unfold insertBefore.
  pose proof (NoDup_ids_mid r _ _ H) as (Hr1 & Hr2 & _).
  assert (H' : NoDup (map fst ((l1 ++ r :: m) ++ n :: l2)))
    by now rewrite <- app_assoc.
  pose proof (NoDup_ids_mid n _ _ H') as (Hn1 & _ & _).
  destruct (Nat.eqb_spec (fst n) (fst r)) as [E|E].
  - exfalso. apply Hr2. rewrite map_app, in_app_iff. right. left. auto.
  - change (l1 ++ r :: m ++ n :: l2) with (l1 ++ (r :: m) ++ n :: l2).
    rewrite app_assoc, find_hasId_app by exact Hn1.
    rewrite detach_mid by exact H'.
    rewrite <- app_assoc. cbn [app]. now apply insertBeforeRef_app.
Qed.

(** An element moved forward, to just before an element that follows it. *)
Lemma insertBefore_forward (n t : nat * Block) (l1 m l2 : list (nat * Block)) :
  NoDup (map fst (l1 ++ n :: m ++ t :: l2)) ->
  insertBefore (fst n) (fst t) (l1 ++ n :: m ++ t :: l2)
  = l1 ++ m ++ n :: t :: l2.
Proof.
  intros H. unfold insertBefore.
  pose proof (NoDup_ids_mid n _ _ H) as (Hn1 & Hn2 & Hnd).
  destruct (Nat.eqb_spec (fst n) (fst t)) as [E|E].
  - exfalso. apply Hn2. rewrite map_app, in_app_iff. right. left. auto.
  - rewrite find_hasId_app by exact Hn1.
    rewrite detach_mid by exact H.
    rewrite app_assoc in Hnd. apply NoDup_ids_mid in Hnd as (Ht & _ & _).
    rewrite (app_assoc l1 m (t :: l2)), (app_assoc l1 m (n :: t :: l2)).
    now apply insertBeforeRef_app.
Qed.

Lemma appendChild_last (n : nat * Block) (l1 m : list (nat * Block)) :
  NoDup (map fst (l1 ++ n :: m)) ->
  appendChild (fst n) (l1 ++ n :: m) = l1 ++ m ++ [n].
Proof.
  intros H. unfold appendChild.
  pose proof (NoDup_ids_mid n _ _ H) as (Hn1 & _ & _).
  rewrite find_hasId_app by exact Hn1.
  rewrite detach_mid by exact H. now rewrite app_assoc.
Qed.

Lemma NoDup_ids_perm (l l' : list (nat * Block)) :
  Permutation l' l -> NoDup (map fst l) -> NoDup (map fst l').
Proof.
  intros Hp. apply Permutation_NoDup, Permutation_map, Permutation_sym, Hp.
Qed.

(** The loop of Alt+ArrowUp on a group that follows the target. *)
Lemma fold_insertBefore_group (r : nat * Block) (G A P : list (nat * Block)) :
  NoDup (map fst (A ++ r :: G ++ P)) ->
  fold_left (fun l x => insertBefore x (fst r) l) (map fst G)
    (A ++ r :: G ++ P)
  = A ++ G ++ r :: P.
Proof.
  revert A; induction G as [|g G' IH]; intros A H; [reflexivity|].
  cbn [map fold_left].
  pose proof (insertBefore_back g r A [] (G' ++ P) H) as E.
  cbn [app] in E, H |- *. rewrite E.
  change (A ++ g :: r :: G' ++ P) with (A ++ [g] ++ r :: G' ++ P).
  rewrite app_assoc, IH.
  - now rewrite <- app_assoc.
  - rewrite <- app_assoc. cbn [app]. rewrite <- E.
    eapply NoDup_ids_perm; [|exact H]. now apply insertBefore_perm.
Qed.

(** The loop of Alt+ArrowDown, from the last element of the group to the
    first, each put before the same target or at the end. *)
Lemma fold_insert_reversed (targetPosition : option nat)
    (G M A P : list (nat * Block)) :
  match targetPosition with
  | Some t => exists p P', P = p :: P' /\ fst p = t
  | None => P = []
  end ->
  NoDup (map fst (A ++ G ++ M ++ P)) ->
  fold_left (fun l x => match targetPosition with
                        | Some t => insertBefore x t l
                        | None => appendChild x l
                        end)
    (rev (map fst G)) (A ++ G ++ M ++ P)
  = A ++ M ++ rev G ++ P.
Proof.
  intros HP. revert M; induction G as [|g G' IH] using rev_ind; intros M H.
  - reflexivity.
  - rewrite map_app, rev_app_distr. cbn [map rev app fold_left].
    rewrite rev_app_distr. cbn [rev app].
    assert (E : match targetPosition with
                | Some t => insertBefore (fst g) t (A ++ (G' ++ [g]) ++ M ++ P)
                | None => appendChild (fst g) (A ++ (G' ++ [g]) ++ M ++ P)
                end = A ++ G' ++ (M ++ [g]) ++ P).
    { destruct targetPosition as [t|].
      - destruct HP as (p & P' & -> & <-).
        replace (A ++ (G' ++ [g]) ++ M ++ p :: P')
          with ((A ++ G') ++ g :: M ++ p :: P')
          by now rewrite <- !app_assoc.
        rewrite insertBefore_forward.
        + now rewrite <- !app_assoc.
        + revert H. now rewrite <- !app_assoc.
      - subst P. rewrite !app_nil_r in *.
        replace (A ++ (G' ++ [g]) ++ M) with ((A ++ G') ++ g :: M)
          by now rewrite <- !app_assoc.
        rewrite appendChild_last.
        + now rewrite <- !app_assoc.
        + revert H. now rewrite <- !app_assoc. }
    rewrite E, IH.
    + now rewrite <- !app_assoc.
    + rewrite <- E. eapply NoDup_ids_perm; [|exact H].
      destruct targetPosition; [now apply insertBefore_perm|now apply appendChild_perm].
Qed.

Lemma hd_seq (a k : nat) : k <> 0 -> hd 0 (seq a k) = a.
Proof. destruct k; [contradiction|reflexivity]. Qed.

Lemma last_seq (a k : nat) : k <> 0 -> last (seq a k) 0 = a + k - 1.
Proof.
  intros Hk. destruct k as [|k]; [contradiction|].
  rewrite seq_S, last_last. lia.
Qed.

(** X2.  Alt+ArrowUp on a group of adjacent blocks puts the group before
    the block that preceded it, with the blocks of the group in their
    order, and renumbers. *)
Theorem alt_up_moves_group_in_order (ed : Editor) (sel : Selection)
    (pre grp post : list Block) (p : Block) :
  blocks ed = pre ++ p :: grp ++ post ->
  grp <> [] ->
  moveTargets ed sel = Some (seq (S (length pre)) (length grp)) ->
  blocks (press keydownAltArrowUp sel ed)
  = updateNumberedBlocks (pre ++ grp ++ p :: post).
Proof.
  intros Hb Hg Ht. unfold press, keydownAltArrowUp. rewrite Ht.
  assert (Hk : length grp <> 0) by (destruct grp; [contradiction|discriminate]).
  rewrite hd_seq by exact Hk.
  rewrite Hb at 1. rewrite !length_app; cbn [length]; rewrite length_app.
  cbn [Nat.eqb orb].
  destruct (Nat.leb_spec (length pre + S (length grp + length post)) (S (length pre)));
    [lia|].
  cbn [afterOutcome settleMove blocks]. f_equal.
  rewrite Hb, indexed_tagFrom, tagFrom_app, tagFrom_cons, tagFrom_app.
  cbn [Nat.add Nat.sub]. rewrite Nat.sub_0_r.
  rewrite <- (map_fst_tagFrom (S (length pre)) grp).
  pose proof (fold_insertBefore_group (length pre, p)
                (tagFrom (S (length pre)) grp) (tagFrom 0 pre)
                (tagFrom (S (length pre) + length grp) post)) as E.
  cbn [fst Nat.add] in E. rewrite E.
  - rewrite !map_app; cbn [map snd]. now rewrite !map_snd_tagFrom.
  - change (S (length pre + length grp)) with (S (length pre) + length grp).
    rewrite <- tagFrom_app, <- tagFrom_cons.
    change (length pre) with (0 + length pre) at 1.
    rewrite <- tagFrom_app, map_fst_tagFrom. apply seq_NoDup.
Qed.

Lemma alt_up_moves_group_in_order_witness :
  blocks (press keydownAltArrowUp moveExampleSelection moveExampleEditor)
  = updateNumberedBlocks
      ([] ++ [createBlockElement text "b" 0; createBlockElement text "c" 0]
          ++ createBlockElement text "a" 0 :: [createBlockElement text "d" 0]).
Proof.
  apply alt_up_moves_group_in_order; [reflexivity|discriminate|reflexivity].
Defined.

(** X3.  Alt+ArrowDown on a group of adjacent blocks puts the group after
    the block that followed it, but with the blocks of the group in
    reverse order: the loop inserts them from the last to the first, each
    before the same target. *)
Theorem alt_down_reverses_group (ed : Editor) (sel : Selection)
    (pre grp post : list Block) (nx : Block) :
  blocks ed = pre ++ grp ++ nx :: post ->
  grp <> [] ->
  moveTargets ed sel = Some (seq (length pre) (length grp)) ->
  blocks (press keydownAltArrowDown sel ed)
  = updateNumberedBlocks (pre ++ nx :: rev grp ++ post).
Proof.
  intros Hb Hg Ht. unfold press, keydownAltArrowDown. rewrite Ht.
  assert (Hk : length grp <> 0) by (destruct grp; [contradiction|discriminate]).
  rewrite last_seq by exact Hk.
  assert (Hlen : length (blocks ed)
                 = length pre + (length grp + S (length post)))
    by (rewrite Hb, !length_app; cbn [length]; lia).
  rewrite Hlen.
  destruct (Nat.leb_spec (length pre + (length grp + S (length post)))
              (S (length pre + length grp - 1))); [lia|].
  cbn [afterOutcome settleMove blocks]. f_equal.
  rewrite Hb, indexed_tagFrom, tagFrom_app, tagFrom_app, tagFrom_cons.
  change (seq (length pre) (length grp))
    with (seq (0 + length pre) (length grp)).
  rewrite <- (map_fst_tagFrom (0 + length pre) grp).
  set (A := tagFrom 0 pre). set (G := tagFrom (0 + length pre) grp).
  set (idn := 0 + length pre + length grp).
  set (P := tagFrom (S idn) post).
  assert (Hnd : NoDup (map fst (A ++ G ++ [(idn, nx)] ++ P))).
  { subst A G P idn. cbn [app]. rewrite <- tagFrom_cons, <- !tagFrom_app.
    rewrite map_fst_tagFrom. apply seq_NoDup. }
  pose proof (fold_insert_reversed
                (if S (S (length pre + length grp - 1))
                      <? length pre + (length grp + S (length post))
                 then Some (S (S (length pre + length grp - 1))) else None)
                G [(idn, nx)] A P) as E.
  cbn [app] in E, Hnd. rewrite E; [|clear E|exact Hnd].
  - subst A G P. rewrite !map_app; cbn [map snd]. rewrite map_app, map_rev.
    now rewrite !map_snd_tagFrom.
  - subst P idn. destruct post as [|q post'].
    + cbn [length]. destruct (Nat.ltb_spec (S (S (length pre + length grp - 1)))
                                (length pre + (length grp + 1))); [lia|reflexivity].
    + cbn [length]. destruct (Nat.ltb_spec (S (S (length pre + length grp - 1)))
                                (length pre + (length grp + S (S (length post')))));
        [|lia].
      rewrite tagFrom_cons. eexists _, _; split; [reflexivity|]. cbn [fst]. lia.
Qed.

Lemma alt_down_reverses_group_witness :
  blocks (press keydownAltArrowDown moveExampleSelection moveExampleEditor)
  = updateNumberedBlocks
      ([createBlockElement text "a" 0] ++ createBlockElement text "d" 0
         :: rev [createBlockElement text "b" 0; createBlockElement text "c" 0]
         ++ []).
Proof.
  apply alt_down_reverses_group; [reflexivity|discriminate|reflexivity].
Defined.

Lemma positionOf_app (n : nat * Block) (A r : list (nat * Block)) :
  ~ In (fst n) (map fst A) -> positionOf (fst n) (A ++ n :: r) = Some (length A).
Proof.
  induction A as [|a A' IH]; simpl; intros H.
  - unfold hasId. now rewrite Nat.eqb_refl.
  - unfold hasId at 1. destruct (Nat.eqb_spec (fst a) (fst n)) as [E|E].
    + exfalso; auto.
    + rewrite IH by tauto. reflexivity.
Qed.

Lemma setNumberMarker_overwrite (s s' : jstr) (ms : list Marker) :
  setNumberMarker s (setNumberMarker s' ms) = setNumberMarker s ms.
Proof.
  induction ms as [|m r IH]; simpl; auto.
  destruct (mclass m) eqn:E; simpl; [rewrite E, IH|]; reflexivity.
Qed.

Lemma relabelled_shape (b' b : Block) :
  relabelled b' b -> blockShape b' = blockShape b.
Proof. intros [->|(_ & s & ->)]; reflexivity. Qed.

Lemma relabelled_update (cs : list nat) (l : list Block) :
  Forall2 relabelled (updateNumberedFrom cs l) l.
Proof.
  revert cs; induction l as [|b r IH]; intros cs; simpl; [constructor|].
  destruct (numberStep cs b) as [cs' lab] eqn:E. constructor; [|apply IH].
  unfold numberStep in E. destruct (btype b) eqn:Et;
    try (injection E as <- <-; now left).
  injection E as <- <-. right. split; [exact Et|]. eexists; reflexivity.
Qed.

(** The pass reads no label: it gives the same on blocks that differ in
    the labels of their numbered blocks only. *)
Lemma updateNumberedFrom_relabelled (cs : list nat) (l' l : list Block) :
  Forall2 relabelled l' l ->
  updateNumberedFrom cs l' = updateNumberedFrom cs l.
Proof.
  intros H; revert cs; induction H as [|b' b r' r Hb Hr IH]; intros cs;
    [reflexivity|].
  cbn [updateNumberedFrom].
  rewrite (numberStep_shape cs b' b (relabelled_shape _ _ Hb)).
  destruct (numberStep cs b) as [cs' lab] eqn:E. rewrite IH. f_equal.
  destruct Hb as [->|(Ht & s & ->)]; [reflexivity|].
  unfold numberStep in E. rewrite Ht in E. injection E as <- <-.
  unfold relabel; cbn [btype blevel markers content].
  now rewrite setNumberMarker_overwrite.
Qed.

(** X4.  Alt+Shift+ArrowUp moves the block of the caret one place up and
    takes the focus along; Alt+Shift+ArrowDown there puts every block
    back where it was, numbered as the pass numbers them. *)
Theorem alt_shift_up_then_down_restores (ed : Editor) (i : nat)
    (path path' : list nat) (offset offset' : nat) :
  0 < i < length (blocks ed) ->
  exists ed1,
    keydownAltShiftArrowUp ed (caretIn i path offset)
    = Handled ed1 (Some (mkFocus (i - 1) false))
    /\ blocks (press keydownAltShiftArrowDown (caretIn (i - 1) path' offset') ed1)
       = updateNumberedBlocks (blocks ed).
Proof.
  intros [Hi Hlen].
  destruct i as [|j]; [lia|]. cbn [Nat.sub]. rewrite Nat.sub_0_r.
  assert (Hsplit : exists pre p c post,
             blocks ed = pre ++ p :: c :: post /\ length pre = j).
  { exists (firstn j (blocks ed)).
    destruct (skipn j (blocks ed)) as [|p [|c post]] eqn:E.
    - apply (f_equal (@length _)) in E. rewrite length_skipn in E. simpl in E. lia.
    - apply (f_equal (@length _)) in E. rewrite length_skipn in E. simpl in E. lia.
    - exists p, c, post. split.
      + rewrite <- E. symmetry. apply firstn_skipn.
      + rewrite length_firstn. lia. }
  destruct Hsplit as (pre & p & c & post & Hb & Hpre).
  assert (Hnd : forall pre p c post,
             NoDup (map fst (tagFrom 0 pre ++ (length pre, p)
                               :: [] ++ (S (length pre), c)
                               :: tagFrom (S (S (length pre))) post))).
  { intros pre0 p0 c0 post0. cbn [app].
    rewrite <- !tagFrom_cons.
    change (length pre0) with (0 + length pre0) at 1.
    rewrite <- tagFrom_app, map_fst_tagFrom. apply seq_NoDup. }
  assert (Hswap : forall pre p c post,
             insertBefore (S (length pre)) (length pre)
               (indexed (pre ++ p :: c :: post))
             = tagFrom 0 pre ++ (S (length pre), c) :: (length pre, p)
                 :: tagFrom (S (S (length pre))) post).
  { intros pre0 p0 c0 post0.
    rewrite indexed_tagFrom, tagFrom_app, !tagFrom_cons. cbn [Nat.add].
    apply (insertBefore_back (S (length pre0), c0) (length pre0, p0)
             (tagFrom 0 pre0) [] (tagFrom (S (S (length pre0))) post0)).
    apply Hnd. }
  assert (Hpos : forall pre p c post,
             positionOf (S (length pre))
               (tagFrom 0 pre ++ (S (length pre), c) :: (length pre, p)
                  :: tagFrom (S (S (length pre))) post)
             = Some (length pre)).
  { intros pre0 p0 c0 post0.
    assert (Hl : length (tagFrom 0 pre0) = length pre0)
      by (rewrite <- (length_map fst), map_fst_tagFrom; apply length_seq).
    transitivity (Some (length (tagFrom 0 pre0))); [|now rewrite Hl].
    apply (positionOf_app (S (length pre0), c0)).
    rewrite map_fst_tagFrom, in_seq. cbn [fst]. lia. }
  exists (settleMove ed
            (tagFrom 0 pre ++ (S (length pre), c) :: (length pre, p)
               :: tagFrom (S (S (length pre))) post)).
  split.
  - unfold keydownAltShiftArrowUp.
    change (getCurrentBlock (caretIn (S j) path offset)) with (Some (S j)).
    cbn [Nat.eqb orb]. destruct (Nat.leb_spec (length (blocks ed)) (S j)); [lia|].
    cbn [Nat.sub]. rewrite Nat.sub_0_r.
    rewrite Hb, <- Hpre, Hswap.
    unfold focusMoved. rewrite Hpos. cbn [option_map]. reflexivity.
  - unfold press, keydownAltShiftArrowDown.
    change (getCurrentBlock (caretIn j path' offset')) with (Some j).
    cbn [settleMove blocks]. rewrite updateNumberedBlocks_length, length_map.
    assert (Hl : length (tagFrom 0 pre ++ (S (length pre), c) :: (length pre, p)
                           :: tagFrom (S (S (length pre))) post)
                 = length (blocks ed)).
    { rewrite <- (length_map snd), !map_app; cbn [map snd].
      rewrite !map_snd_tagFrom, Hb, !length_app. reflexivity. }
    rewrite Hl. destruct (Nat.leb_spec (length (blocks ed)) (S j)); [lia|].
    cbn [afterOutcome settleMove blocks].
    rewrite !map_app; cbn [map snd]. rewrite !map_snd_tagFrom.
    pose proof (relabelled_update [] (pre ++ c :: p :: post)) as HR.
    fold (updateNumberedBlocks (pre ++ c :: p :: post)) in HR.
    apply Forall2_app_inv_r in HR as (pre' & rest & Hpre' & Hrest & E).
    inversion Hrest as [|c' ? rest1 ? Hc Hrest1]; subst.
    inversion Hrest1 as [|p' ? post' ? Hp Hpost]; subst.
    rewrite E.
    assert (Hlp : length pre' = length pre) by (eapply Forall2_length; eauto).
    rewrite <- Hlp, Hswap.
    rewrite !map_app; cbn [map snd]. rewrite !map_snd_tagFrom.
    unfold updateNumberedBlocks. rewrite Hb.
    apply updateNumberedFrom_relabelled.
    apply Forall2_app; [exact Hpre'|].
    constructor; [exact Hp|constructor; [exact Hc|exact Hpost]].
Qed.

Lemma alt_shift_up_then_down_restores_witness :
  exists ed1,
    keydownAltShiftArrowUp moveExampleEditor (caretIn 2 [0] 0)
    = Handled ed1 (Some (mkFocus (2 - 1) false))
    /\ blocks (press keydownAltShiftArrowDown (caretIn (2 - 1) [0] 0) ed1)
       = updateNumberedBlocks (blocks moveExampleEditor).
Proof.
  apply alt_shift_up_then_down_restores. simpl. lia.
Defined.

(** ** Invariants of the handlers *)

Lemma Node_nested_ind (P : Node -> Prop) :
  (forall d, P (Text d)) -> P Br ->
  (forall t ks, Forall P ks -> P (Elem t ks)) ->
  forall n, P n.
Proof.
  intros Ht Hb He. fix IH 1. intros [d| |t ks]; [apply Ht|exact Hb|].
  apply He. induction ks as [|k ks' IHks]; constructor; [apply IH|exact IHks].
Qed.

Section ForallUpdates.

Context {A : Type} (P : A -> Prop).






End ForallUpdates.



Lemma mclass_setNumberMarker (s : jstr) (ms : list Marker) :
  map mclass (setNumberMarker s ms) = map mclass ms.
Proof.
  induction ms as [|m r IH]; simpl; auto.
  destruct (mclass m) eqn:E; simpl; [now rewrite E, IH|reflexivity].
Qed.










Lemma keydownMove_cases (typewriterMode : bool) (k : MoveKey) (ed : Editor)
    (sel : Selection) :
  press (keydownMove typewriterMode k) sel ed = ed
  \/ exists moved,
       Permutation moved (indexed (blocks ed))
       /\ press (keydownMove typewriterMode k) sel ed = settleMove ed moved.
Proof.
  unfold press. destruct typewriterMode; [now left|].
  destruct k; cbn [keydownMove];
    [unfold keydownAltArrowUp | unfold keydownAltArrowDown
    | unfold keydownAltShiftArrowUp | unfold keydownAltShiftArrowDown].
  - destruct (moveTargets ed sel) as [ts|]; cbn [afterOutcome]; auto.
    destruct (_ || _); cbn [afterOutcome]; auto.
    right. eexists; split; [|reflexivity].
    apply fold_moves_perm; [|apply NoDup_indexed].
    intros; now apply insertBefore_perm.
  - destruct (moveTargets ed sel) as [ts|]; cbn [afterOutcome]; auto.
    destruct (_ <=? _); cbn [afterOutcome]; auto.
    right. eexists; split; [|reflexivity].
    apply fold_moves_perm; [|apply NoDup_indexed].
    intros; destruct (_ <? _); [now apply insertBefore_perm|now apply appendChild_perm].
  - destruct (getCurrentBlock sel) as [i|]; cbn [afterOutcome]; auto.
    destruct (_ || _); cbn [afterOutcome]; auto.
    right. eexists; split; [|reflexivity].
    apply insertBefore_perm, NoDup_indexed.
  - destruct (getCurrentBlock sel) as [i|]; cbn [afterOutcome]; auto.
    destruct (_ <=? _); cbn [afterOutcome]; auto.
    right. eexists; split; [|reflexivity].
    apply insertBefore_perm, NoDup_indexed.
Qed.

Lemma moved_blocks_perm (bs : list Block) (moved : list (nat * Block)) :
  Permutation moved (indexed bs) -> Permutation (map snd moved) bs.
Proof.
  intros H. rewrite <- (map_snd_tagFrom 0 bs), <- indexed_tagFrom.
  now apply Permutation_map.
Qed.

Lemma wellFormed_emptyTextBlock : wellFormed emptyTextBlock.
Proof. apply createBlockElement_wellFormed. Qed.





















(** *** The labels stay current *)

Section SplitForms.

Context {A : Type}.

Lemma updateAt_app (f : A -> A) (l1 l2 : list A) (x : A) :
  updateAt (length l1) f (l1 ++ x :: l2) = l1 ++ f x :: l2.
Proof. induction l1 as [|y r IH]; simpl; [reflexivity|now rewrite IH]. Qed.

Lemma insertAt_app (l1 l2 : list A) (x y : A) :
  insertAt (S (length l1)) y (l1 ++ x :: l2) = l1 ++ x :: y :: l2.
Proof.
  induction l1 as [|z r IH]; [destruct l2; reflexivity|].
  cbn [length app]. change (insertAt (S (S (length r))) y (z :: r ++ x :: l2))
    with (z :: insertAt (S (length r)) y (r ++ x :: l2)).
  now rewrite IH.
Qed.


Lemma nth_error_split_form (l : list A) (i : nat) (x : A) :
  nth_error l i = Some x ->
  exists l1 l2, l = l1 ++ x :: l2 /\ length l1 = i.
Proof. apply nth_error_split. Qed.

End SplitForms.

Lemma numberStep_not_numbered (cs : list nat) (b : Block) :
  isNumbered (btype b) = false -> numberStep cs b = ([], None).
Proof. unfold numberStep. destruct (btype b); try reflexivity; discriminate. Qed.





















(** *** The editor keeps a block *)

Lemma nonempty_length {A : Type} (l l' : list A) :
  length l <= length l' -> l <> [] -> l' <> [].
Proof. destruct l, l'; simpl; intros; try congruence; lia. Qed.

Lemma insertAt_length {A : Type} (i : nat) (x : A) (l : list A) :
  length (insertAt i x l) = S (length l).
Proof.
  revert i; induction l as [|y r IH]; intros [|j]; simpl; auto.
Qed.

Lemma fold_insertAt_length (i : nat) (new bs : list Block) :
  length (fold_left (fun bs b => insertAt i b bs) new bs)
  = length new + length bs.
Proof.
  revert bs; induction new as [|b r IH]; intros bs; simpl; auto.
  rewrite IH, insertAt_length. lia.
Qed.

Lemma split_never_empty (sep : ascii) (s : jstr) : split sep s <> [].
Proof.
  induction s as [|c r IH]; simpl; [discriminate|].
  destruct (Ascii.eqb c sep); [discriminate|].
  destruct (split sep r); [contradiction|discriminate].
Qed.

Lemma nonempty_step (ed ed' : Editor) :
  step ed ed' -> blocks ed <> [] -> blocks ed' <> [].
Proof.
  intros Hs H. destruct Hs.
  - revert H. apply nonempty_length.
    unfold runCommand, runBlockCommand.
    destruct (commandTargets ed sel); cbn [fst blocks]; auto.
    now rewrite updateNumberedBlocks_length, forEachBlock_length.
  - now apply deleteBlocks_nonempty.
  - unfold clearAll. destruct confirmed; cbn [fst blocks]; [discriminate|exact H].
  - revert H. apply nonempty_length. unfold press, keydownEnter.
    destruct (getCurrentBlock sel) as [i|]; cbn [afterOutcome]; auto.
    destruct (nth_error (blocks ed) i) as [b|]; cbn [afterOutcome]; auto.
    destruct (_ && _); cbn [afterOutcome blocks].
    + now rewrite updateNumberedBlocks_length, updateAt_length.
    + destruct (_ || _); rewrite ?updateNumberedBlocks_length, insertAt_length,
        updateAt_length; lia.
  - now apply keydownBackspace_nonempty.
  - revert H. apply nonempty_length. unfold mergeCaretCallback.
    destruct (nth_error (blocks ed) prev) as [p|]; cbn [fst]; auto.
    destruct (restoreMergeCaret previousLength (content p)) as [kids [node offset]].
    cbn [fst blocks]. now rewrite updateAt_length.
  - revert H. apply nonempty_length. unfold press, keydownTab, keydownTabWith.
    destruct (tabTargets ed sel); cbn [afterOutcome blocks]; auto.
    now rewrite updateNumberedBlocks_length, forEachBlock_length.
  - revert H. apply nonempty_length. unfold press, keydownShiftTab, keydownTabWith.
    destruct (tabTargets ed sel); cbn [afterOutcome blocks]; auto.
    now rewrite updateNumberedBlocks_length, forEachBlock_length.
  - revert H. apply nonempty_length.
    destruct (keydownMove_cases typewriterMode k ed sel)
      as [->|(moved & Hp & ->)]; auto.
    cbn [settleMove blocks]. rewrite updateNumberedBlocks_length.
    now rewrite (Permutation_length (moved_blocks_perm _ _ Hp)).
  - revert H. apply nonempty_length. unfold press, pasteHandler, insertPasted.
    destruct (_ || _); cbn [afterOutcome]; auto.
    destruct (getCurrentBlock sel) as [i|]; cbn [afterOutcome]; auto.
    destruct (pastedBlocks html) as [|b r]; cbn [afterOutcome]; auto.
    destruct (i <? length (blocks ed)); cbn [afterOutcome blocks]; auto.
    rewrite updateNumberedBlocks_length, fold_insertAt_length. lia.
  - unfold importMarkdown; cbn [fst blocks]. intros C.
    apply (f_equal (@length Block)) in C.
    rewrite updateNumberedBlocks_length in C. unfold markdownToBlocks in C.
    rewrite length_map in C. apply length_zero_iff_nil in C.
    exact (split_never_empty _ _ C).
  - revert H. apply nonempty_length. unfold focusBlock.
    destruct (nth_error (blocks ed) (focusIndex f)) as [b|]; cbn [fst]; auto.
    destruct (focusContent (atEnd f) (content b)) as [kids [path offset]].
    cbn [fst blocks]. now rewrite updateAt_length.
  - revert H. apply nonempty_length. unfold deleteAllStrikethrough; cbn [blocks].
    now rewrite length_map.
  - revert H. apply nonempty_length. unfold press, beforeinputAutoformat.
    destruct (isComposing ev); cbn [afterOutcome]; auto.
    destruct (_ && _); cbn [afterOutcome]; auto.
    destruct (getCurrentBlock sel) as [i|]; cbn [afterOutcome]; auto.
    destruct (nth_error (blocks ed) i) as [b|]; cbn [afterOutcome]; auto.
    destruct (startsWith ">" (blockText b)); cbn [afterOutcome blocks];
      [now rewrite updateAt_length|].
    destruct (_ || _); cbn [afterOutcome blocks]; [now rewrite updateAt_length|].
    destruct (numberedPrefix (blockText b)); cbn [afterOutcome blocks]; auto.
    now rewrite updateNumberedBlocks_length, updateAt_length.
Qed.

(** X7.  An editor that has a block still has one after any sequence of
    commands, key handlers, pastes, imports and caret placements; an
    import gives at least one block whatever the file holds. *)
Theorem handlers_keep_a_block (ed ed' : Editor) :
  steps ed ed' -> blocks ed <> [] -> blocks ed' <> [].
Proof.
  induction 1 as [|ed ed1 ed2 _ IH Hs]; auto.
  intros H. eapply nonempty_step; eauto.
Qed.

Lemma handlers_keep_a_block_witness :
  blocks (fst (deleteBlocks
                 (press keydownEnter (caretIn 0 [0] 2) helloEditor)
                 (caretIn 1 [0] 0))) <> [].
Proof.
  apply (handlers_keep_a_block helloEditor).
  - eapply steps_more; [eapply steps_more; [apply steps_none|]|].
    + apply step_enter.
    + apply step_delete.
  - discriminate.
Defined.

(** ** Paste *)

Lemma insertAt_at_length {A : Type} (l1 l2 : list A) (x : A) :
  insertAt (length l1) x (l1 ++ l2) = l1 ++ x :: l2.
Proof.
  induction l1 as [|y r IH]; [destruct l2; reflexivity|].
  cbn [length app]. change (insertAt (S (length r)) x (y :: r ++ l2))
    with (y :: insertAt (length r) x (r ++ l2)).
  now rewrite IH.
Qed.

Lemma fold_insertAt_reverses (l1 l2 new : list Block) :
  fold_left (fun bs b => insertAt (length l1) b bs) new (l1 ++ l2)
  = l1 ++ rev new ++ l2.
Proof.
  revert l2; induction new as [|b r IH]; intros l2; [reflexivity|].
  cbn [fold_left rev]. rewrite insertAt_at_length, IH.
  now rewrite <- !app_assoc.
Qed.

(** X8.  Whatever blocks the paste handler has made from the clipboard,
    it puts each of them right after the block of the caret, so they end
    up after that block in reverse order, the last one made first; the
    document is renumbered and that last one gets the focus, at its end.
    No block of the document is lost and none made is left out. *)
Theorem paste_inserts_in_reverse (newBlocks : list Block) (ed : Editor)
    (sel : Selection) (i : nat) :
  getCurrentBlock sel = Some i ->
  i < length (blocks ed) ->
  newBlocks <> [] ->
  exists ms,
    insertPasted newBlocks ed sel
    = Handled
        (mkEditor
           (updateNumberedBlocks
              (firstn (S i) (blocks ed) ++ rev newBlocks
                 ++ skipn (S i) (blocks ed)))
           ms)
        (Some (mkFocus (S i) true))
    /\ nth_error
         (firstn (S i) (blocks ed) ++ rev newBlocks ++ skipn (S i) (blocks ed))
         (S i)
       = Some (last newBlocks emptyTextBlock).
Proof.
  intros Hc Hi Hne. unfold insertPasted. rewrite Hc.
  destruct newBlocks as [|b r] eqn:E; [contradiction|]. rewrite <- E.
  destruct (Nat.ltb_spec i (length (blocks ed))); [|lia].
  assert (Hl : length (firstn (S i) (blocks ed)) = S i)
    by (rewrite length_firstn; lia).
  eexists. split.
  - do 3 f_equal.
    pose proof (fold_insertAt_reverses (firstn (S i) (blocks ed))
                  (skipn (S i) (blocks ed)) newBlocks) as F.
    rewrite Hl, firstn_skipn in F. exact F.
  - rewrite nth_error_app2 by lia. rewrite Hl, Nat.sub_diag.
    assert (Hn : newBlocks <> []) by (rewrite E; discriminate).
    destruct (exists_last Hn) as (front & x & ->).
    rewrite rev_app_distr, last_last. reflexivity.
Qed.

(** X8 at two blocks made from a bullet list, pasted with the caret in
    the first of two text blocks. *)
Lemma paste_inserts_in_reverse_witness :
  exists ms,
    insertPasted
      [createBlockElement bullet "one" 0; createBlockElement bullet "two" 0]
      (mkEditor [createBlockElement text "a" 0; createBlockElement text "b" 0] [])
      (caretIn 0 [0] 1)
    = Handled
        (mkEditor
           (updateNumberedBlocks
              (firstn 1 [createBlockElement text "a" 0;
                         createBlockElement text "b" 0]
                 ++ rev [createBlockElement bullet "one" 0;
                         createBlockElement bullet "two" 0]
                 ++ skipn 1 [createBlockElement text "a" 0;
                             createBlockElement text "b" 0]))
           ms)
        (Some (mkFocus 1 true))
    /\ nth_error
         (firstn 1 [createBlockElement text "a" 0;
                    createBlockElement text "b" 0]
            ++ rev [createBlockElement bullet "one" 0;
                    createBlockElement bullet "two" 0]
            ++ skipn 1 [createBlockElement text "a" 0;
                        createBlockElement text "b" 0])
         1
       = Some (last [createBlockElement bullet "one" 0;
                     createBlockElement bullet "two" 0] emptyTextBlock).
Proof.
  apply (paste_inserts_in_reverse
           [createBlockElement bullet "one" 0; createBlockElement bullet "two" 0]
           (mkEditor [createBlockElement text "a" 0;
                      createBlockElement text "b" 0] [])
           (caretIn 0 [0] 1) 0).
  - reflexivity.
  - simpl; lia.
  - discriminate.
Defined.

(** ** Copied markup, pasted *)

Lemma jstr_eqb_eq (a b : jstr) : jstr_eqb a b = true <-> a = b.
Proof.
  unfold jstr_eqb. destruct (list_eq_dec ascii_dec a b); split; auto; discriminate.
Qed.

Lemma jstr_eqb_refl (a : jstr) : jstr_eqb a a = true.
Proof. now apply jstr_eqb_eq. Qed.

Lemma isListTag_cases (t : jstr) : isListTag t = true -> t = "ul" \/ t = "ol".
Proof.
  unfold isListTag. intros H. apply orb_true_iff in H as [H|H];
    apply jstr_eqb_eq in H; auto.
Qed.

Lemma tokenize_text (s rest : jstr) :
  markupFree s = true ->
  tokenize Data (s ++ rest) = map TChar s ++ tokenize Data rest.
Proof.
  induction s as [|c r IH]; [reflexivity|]. cbn [app map tokenize markupFree forallb].
  intros H. apply andb_true_iff in H. destruct H as [Hc Hr].
  unfold isMarkupChar in Hc. apply negb_true_iff in Hc.
  apply orb_false_iff in Hc. destruct Hc as [Hc Hnul].
  apply orb_false_iff in Hc. destruct Hc as [Hc Hcr].
  apply orb_false_iff in Hc. destruct Hc as [Hlt _].
  rewrite Hlt, Hnul, Hcr. cbn [app]. now rewrite IH.
Qed.

Lemma tokenize_open_list (t rest : jstr) :
  isListTag t = true ->
  tokenize Data ("<" ++ t ++ ">" ++ rest) = TStart t :: tokenize Data rest.
Proof. intros H. destruct (isListTag_cases t H) as [->| ->]; reflexivity. Qed.

Lemma tokenize_close_list (t rest : jstr) :
  isListTag t = true ->
  tokenize Data ("</" ++ t ++ ">" ++ rest) = TEnd t :: tokenize Data rest.
Proof. intros H. destruct (isListTag_cases t H) as [->| ->]; reflexivity. Qed.

Lemma tokenize_close_li (rest : jstr) :
  tokenize Data ("</li>" ++ rest) = TEnd "li" :: tokenize Data rest.
Proof. reflexivity. Qed.

Lemma tokenize_open_li (rest : jstr) :
  tokenize Data ("<li>" ++ rest) = TStart "li" :: tokenize Data rest.
Proof. reflexivity. Qed.

Lemma tokenize_open_p (rest : jstr) :
  tokenize Data ("<p>" ++ rest) = TStart "p" :: tokenize Data rest.
Proof. reflexivity. Qed.

Lemma tokenize_close_p (rest : jstr) :
  tokenize Data ("</p>" ++ rest) = TEnd "p" :: tokenize Data rest.
Proof. reflexivity. Qed.

Lemma buildTree_text_more (s d : jstr) (k : list Node) (rest : list Token)
    (stack : list Frame) :
  buildTree (map TChar s ++ rest) stack (Text d :: k)
  = buildTree rest stack (Text (d ++ s) :: k).
Proof.
  revert d; induction s as [|c r IH]; intros d; cbn [map app buildTree addChar].
  - now rewrite app_nil_r.
  - rewrite IH. now rewrite <- app_assoc.
Qed.

Lemma buildTree_text (s : jstr) (rest : list Token) (stack : list Frame) :
  s <> [] ->
  buildTree (map TChar s ++ rest) stack [] = buildTree rest stack [Text s].
Proof.
  destruct s as [|c r]; [contradiction|]. intros _.
  cbn [map app buildTree addChar]. now rewrite buildTree_text_more.
Qed.

Lemma buildTree_open_list (t : jstr) (rest : list Token) (stack : list Frame)
    (cur : list Node) :
  isListTag t = true ->
  buildTree (TStart t :: TStart "li" :: rest) stack cur
  = buildTree rest (("li", []) :: (t, cur) :: stack) [].
Proof. intros H. destruct (isListTag_cases t H) as [->| ->]; reflexivity. Qed.

Lemma buildTree_close_list (t : jstr) (rest : list Token) (stack : list Frame)
    (parentKids cur : list Node) :
  isListTag t = true ->
  buildTree (TEnd "li" :: TEnd t :: rest)
    (("li", []) :: (t, parentKids) :: stack) cur
  = buildTree rest stack (Elem t [Elem "li" (rev cur)] :: parentKids).
Proof. intros H. destruct (isListTag_cases t H) as [->| ->]; reflexivity. Qed.

(** The parser on the parts that close lists. *)
Lemma close_frames (level : nat) (listStack : list ListFrame)
    (stack : list Frame) :
  stacksMatch listStack stack ->
  forall (cur : list Node) (rest : jstr),
  exists stack' cur',
    buildTree (tokenize Data (concat (fst (closeListsTo level listStack)) ++ rest))
      stack cur
    = buildTree (tokenize Data rest) stack' cur'
    /\ stacksMatch (snd (closeListsTo level listStack)) stack'
    /\ closeAll stack' cur' = closeAll stack cur
    /\ length (snd (closeListsTo level listStack))
       = Nat.min level (length listStack).
Proof.
  induction 1 as [|t ls stack pk Hm IH Ht]; intros cur rest.
  - exists [], cur. cbn [closeListsTo fst snd concat app length].
    repeat split; [constructor|lia].
  - cbn [closeListsTo].
    destruct (Nat.leb_spec level (length ls)) as [Hle|Hgt].
    + destruct (closeListsTo level ls) as [parts st'] eqn:E.
      cbn [fst snd] in *.
      destruct (IH (Elem t [Elem "li" (rev cur)] :: pk) rest)
        as (stack' & cur' & Hb & Hs & Hc & Hl).
      exists stack', cur'. repeat split; auto.
      * cbn [concat]. rewrite <- !app_assoc.
        rewrite tokenize_close_li, tokenize_close_list by exact Ht.
        rewrite buildTree_close_list by exact Ht. exact Hb.
      * cbn [length]. lia.
    + exists (("li", []) :: (t, pk) :: stack), cur.
      cbn [fst snd concat app length].
      repeat split; [now constructor|lia].
Qed.

Lemma closeListsTo_zero (listStack : list ListFrame) :
  closeListsTo 0 listStack = (closeAllLists listStack, []).
Proof.
  induction listStack as [|[t l] r IH]; [reflexivity|].
  cbn [closeListsTo Nat.leb]. now rewrite IH.
Qed.

Lemma topConv_app (f g : list Node) : topConv (f ++ g) = topConv f ++ topConv g.
Proof. apply flat_map_app. Qed.

Lemma ownText_snoc_elem (kids : list Node) (t : jstr) (ks : list Node) :
  ownText (kids ++ [Elem t ks]) = ownText kids.
Proof.
  unfold ownText. rewrite map_app, concat_app. cbn [map concat].
  now rewrite !app_nil_r.
Qed.

(** [convertNode] on a list with one item. *)
Lemma convertNode_item (t : jstr) (kids : list Node) (level : nat) :
  isListTag t = true ->
  convertNode (Elem t [Elem "li" kids]) level
  = match trim (ownText kids) with
    | [] => []
    | txt => [createBlockElement (if jstr_eqb t "ul" then bullet else numbered)
                txt level]
    end ++ flat_map (nestedLists (S level)) kids.
Proof.
  intros Ht.
  transitivity
    (if isListTag t then
       (if jstr_eqb "li" "li" then
          match trim (ownText kids) with
          | [] => []
          | txt => [createBlockElement
                      (if jstr_eqb t "ul" then bullet else numbered) txt level]
          end ++ flat_map (nestedLists (S level)) kids
        else []) ++ []
     else if jstr_eqb t "p" || jstr_eqb t "div" then
       match trim (textContent (Elem t [Elem "li" kids])) with
       | [] => []
       | txt => [createBlockElement text txt 0]
       end
     else []); [reflexivity|].
  rewrite Ht. change (jstr_eqb "li" "li") with true. cbv iota.
  apply app_nil_r.
Qed.

Lemma nestedLists_list (t : jstr) (ks : list Node) (level : nat) :
  isListTag t = true ->
  nestedLists level (Elem t ks) = convertNode (Elem t ks) level.
Proof. intros Ht. unfold nestedLists. now rewrite Ht. Qed.

(** A list with one item, and the same list with one more nested list at
    the end of the item. *)
Lemma convertNode_item_snoc (t t' : jstr) (kids ks : list Node) (level : nat) :
  isListTag t = true -> isListTag t' = true ->
  convertNode (Elem t [Elem "li" (kids ++ [Elem t' ks])]) level
  = convertNode (Elem t [Elem "li" kids]) level
    ++ convertNode (Elem t' ks) (S level).
Proof.
  intros Ht Ht'. rewrite !convertNode_item by exact Ht.
  rewrite ownText_snoc_elem, flat_map_app, <- app_assoc.
  do 2 f_equal. cbn [flat_map].
  rewrite nestedLists_list by exact Ht'. apply app_nil_r.
Qed.

Lemma convertNode_item_text (t c : jstr) (level : nat) :
  isListTag t = true -> tight c = true ->
  convertNode (Elem t [Elem "li" [Text c]]) level
  = [createBlockElement (if jstr_eqb t "ul" then bullet else numbered) c level].
Proof.
  intros Ht Hc. rewrite convertNode_item by exact Ht.
  unfold ownText; cbn [map concat flat_map nestedLists]. rewrite !app_nil_r.
  rewrite (tight_trim c Hc). destruct c; [discriminate|reflexivity].
Qed.

Lemma convertNode_paragraph (c : jstr) :
  tight c = true ->
  convertNode (Elem "p" [Text c]) 0 = [createBlockElement text c 0].
Proof.
  intros Hc.
  transitivity (match trim (textContent (Elem "p" [Text c])) with
                | [] => []
                | txt => [createBlockElement text txt 0]
                end); [reflexivity|].
  cbn [textContent map concat]. rewrite app_nil_r.
  rewrite (tight_trim c Hc). destruct c; [discriminate|reflexivity].
Qed.

(** Where the last node read is a list, what follows in this list only
    adds blocks at the end. *)
Lemma topConv_last (listStack : list ListFrame) (stack : list Frame) :
  stacksMatch listStack stack ->
  forall (t t' : jstr) (ks ks' C : list Node) (X : list Block),
  isListTag t = true -> isListTag t' = true ->
  convertNode (Elem t' ks') (length listStack)
  = convertNode (Elem t ks) (length listStack) ++ X ->
  topConv (closeAll stack (Elem t' ks' :: C))
  = topConv (closeAll stack (Elem t ks :: C)) ++ X.
Proof.
  induction 1 as [|t0 ls stack pk Hm IH Ht0]; intros t t' ks ks' C X Ht Ht' H.
  - cbn [closeAll rev length] in *. rewrite !topConv_app.
    unfold topConv at 2 4. cbn [flat_map]. rewrite !app_nil_r, H.
    now rewrite app_assoc.
  - cbn [closeAll rev app length] in *.
    apply (IH t0 t0 _ _ pk X Ht0 Ht0).
    rewrite !convertNode_item_snoc by assumption. rewrite H.
    now rewrite app_assoc.
Qed.

(** A list read as the next child adds its blocks at the end. *)
Lemma topConv_push (listStack : list ListFrame) (stack : list Frame)
    (t : jstr) (ks cur : list Node) :
  stacksMatch listStack stack -> isListTag t = true ->
  topConv (closeAll stack (Elem t ks :: cur))
  = topConv (closeAll stack cur) ++ convertNode (Elem t ks) (length listStack).
Proof.
  intros Hm Ht. destruct Hm as [|t0 ls stack pk Hm Ht0].
  - cbn [closeAll rev length]. rewrite topConv_app.
    unfold topConv at 2. cbn [flat_map]. now rewrite app_nil_r.
  - cbn [closeAll rev app length].
    apply (topConv_last ls stack Hm t0 t0 _ _ pk _ Ht0 Ht0).
    now apply convertNode_item_snoc.
Qed.

Lemma copyable_text (b : Block) :
  copyable b = true ->
  tight (blockText b) = true /\ markupFree (blockText b) = true
  /\ blockText b <> [].
Proof.
  unfold copyable. intros H. apply andb_true_iff in H as [Ht Hm].
  repeat split; auto. intros E. rewrite E in Ht. discriminate.
Qed.

(** The parser on the parts of one copied block. *)
Lemma copy_step_parse (listStack : list ListFrame) (stack : list Frame)
    (cur : list Node) (b : Block) (rest : jstr) :
  stacksMatch listStack stack ->
  copyable b = true ->
  (if isListType (btype b)
   then match topLevel listStack with
        | None => blevel b = 0
        | Some p => blevel b <= S p
        end
   else True) ->
  exists stack' cur',
    buildTree (tokenize Data (concat (fst (copyStep listStack b)) ++ rest))
      stack cur
    = buildTree (tokenize Data rest) stack' cur'
    /\ stacksMatch (snd (copyStep listStack b)) stack'
    /\ topConv (closeAll stack' cur')
       = topConv (closeAll stack cur) ++ [pasteImage b]
    /\ topLevel (snd (copyStep listStack b))
       = (if isListType (btype b) then Some (blevel b) else None).
Proof.
  intros Hm Hb Hlev. destruct (copyable_text b Hb) as (Htight & Hfree & Hne).
  unfold copyStep, pasteImage.
  destruct (isListType (btype b)) eqn:El.
  - (* a list item *)
    set (listType := match btype b with bullet => "ul" | _ => "ol" end).
    assert (Hlt : isListTag listType = true)
      by (subst listType; destruct (btype b); reflexivity).
    assert (Hty : (if jstr_eqb listType "ul" then bullet else numbered) = btype b)
      by (subst listType; destruct (btype b); try discriminate; reflexivity).
    assert (Hdepth : blevel b <= length listStack).
    { destruct Hm as [|t0 ls stack pk Hm Ht0]; cbn [topLevel length] in *; lia. }
    destruct (close_frames (blevel b) listStack stack Hm cur
                ("<" ++ listType ++ ">" ++ "<li>" ++ blockText b ++ rest))
      as (stack1 & cur1 & Hparse & Hm1 & Hclose & Hlen).
    destruct (closeListsTo (blevel b) listStack) as [closed ls1] eqn:Ec.
    cbn [fst snd] in *.
    rewrite Nat.min_l in Hlen by exact Hdepth.
    assert (Hopen :
      match ls1 with
      | [] => (["<" ++ listType ++ ">"], [(listType, blevel b)])
      | (_, l) :: _ =>
          if l <? blevel b
          then (["<" ++ listType ++ ">"], (listType, blevel b) :: ls1)
          else (["</li>"], ls1)
      end = (["<" ++ listType ++ ">"], (listType, length ls1) :: ls1)).
    { destruct Hm1 as [|t1 ls2 stack2 pk2 Hm2 Ht1].
      - cbn [length] in Hlen. now rewrite <- Hlen.
      - cbn [length] in Hlen.
        destruct (Nat.ltb_spec (length ls2) (blevel b)); [|lia].
        now rewrite <- Hlen. }
    rewrite Hopen. cbn [fst snd].
    exists (("li", []) :: (listType, cur1) :: stack1), [Text (blockText b)].
    split; [|split; [|split]].
    + rewrite !concat_app. cbn [concat]. rewrite <- !app_assoc.
      rewrite !app_nil_l.
      rewrite Hparse.
      rewrite tokenize_open_list by exact Hlt.
      rewrite tokenize_open_li, tokenize_text by exact Hfree.
      rewrite buildTree_open_list by exact Hlt.
      now apply buildTree_text.
    + now constructor.
    + cbn [closeAll rev app].
      rewrite (topConv_push ls1 stack1 listType _ cur1 Hm1 Hlt).
      rewrite Hclose, convertNode_item_text by assumption.
      now rewrite Hty, Hlen.
    + cbn [topLevel]. now rewrite Hlen.
  - (* any other block: a paragraph *)
    destruct (close_frames 0 listStack stack Hm cur
                ("<p>" ++ blockText b ++ "</p>" ++ rest))
      as (stack1 & cur1 & Hparse & Hm1 & Hclose & Hlen).
    rewrite closeListsTo_zero in Hparse, Hm1, Hlen. cbn [fst snd] in *.
    inversion Hm1; subst.
    exists [], (Elem "p" [Text (blockText b)] :: cur1).
    split; [|split; [|split]].
    + rewrite concat_app. cbn [concat]. rewrite <- !app_assoc.
      rewrite !app_nil_l.
      rewrite Hparse.
      rewrite tokenize_open_p, tokenize_text by exact Hfree.
      rewrite tokenize_close_p.
      change (buildTree (TStart "p" :: ?x) [] cur1)
        with (buildTree x [("p", cur1)] []).
      rewrite buildTree_text by exact Hne. reflexivity.
    + constructor.
    + cbn [closeAll rev]. rewrite topConv_app.
      unfold topConv at 2. cbn [flat_map].
      rewrite app_nil_r, convertNode_paragraph by exact Htight.
      now rewrite <- Hclose.
    + reflexivity.
Qed.

Lemma copy_parse (bs : list Block) :
  forall (listStack : list ListFrame) (stack : list Frame) (cur : list Node),
  stacksMatch listStack stack ->
  forallb copyable bs = true ->
  outlineFrom (topLevel listStack) bs = true ->
  topConv (buildTree (tokenize Data (concat (copyPartsFrom listStack bs)))
             stack cur)
  = topConv (closeAll stack cur) ++ map pasteImage bs.
Proof.
  induction bs as [|b r IH]; intros listStack stack cur Hm Hc Ho.
  - cbn [copyPartsFrom map]. rewrite app_nil_r.
    destruct (close_frames 0 listStack stack Hm cur [])
      as (stack1 & cur1 & Hparse & Hm1 & Hclose & Hlen).
    rewrite closeListsTo_zero in Hparse, Hm1. cbn [fst snd] in *.
    inversion Hm1; subst. rewrite app_nil_r in Hparse.
    rewrite Hparse. cbn [tokenize buildTree]. now rewrite Hclose.
  - cbn [forallb] in Hc. apply andb_true_iff in Hc as [Hb Hr].
    cbn [outlineFrom] in Ho.
    assert (Hlev : if isListType (btype b)
                   then match topLevel listStack with
                        | None => blevel b = 0
                        | Some p => blevel b <= S p
                        end
                   else True).
    { destruct (isListType (btype b)); [|exact I].
      apply andb_true_iff in Ho as [Ho _].
      destruct (topLevel listStack);
        [now apply Nat.leb_le|now apply Nat.eqb_eq]. }
    destruct (copy_step_parse listStack stack cur b
                (concat (copyPartsFrom (snd (copyStep listStack b)) r))
                Hm Hb Hlev)
      as (stack' & cur' & Hparse & Hm' & Hconv & Htop).
    cbn [copyPartsFrom map].
    destruct (copyStep listStack b) as [parts ls'] eqn:E. cbn [fst snd] in *.
    rewrite concat_app, Hparse, IH; auto.
    + rewrite Hconv, <- app_assoc. reflexivity.
    + rewrite Htop. destruct (isListType (btype b)); [|exact Ho].
      now apply andb_true_iff in Ho as [_ Ho].
Qed.



(** *** Copy and paste, one after the other *)

Lemma closeListsTo_top (level : nat) (listStack : list ListFrame) :
  match snd (closeListsTo level listStack) with
  | [] => True
  | (_, l) :: _ => l < level
  end.
Proof.
  induction listStack as [|[t l] r IH]; [exact I|].
  cbn [closeListsTo]. destruct (Nat.leb_spec level l).
  - destruct (closeListsTo level r) as [parts st]. exact IH.
  - exact H.
Qed.

(** X10.  The copy handler opens a list of its own for every list item:
    whatever lists are open, the parts pushed for a bullet or a numbered
    block are the closing parts, the opening tag of a list and the item;
    the branch that would add the item to the list of the item before is
    never taken. *)
Theorem copy_opens_a_list_per_item (listStack : list ListFrame) (b : Block) :
  isListType (btype b) = true ->
  fst (copyStep listStack b)
  = fst (closeListsTo (blevel b) listStack)
    ++ ["<" ++ (match btype b with bullet => "ul" | _ => "ol" end) ++ ">"]
    ++ ["<li>" ++ blockText b].
Proof.
  intros Hl. unfold copyStep. rewrite Hl.
  pose proof (closeListsTo_top (blevel b) listStack) as Htop.
  destruct (closeListsTo (blevel b) listStack) as [closed st]. cbn [fst snd] in *.
  destruct st as [|[t l] r]; [reflexivity|].
  destruct (Nat.ltb_spec l (blevel b)); [reflexivity|lia].
Qed.

Lemma copy_opens_a_list_per_item_witness :
  fst (copyStep [("ul", 0)] (createBlockElement bullet "b" 0))
  = fst (closeListsTo (blevel (createBlockElement bullet "b" 0)) [("ul", 0)])
    ++ ["<" ++ (match btype (createBlockElement bullet "b" 0) with
                | bullet => "ul"
                | _ => "ol"
                end) ++ ">"]
    ++ ["<li>" ++ blockText (createBlockElement bullet "b" 0)].
Proof. apply copy_opens_a_list_per_item. reflexivity. Defined.

Lemma includes_app_r (needle x y : jstr) :
  includes needle y = true -> includes needle (x ++ y) = true.
Proof.
  intros H. induction x as [|a r IH]; [exact H|].
  cbn [app includes]. rewrite IH. apply orb_true_r.
Qed.

Lemma includes_open_list (t rest : jstr) :
  isListTag t = true ->
  includes "<ul" ("<" ++ t ++ ">" ++ rest)
  || includes "<ol" ("<" ++ t ++ ">" ++ rest) = true.
Proof.
  intros H. destruct (isListTag_cases t H) as [->| ->].
  - apply orb_true_iff. left. destruct rest; reflexivity.
  - apply orb_true_iff. right. destruct rest; reflexivity.
Qed.

Lemma includes_either_app_r (x y : jstr) :
  includes "<ul" y || includes "<ol" y = true ->
  includes "<ul" (x ++ y) || includes "<ol" (x ++ y) = true.
Proof.
  intros H. apply orb_true_iff in H as [H|H]; apply orb_true_iff;
    [left|right]; now apply includes_app_r.
Qed.

(** Copied markup that holds a list item names a list. *)
Lemma copiedHtml_includes_list (bs : list Block) (listStack : list ListFrame) :
  existsb (fun b => isListType (btype b)) bs = true ->
  includes "<ul" (concat (copyPartsFrom listStack bs))
  || includes "<ol" (concat (copyPartsFrom listStack bs)) = true.
Proof.
  revert listStack; induction bs as [|b r IH]; intros listStack H;
    [discriminate|].
  cbn [existsb] in H. cbn [copyPartsFrom].
  destruct (isListType (btype b)) eqn:El.
  - unfold copyStep. rewrite El.
    pose proof (closeListsTo_top (blevel b) listStack) as Htop.
    destruct (closeListsTo (blevel b) listStack) as [closed st].
    cbn [fst snd] in Htop.
    assert (Hopen : forall t,
              isListTag t = true ->
              forall opened st2 tail,
              (opened, st2)
              = match st with
                | [] => (["<" ++ t ++ ">"], [(t, blevel b)])
                | (_, l) :: _ =>
                    if l <? blevel b
                    then (["<" ++ t ++ ">"], (t, blevel b) :: st)
                    else (["</li>"], st)
                end ->
              includes "<ul" (concat (closed ++ opened ++ tail))
              || includes "<ol" (concat (closed ++ opened ++ tail)) = true).
    { intros t Ht opened st2 tail Ho.
      assert (opened = ["<" ++ t ++ ">"]) as ->.
      { destruct st as [|[t' l] r']; [now injection Ho|].
        destruct (Nat.ltb_spec l (blevel b)); [now injection Ho|lia]. }
      rewrite !concat_app. cbn [concat]. rewrite <- !app_assoc.
      apply includes_either_app_r, includes_open_list, Ht. }
    set (t := match btype b with bullet => "ul" | _ => "ol" end).
    assert (Ht : isListTag t = true) by (subst t; destruct (btype b); reflexivity).
    destruct (match st with
              | [] => (["<" ++ t ++ ">"], [(t, blevel b)])
              | (_, l) :: _ =>
                  if l <? blevel b
                  then (["<" ++ t ++ ">"], (t, blevel b) :: st)
                  else (["</li>"], st)
              end) as [opened st2] eqn:Eo.
    rewrite <- !app_assoc.
    exact (Hopen t Ht opened st2 _ (eq_sym Eo)).
  - cbn [orb] in H. specialize (IH (snd (copyStep listStack b)) H).
    destruct (copyStep listStack b) as [parts st]. cbn [snd] in IH.
    rewrite concat_app. now apply includes_either_app_r.
Qed.

(** X11.  List items that are copied and then pasted come back in
    reverse order.  Copying blocks among which there is a list item and
    pasting the markup with the caret in a block puts the copied blocks
    after that block, the last copied block first, each list item with
    its type, level and text and every other block as a text block at
    level 0.  The copied texts must be trimmed, not empty and free of
    markup characters, and the levels of the list items must form an
    outline. *)
Theorem copy_then_paste_reverses (ed : Editor) (sel : Selection)
    (plain html : jstr) (ed' : Editor) (sel' : Selection) (i : nat) :
  copyHandler ed sel = Some (plain, html) ->
  forallb copyable (selectedBlockList ed sel) = true ->
  outlineFrom None (selectedBlockList ed sel) = true ->
  existsb (fun b => isListType (btype b)) (selectedBlockList ed sel) = true ->
  getCurrentBlock sel' = Some i ->
  i < length (blocks ed') ->
  exists ms,
    pasteHandler html ed' sel'
    = Handled
        (mkEditor
           (updateNumberedBlocks
              (firstn (S i) (blocks ed')
                 ++ rev (map pasteImage (selectedBlockList ed sel))
                 ++ skipn (S i) (blocks ed')))
           ms)
        (Some (mkFocus (S i) true)).
Proof.
  intros Hcopy Hc Ho He Hcur Hi. unfold copyHandler in Hcopy.
  destruct (rangeCount sel =? 0); [discriminate|].
  destruct (selectedBlockList ed sel) as [|b r] eqn:E; [discriminate|].
  injection Hcopy as _ <-.
  unfold pasteHandler, insertPasted.
  assert (Hin : includes "<ul" (copiedHtml (b :: r))
                || includes "<ol" (copiedHtml (b :: r)) = true)
    by (apply copiedHtml_includes_list; exact He).
  rewrite Hin, Hcur.
  assert (Hp : pastedBlocks (copiedHtml (b :: r)) = map pasteImage (b :: r))
    by exact (copy_parse (b :: r) [] [] [] stacksMatch_nil Hc Ho).
  rewrite Hp. cbn [map].
  destruct (Nat.ltb_spec i (length (blocks ed'))); [|lia].
  eexists. do 3 f_equal.
  assert (Hl : length (firstn (S i) (blocks ed')) = S i)
    by (rewrite length_firstn; lia).
  pose proof (fold_insertAt_reverses (firstn (S i) (blocks ed'))
                (skipn (S i) (blocks ed')) (pasteImage b :: map pasteImage r))
    as F.
  rewrite Hl, firstn_skipn in F. exact F.
Qed.

Lemma copy_then_paste_reverses_witness :
  exists ms,
    pasteHandler (copiedHtml (blocks outlineEditor)) helloEditor (caretIn 0 [0] 0)
    = Handled
        (mkEditor
           (updateNumberedBlocks
              (firstn 1 (blocks helloEditor)
                 ++ rev (map pasteImage
                           (selectedBlockList outlineEditor wholeSelection))
                 ++ skipn 1 (blocks helloEditor)))
           ms)
        (Some (mkFocus 1 true)).
Proof.
  apply (copy_then_paste_reverses outlineEditor wholeSelection
           (copiedPlain (blocks outlineEditor))
           (copiedHtml (blocks outlineEditor)) helloEditor (caretIn 0 [0] 0) 0);
    try reflexivity.
  simpl; lia.
Defined.

(** ** Placing the caret *)

Lemma findIndex_plain (ks : list Node) (j : nat) :
  plainContent ks = true -> findIndex isTextNode ks = Some j ->
  textOf (firstn j ks) = []
  /\ exists d, nth_error ks j = Some (Text d).
Proof.
  revert j; induction ks as [|k r IH]; intros j Hp Hf; [discriminate|].
  cbn [findIndex] in Hf. cbn [plainContent forallb] in Hp.
  apply andb_true_iff in Hp as [Hk Hr].
  destruct k as [d| |t cs]; cbn [isTextNode] in Hf.
  - injection Hf as <-. split; [reflexivity|now exists d].
  - destruct (findIndex isTextNode r) as [j'|] eqn:E; [|discriminate].
    injection Hf as <-. destruct (IH j' Hr eq_refl) as (H1 & d & H2).
    split; [|now exists d].
    cbn [firstn]. change (textOf (Br :: firstn j' r)) with ([] ++ textOf (firstn j' r)).
    now rewrite H1.
  - discriminate.
Qed.

Lemma findIndex_none_plain (ks : list Node) :
  plainContent ks = true -> findIndex isTextNode ks = None -> textOf ks = [].
Proof.
  induction ks as [|k r IH]; intros Hp Hf; [reflexivity|].
  cbn [findIndex] in Hf. cbn [plainContent forallb] in Hp.
  apply andb_true_iff in Hp as [Hk Hr].
  destruct k as [d| |t cs]; cbn [isTextNode] in Hf; try discriminate.
  destruct (findIndex isTextNode r); [discriminate|].
  change (textOf (Br :: r)) with ([] ++ textOf r). now rewrite IH.
Qed.

Lemma textAfter_text_node (ks : list Node) (j : nat) (d : jstr) :
  nth_error ks j = Some (Text d) ->
  textAfter [j] 0 ks = textOf (skipn j ks).
Proof.
  intros E. cbn [textAfter]. rewrite E. cbn [skipn].
  rewrite (nth_error_split_at ks j (Text d) E) at 2.
  rewrite skipn_app, length_firstn.
  assert (Hj : j < length ks) by (apply nth_error_Some; congruence).
  replace (j - Nat.min j (length ks)) with 0 by lia.
  rewrite skipn_all2 by (rewrite length_firstn; lia).
  cbn [skipn app]. unfold textOf; cbn [map concat textContent]. reflexivity.
Qed.

(** X12.  In content without inline elements, [focusBlock] changes no text
    and puts the caret where it is asked to: with [atEnd] no text follows
    the caret, without it the whole text of the block does. *)
Theorem focusBlock_places_caret (atEnd : bool) (ks : list Node) :
  plainContent ks = true ->
  textOf (fst (focusContent atEnd ks)) = textOf ks
  /\ textAfter (fst (snd (focusContent atEnd ks)))
       (snd (snd (focusContent atEnd ks))) (fst (focusContent atEnd ks))
     = (if atEnd then [] else textOf ks).
Proof.
  intros Hp. unfold focusContent. destruct atEnd; cbn [fst snd].
  - split; [reflexivity|]. cbn [textAfter]. now rewrite skipn_all.
  - destruct ks as [|k r]; [split; reflexivity|].
    assert (Hgen :
      textOf (fst match findIndex isTextNode (k :: r) with
                  | Some j => (k :: r, ([j], 0))
                  | None => (Text [] :: k :: r, ([0], 0))
                  end) = textOf (k :: r)
      /\ textAfter
           (fst (snd match findIndex isTextNode (k :: r) with
                     | Some j => (k :: r, ([j], 0))
                     | None => (Text [] :: k :: r, ([0], 0))
                     end))
           (snd (snd match findIndex isTextNode (k :: r) with
                     | Some j => (k :: r, ([j], 0))
                     | None => (Text [] :: k :: r, ([0], 0))
                     end))
           (fst match findIndex isTextNode (k :: r) with
                | Some j => (k :: r, ([j], 0))
                | None => (Text [] :: k :: r, ([0], 0))
                end) = textOf (k :: r)).
    { destruct (findIndex isTextNode (k :: r)) as [j|] eqn:E; cbn [fst snd].
      - split; [reflexivity|].
        destruct (findIndex_plain _ _ Hp E) as (H1 & d & H2).
        rewrite (textAfter_text_node _ _ _ H2).
        rewrite <- (firstn_skipn j (k :: r)) at 2.
        now rewrite textOf_app, H1.
      - split; reflexivity. }
    destruct k as [d| |t cs]; [exact Hgen| |exact Hgen].
    destruct r as [|k' r']; [split; reflexivity|exact Hgen].
Qed.

Lemma focusBlock_places_caret_witness :
  textOf (fst (focusContent false [Br; Text "ab"])) = textOf [Br; Text "ab"]
  /\ textAfter (fst (snd (focusContent false [Br; Text "ab"])))
       (snd (snd (focusContent false [Br; Text "ab"])))
       (fst (focusContent false [Br; Text "ab"]))
     = (if false then [] else textOf [Br; Text "ab"]).
Proof. apply focusBlock_places_caret. reflexivity. Defined.

(** ** Splitting a block and merging it again *)

Lemma relabelled_content (b' b : Block) : relabelled b' b -> content b' = content b.
Proof. intros [->|(_ & s & ->)]; reflexivity. Qed.

Lemma relabelled_texts (l' l : list Block) :
  Forall2 relabelled l' l -> map blockText l' = map blockText l.
Proof.
  induction 1 as [|b' b r' r Hb Hr IH]; [reflexivity|].
  cbn [map]. rewrite IH. unfold blockText.
  now rewrite (relabelled_content _ _ Hb).
Qed.

Lemma relabelled_shapes (l' l : list Block) :
  Forall2 relabelled l' l -> map blockShape l' = map blockShape l.
Proof.
  induction 1 as [|b' b r' r Hb Hr IH]; [reflexivity|].
  cbn [map]. now rewrite IH, (relabelled_shape _ _ Hb).
Qed.

Lemma relabelled_refl (l : list Block) : Forall2 relabelled l l.
Proof. induction l; constructor; auto. now left. Qed.

Lemma removeAt_app {A : Type} (l1 l2 : list A) (x y : A) :
  removeAt (S (length l1)) (l1 ++ x :: y :: l2) = l1 ++ x :: l2.
Proof.
  unfold removeAt. induction l1 as [|z r IH]; [reflexivity|].
  cbn [length app firstn skipn] in *. now rewrite IH.
Qed.

Lemma nth_error_app_here {A : Type} (l1 l2 : list A) (x : A) :
  nth_error (l1 ++ x :: l2) (length l1) = Some x.
Proof. rewrite nth_error_app2, Nat.sub_diag; [reflexivity|lia]. Qed.

Lemma nth_error_app_next {A : Type} (l1 l2 : list A) (x y : A) :
  nth_error (l1 ++ x :: y :: l2) (S (length l1)) = Some y.
Proof.
  rewrite nth_error_app2 by lia.
  replace (S (length l1) - length l1) with 1 by lia. reflexivity.
Qed.

Lemma updateAt_app_next {A : Type} (f : A -> A) (l1 l2 : list A) (x y : A) :
  updateAt (S (length l1)) f (l1 ++ x :: y :: l2) = l1 ++ x :: f y :: l2.
Proof.
  induction l1 as [|z r IH]; [reflexivity|].
  cbn [length app updateAt] in *. now rewrite IH.
Qed.

(** The content of the block that Enter creates, once it has the focus:
    the caret is at the start of its first child. *)
Lemma focusContent_new_block (t : BlockType) (l : nat) (s : jstr) :
  markupFree s = true ->
  exists ks,
    focusContent false (content (createBlockElement t s l)) = (ks, ([0], 0))
    /\ ks <> [] /\ textOf ks = s.
Proof.
  intros H. unfold createBlockElement; cbn [content].
  destruct s as [|c r].
  - exists [Text []; Br]. repeat split; discriminate.
  - rewrite parseHTML_markupFree by (auto; discriminate).
    exists [Text (c :: r)]. repeat split; [discriminate|].
    unfold textOf; cbn. now rewrite app_nil_r.
Qed.

(** X13.  Enter inside a block followed by Backspace at the caret it
    leaves gives every block its text, type and level back, and reports
    the place of the split as the place of the caret.  The text after the
    caret must be free of markup characters, and the block not a list item
    without text, which Enter converts instead of splitting. *)
Theorem enter_then_backspace_restores (ed : Editor) (i : nat) (b : Block)
    (path : list nat) (offset : nat) :
  nth_error (blocks ed) i = Some b ->
  (length (trim (blockText b)) =? 0) && isListType (btype b) = false ->
  markupFree (textAfter path offset (content b)) = true ->
  exists ed1 f ed2 sel2 ed3,
    keydownEnter ed (caretIn i path offset) = Handled ed1 (Some f)
    /\ focusBlock f ed1 = (ed2, Some sel2)
    /\ keydownBackspace ed2 sel2
       = BsMerged ed3 i (length (textOf (deleteAfter path offset (content b))))
    /\ map blockText (blocks ed3) = map blockText (blocks ed)
    /\ map blockShape (blocks ed3) = map blockShape (blocks ed).
Proof.
  intros E Hsplit Hfree.
  destruct (nth_error_split_form _ _ _ E) as (l1 & l2 & Hb & Hi).
  set (after := textAfter path offset (content b)) in *.
  set (kept := deleteAfter path offset (content b)).
  set (kept' := match kept with [] => parseHTML "<br>" | _ :: _ => kept end).
  set (newType := if isListType (btype b) then btype b else text).
  set (newBlock := createBlockElement newType after (blevel b)).
  set (current' := mkBlock (btype b) (blevel b) (markers b) kept').
  set (bs1 := if isNumbered (btype b) || isNumbered newType
              then updateNumberedBlocks (l1 ++ current' :: newBlock :: l2)
              else l1 ++ current' :: newBlock :: l2).
  assert (HE : keydownEnter ed (caretIn i path offset)
               = Handled (mkEditor bs1 (multiBlockSelection ed))
                   (Some (mkFocus (S i) false))).
  { unfold keydownEnter.
    change (getCurrentBlock (caretIn i path offset)) with (Some i).
    cbv beta iota. rewrite E, Hsplit.
    change (startPath (caretIn i path offset)) with path.
    change (startOffset (caretIn i path offset)) with offset.
    fold after kept kept' newType newBlock current'.
    rewrite Hb, <- Hi, updateAt_app, insertAt_app. reflexivity. }
  assert (HR : Forall2 relabelled bs1 (l1 ++ current' :: newBlock :: l2)).
  { subst bs1. destruct (_ || _); [apply relabelled_update|apply relabelled_refl]. }
  pose proof HR as HR0.
  apply Forall2_app_inv_r in HR as (l1' & rest & Hl1 & Hrest & E1).
  inversion Hrest as [|cur1 ? rest1 ? Hc Hrest1]; subst rest.
  inversion Hrest1 as [|new1 ? l2' ? Hn Hl2]; subst rest1.
  assert (Hlen : length l1' = i) by (rewrite (Forall2_length Hl1); exact Hi).
  destruct (focusContent_new_block newType (blevel b) after Hfree)
    as (ks & Hfc & Hks & Hkt).
  fold newBlock in Hfc. rewrite <- (relabelled_content _ _ Hn) in Hfc.
  set (new2 := mkBlock (btype new1) (blevel new1) (markers new1) ks).
  set (ed2 := mkEditor (l1' ++ cur1 :: new2 :: l2') (multiBlockSelection ed)).
  assert (HF : focusBlock (mkFocus (S i) false)
                 (mkEditor bs1 (multiBlockSelection ed))
               = (ed2, Some (caretIn (S i) [0] 0))).
  { unfold focusBlock; cbn [focusIndex atEnd blocks multiBlockSelection].
    rewrite E1, <- Hlen, nth_error_app_next, Hfc, updateAt_app_next.
    reflexivity. }
  set (previous' := mkBlock (btype cur1) (blevel cur1) (markers cur1)
                      (mergedContent (content cur1) ks)).
  assert (Hkept : textOf kept' = textOf kept).
  { subst kept'. destruct kept; reflexivity. }
  assert (Hcur : content cur1 = kept') by apply (relabelled_content _ _ Hc).
  assert (HB : keydownBackspace ed2 (caretIn (S i) [0] 0)
               = BsMerged
                   (mkEditor (updateNumberedBlocks (l1' ++ previous' :: l2'))
                      (multiBlockSelection ed))
                   i (length (textOf kept))).
  { unfold keydownBackspace.
    change (rangeCount (caretIn (S i) [0] 0) =? 0) with false.
    change (negb (isCollapsed (caretIn (S i) [0] 0))) with false.
    change (getCurrentBlock (caretIn (S i) [0] 0)) with (Some (S i)).
    change (startOffset (caretIn (S i) [0] 0)) with 0.
    change (startPath (caretIn (S i) [0] 0)) with [0].
    cbv iota. subst ed2; cbn [blocks multiBlockSelection].
    rewrite <- Hlen, nth_error_app_next.
    rewrite length_app; cbn [length].
    destruct (Nat.eqb_spec (length l1' + S (S (length l2'))) 1); [lia|].
    cbn [andb content new2 Nat.eqb].
    destruct ks as [|k0 ks0]; [contradiction|].
    replace (nth_error (l1' ++ cur1 :: new2 :: l2') (length l1'))
      with (Some cur1) by (symmetry; apply nth_error_app_here).
    rewrite updateAt_app, removeAt_app.
    unfold blockText. rewrite <- Hkept, <- Hcur. reflexivity. }
  exists (mkEditor bs1 (multiBlockSelection ed)), (mkFocus (S i) false), ed2,
    (caretIn (S i) [0] 0),
    (mkEditor (updateNumberedBlocks (l1' ++ previous' :: l2'))
       (multiBlockSelection ed)).
  split; [exact HE|]. split; [exact HF|]. split; [exact HB|].
  cbn [blocks]. rewrite updateNumberedBlocks_texts, updateNumberedBlocks_shapes.
  rewrite Hb, !map_app; cbn [map].
  rewrite (relabelled_texts _ _ Hl1), (relabelled_texts _ _ Hl2).
  rewrite (relabelled_shapes _ _ Hl1), (relabelled_shapes _ _ Hl2).
  split.
  - do 2 f_equal. unfold blockText; cbn [content previous'].
    rewrite textOf_mergedContent, Hcur, Hkept, Hkt.
    apply deleteAfter_textAfter.
  - do 2 f_equal. change (blockShape previous') with (blockShape cur1).
    apply (relabelled_shape _ _ Hc).
Qed.

Lemma enter_then_backspace_restores_witness :
  exists ed1 f ed2 sel2 ed3,
    keydownEnter helloEditor (caretIn 0 [0] 2) = Handled ed1 (Some f)
    /\ focusBlock f ed1 = (ed2, Some sel2)
    /\ keydownBackspace ed2 sel2
       = BsMerged ed3 0
           (length (textOf (deleteAfter [0] 2
                              (content (createBlockElement text "hello" 0)))))
    /\ map blockText (blocks ed3) = map blockText (blocks helloEditor)
    /\ map blockShape (blocks ed3) = map blockShape (blocks helloEditor).
Proof.
  apply (enter_then_backspace_restores helloEditor 0
           (createBlockElement text "hello" 0) [0] 2); reflexivity.
Defined.

(** ** Deleting struck-through text *)

Lemma removeStrikes_clean (n : Node) :
  forallb (fun k => negb (hasStrike k)) (removeStrikes n) = true.
Proof.
  induction n as [d| |t ks IH] using Node_nested_ind; try reflexivity.
  cbn [removeStrikes]. destruct (isStrikeTag t) eqn:E; [reflexivity|].
  cbn [forallb hasStrike]. rewrite E, andb_true_r. cbn [orb].
  apply negb_true_iff, not_true_iff_false. intros C.
  apply existsb_exists in C as (k & Hin & Hk).
  apply in_flat_map in Hin as (k0 & Hin0 & Hin).
  rewrite Forall_forall in IH. specialize (IH k0 Hin0).
  rewrite forallb_forall in IH. specialize (IH k Hin).
  rewrite Hk in IH. discriminate.
Qed.

Lemma removeStrikes_none (n : Node) :
  hasStrike n = false -> removeStrikes n = [n].
Proof.
  induction n as [d| |t ks IH] using Node_nested_ind; try reflexivity.
  cbn [hasStrike removeStrikes]. intros H.
  apply orb_false_elim in H as [-> H]. do 2 f_equal.
  induction ks as [|k r IHr]; [reflexivity|].
  cbn [existsb] in H. apply orb_false_elim in H as [Hk Hr].
  inversion IH as [|? ? IHk IHrest]; subst.
  cbn [flat_map]. rewrite (IHk Hk), (IHr IHrest Hr). reflexivity.
Qed.

Lemma flat_removeStrikes_clean (ks : list Node) :
  existsb hasStrike (flat_map removeStrikes ks) = false.
Proof.
  apply not_true_iff_false. intros C.
  apply existsb_exists in C as (k & Hin & Hk).
  apply in_flat_map in Hin as (k0 & _ & Hin).
  pose proof (removeStrikes_clean k0) as H.
  rewrite forallb_forall in H. specialize (H k Hin).
  rewrite Hk in H. discriminate.
Qed.

Lemma flat_removeStrikes_none (ks : list Node) :
  existsb hasStrike ks = false -> flat_map removeStrikes ks = ks.
Proof.
  induction ks as [|k r IH]; [reflexivity|].
  cbn [existsb flat_map]. intros H. apply orb_false_elim in H as [Hk Hr].
  now rewrite (removeStrikes_none k Hk), (IH Hr).
Qed.

(** X14.  After "Delete Strikethrough" no [strike] or [s] element is left
    at any depth in any block, and a second run changes nothing. *)
Theorem deleteAllStrikethrough_leaves_none (ed : Editor) :
  Forall (fun b => existsb hasStrike (content b) = false)
    (blocks (deleteAllStrikethrough ed))
  /\ deleteAllStrikethrough (deleteAllStrikethrough ed)
     = deleteAllStrikethrough ed.
Proof.
  split.
  - unfold deleteAllStrikethrough; cbn [blocks]. rewrite Forall_map.
    rewrite Forall_forall. intros b _. cbn [content].
    apply flat_removeStrikes_clean.
  - unfold deleteAllStrikethrough; cbn [blocks multiBlockSelection].
    f_equal. rewrite map_map. apply map_ext. intros b.
    cbn [btype blevel markers content]. f_equal.
    apply flat_removeStrikes_none, flat_removeStrikes_clean.
Qed.

(** ** Import *)



(** ** The shape of exported markdown *)

Lemma hasTripleNewline_app (x y : jstr) :
  hasTripleNewline (x ++ y) = false ->
  hasTripleNewline x = false /\ hasTripleNewline y = false.
Proof.
  induction x as [|a r IH]; [auto|].
  cbn [app hasTripleNewline]. intros H.
  apply orb_false_elim in H as [Ha Hr]. destruct (IH Hr) as [Hx Hy].
  split; [|exact Hy]. rewrite Hx, orb_false_r.
  destruct (Ascii.eqb a newline); [|reflexivity]. cbn [andb] in *.
  destruct r as [|b [|c r']]; try reflexivity. exact Ha.
Qed.

Lemma leadingNewlines_collapse (run : nat) (s : jstr) :
  leadingNewlines (collapseNewlinesFrom run s) <= 2 - run.
Proof.
  unfold leadingNewlines. revert run; induction s as [|c r IH]; intros run;
    cbn [collapseNewlinesFrom takeWhile length]; [lia|].
  destruct (Ascii.eqb c newline) eqn:E.
  - destruct (Nat.ltb_spec run 2).
    + cbn [takeWhile]. rewrite E. cbn [length]. specialize (IH (S run)). lia.
    + specialize (IH run). lia.
  - cbn [takeWhile]. rewrite E. cbn [length]. lia.
Qed.

Lemma hasTripleNewline_leading (s : jstr) :
  hasTripleNewline s = false -> leadingNewlines s <= 1 ->
  forall a, hasTripleNewline (a :: s) = false.
Proof.
  intros H Hl a. cbn [hasTripleNewline]. rewrite H, orb_false_r.
  destruct (Ascii.eqb a newline); [|reflexivity]. cbn [andb].
  destruct s as [|b [|c r]]; try reflexivity.
  unfold leadingNewlines in Hl. cbn [takeWhile] in Hl.
  destruct (Ascii.eqb b newline); [|reflexivity].
  destruct (Ascii.eqb c newline); [|reflexivity].
  cbn [length] in Hl. lia.
Qed.

Lemma collapseNewlines_no_triple (run : nat) (s : jstr) :
  hasTripleNewline (collapseNewlinesFrom run s) = false.
Proof.
  revert run; induction s as [|c r IH]; intros run;
    cbn [collapseNewlinesFrom]; [reflexivity|].
  destruct (Ascii.eqb c newline) eqn:E.
  - destruct (Nat.ltb_spec run 2); [|apply IH].
    destruct (Nat.eq_dec run 0) as [->|Hr].
    + (* the first line break of a run: at most one more follows *)
      cbn [hasTripleNewline]. rewrite IH, orb_false_r, E. cbn [andb].
      pose proof (leadingNewlines_collapse 1 r) as Hl.
      unfold leadingNewlines in Hl.
      destruct (collapseNewlinesFrom 1 r) as [|b [|c' r']]; try reflexivity.
      cbn [takeWhile] in Hl.
      destruct (Ascii.eqb b newline); [|reflexivity].
      destruct (Ascii.eqb c' newline); [|reflexivity].
      cbn [length] in Hl. lia.
    + apply hasTripleNewline_leading; [apply IH|].
      pose proof (leadingNewlines_collapse (S run) r). lia.
  - cbn [hasTripleNewline]. rewrite IH, E. reflexivity.
Qed.

Lemma trim_infix (s : jstr) : exists pre suf, s = pre ++ trim s ++ suf.
Proof.
  unfold trim, trimEnd, trimStart.
  destruct (dropWhile_suffix isWhiteSpace s _ eq_refl) as [pre Hpre].
  destruct (dropWhile_suffix isWhiteSpace (rev (dropWhile isWhiteSpace s)) _ eq_refl)
    as [suf Hsuf].
  exists pre, (rev suf).
  rewrite <- rev_app_distr, <- Hsuf, rev_involutive. exact Hpre.
Qed.

(** X16.  Exported markdown never has three line breaks in a row and has
    no white space at its start or end, whatever the blocks hold. *)
Theorem export_is_collapsed_and_trimmed (bs : list Block) :
  hasTripleNewline (htmlToMarkdown bs) = false
  /\ trim (htmlToMarkdown bs) = htmlToMarkdown bs.
Proof.
  unfold htmlToMarkdown. split; [|apply trim_idem].
  destruct (trim_infix (collapseNewlines (blocksToMarkdownFrom [] bs)))
    as (pre & suf & E).
  pose proof (collapseNewlines_no_triple 0 (blocksToMarkdownFrom [] bs)) as H.
  fold (collapseNewlines (blocksToMarkdownFrom [] bs)) in H.
  rewrite E in H. apply hasTripleNewline_app in H as [_ H].
  now apply hasTripleNewline_app in H as [H _].
Qed.

(** ** The counters of the export against the numbering pass *)

Lemma find_filter {A : Type} (p q : A -> bool) (l : list A) :
  find p (filter q l) = find (fun x => q x && p x) l.
Proof.
  induction l as [|x r IH]; [reflexivity|]. cbn [filter find].
  destruct (q x); cbn [andb find]; [now rewrite IH|exact IH].
Qed.

Lemma find_ext_bool {A : Type} (p q : A -> bool) (l : list A) :
  (forall x, p x = q x) -> find p l = find q l.
Proof.
  intros H; induction l as [|x r IH]; [reflexivity|]. cbn [find].
  now rewrite H, IH.
Qed.

Lemma find_none_all {A : Type} (p : A -> bool) (l : list A) :
  (forall x, p x = false) -> find p l = None.
Proof.
  intros H; induction l as [|x r IH]; [reflexivity|]. cbn [find].
  now rewrite H.
Qed.

(** The counters of the export after a numbered block, level by level. *)
Lemma counterAt_numbered (kc : Counters) (level n l : nat) :
  counterAt l (filter (fun kv => fst kv <=? level) (setCounter level n kc))
  = if l =? level then n
    else if level <? l then 0 else counterAt l kc.
Proof.
  unfold counterAt, getCounter, setCounter. cbn [filter fst].
  rewrite Nat.leb_refl. cbn [find fst].
  rewrite (Nat.eqb_sym level l).
  destruct (Nat.eqb_spec l level) as [->|Hne]; [reflexivity|].
  rewrite !find_filter.
  destruct (Nat.ltb_spec level l) as [Hlt|Hge].
  - rewrite find_none_all; [reflexivity|].
    intros [k v]; cbn [fst].
    destruct (Nat.eqb_spec k l) as [->|]; [|now rewrite !andb_false_r].
    destruct (Nat.leb_spec l level); [lia|]. now rewrite andb_false_r.
  - erewrite find_ext_bool; [reflexivity|].
    intros [k v]; cbn [fst].
    destruct (Nat.eqb_spec k l) as [->|]; [|now rewrite !andb_false_r].
    destruct (Nat.eqb_spec l level); [contradiction|].
    destruct (Nat.leb_spec l level); [reflexivity|lia].
Qed.

Lemma blockToMarkdown_numbered (kc : Counters) (b : Block) :
  btype b = numbered ->
  blockToMarkdown kc b
  = (filter (fun kv => fst kv <=? blevel b)
       (setCounter (blevel b) (S (counterAt (blevel b) kc)) kc),
     repeatStr "  " (blevel b) ++ natToString (S (counterAt (blevel b) kc))
       ++ ". " ++ trim (blockText b) ++ [newline]).
Proof.
  intros Ht. unfold blockToMarkdown, counterAt. rewrite Ht.
  destruct (getCounter (blevel b) kc) as [[|k]|];
    destruct (trim (blockText b)); reflexivity.
Qed.

Lemma blockToMarkdown_resets (kc : Counters) (b : Block) :
  isNumbered (btype b) = false -> fst (blockToMarkdown kc b) = [].
Proof.
  intros Ht. unfold blockToMarkdown.
  destruct (btype b) as [|[|[|[|[|n]]]]| | |] eqn:E; try discriminate;
    destruct (trim (blockText b)); reflexivity.
Qed.

Lemma export_pass_agree (bs : list Block) (kc : Counters) (cs : list nat) :
  (forall l, counterAt l kc = nth l cs 0) ->
  Forall2 (fun out st => forall l, counterAt l (fst out) = nth l (fst st) 0)
    (exportSteps kc bs) (passSteps cs bs).
Proof.
  revert kc cs; induction bs as [|b r IH]; intros kc cs H; [constructor|].
  cbn [exportSteps passSteps].
  assert (Hstep : forall l, counterAt l (fst (blockToMarkdown kc b))
                            = nth l (fst (numberStep cs b)) 0).
  { intros l. destruct (isNumbered (btype b)) eqn:En.
    - assert (Ht : btype b = numbered) by (destruct (btype b); try discriminate; reflexivity).
      rewrite (blockToMarkdown_numbered kc b Ht). cbn [fst].
      unfold numberStep. rewrite Ht. cbn [fst].
      rewrite counterAt_numbered.
      assert (Hg : blevel b < length (growCounters (blevel b) cs))
        by (rewrite growCounters_length; lia).
      assert (Hb : blevel b < length (bumpCounter (blevel b)
                                        (growCounters (blevel b) cs)))
        by (rewrite bumpCounter_length; auto).
      rewrite resetDeeper_nth by exact Hb.
      rewrite bumpCounter_nth by exact Hg.
      rewrite !growCounters_nth, !H.
      destruct (Nat.eqb_spec l (blevel b)) as [->|Hne].
      + destruct (Nat.ltb_spec (blevel b) (blevel b)); [lia|reflexivity].
      + destruct (blevel b <? l); reflexivity.
    - rewrite (blockToMarkdown_resets kc b En).
      rewrite (numberStep_not_numbered cs b En). cbn [fst].
      destruct l; reflexivity. }
  constructor; [exact Hstep|]. apply IH, Hstep.
Qed.

Lemma export_lines_written (bs : list Block) (kc : Counters) :
  Forall2 numberedLineWritten bs (exportSteps kc bs).
Proof.
  revert kc; induction bs as [|b r IH]; intros kc; [constructor|].
  cbn [exportSteps]. constructor; [|apply IH].
  unfold numberedLineWritten. destruct (btype b) eqn:Ht; try exact I.
  rewrite (blockToMarkdown_numbered kc b Ht). cbn [fst snd].
  rewrite counterAt_numbered, Nat.eqb_refl. reflexivity.
Qed.

Lemma export_steps_concat (bs : list Block) (kc : Counters) :
  blocksToMarkdownFrom kc bs = concat (map snd (exportSteps kc bs)).
Proof.
  revert kc; induction bs as [|b r IH]; intros kc; [reflexivity|].
  cbn [blocksToMarkdownFrom exportSteps map concat].
  destruct (blockToMarkdown kc b) as [kc' piece] eqn:E. cbn [fst snd].
  now rewrite IH.
Qed.

(** X17.  The export counts numbered items as the editor does.  After
    every block the counters of [htmlToMarkdown] and those of
    [updateNumberedBlocks] hold the same number at every level, and the
    line exported for a numbered block carries the counter of its level. *)
Theorem export_counts_as_the_editor (bs : list Block) :
  Forall2 (fun out st => forall l, counterAt l (fst out) = nth l (fst st) 0)
    (exportSteps [] bs) (passSteps [] bs)
  /\ Forall2 numberedLineWritten bs (exportSteps [] bs)
  /\ blocksToMarkdownFrom [] bs = concat (map snd (exportSteps [] bs)).
Proof.
  split; [|split].
  - apply export_pass_agree. intros l; destruct l; reflexivity.
  - apply export_lines_written.
  - apply export_steps_concat.
Qed.

(** ** Counting words *)

Lemma filter_nonempty_count (s : jstr) :
  length (filter (fun w => 0 <? length w) (splitWhiteSpaceFrom true [] s))
  = wordStarts true s
  /\ forall cur,
       length (filter (fun w => 0 <? length w) (splitWhiteSpaceFrom false cur s))
       = (if 0 <? length cur then 1 else 0) + wordStarts (length cur =? 0) s.
Proof.
  induction s as [|c r [IH1 IH2]]; cbn [splitWhiteSpaceFrom wordStarts].
  - split; [reflexivity|]. intros cur. cbn [filter].
    destruct (0 <? length cur); cbn [length]; lia.
  - assert (Hgrow : forall cur,
               length (filter (fun w => 0 <? length w)
                         (splitWhiteSpaceFrom false (cur ++ [c]) r))
               = 1 + wordStarts false r).
    { intros cur. rewrite IH2, length_app. cbn [length].
      replace (length cur + 1 =? 0) with false
        by (symmetry; apply Nat.eqb_neq; lia).
      replace (0 <? length cur + 1) with true
        by (symmetry; apply Nat.ltb_lt; lia).
      reflexivity. }
    destruct (isWhiteSpace c).
    + split; [exact IH1|]. intros cur. cbn [filter].
      destruct cur as [|x y];
        [change (0 <? length (@nil ascii)) with false
        |change (0 <? length (x :: y)) with true];
        cbv iota; cbn [length]; rewrite IH1; reflexivity.
    + split; [apply Hgrow|]. intros cur. rewrite Hgrow.
      destruct cur as [|x y];
        [change (0 <? length (@nil ascii)) with false;
         change (length (@nil ascii) =? 0) with true
        |change (0 <? length (x :: y)) with true;
         change (length (x :: y) =? 0) with false];
        cbv iota; lia.
Qed.

Lemma countWords_starts (text : jstr) :
  countWords text = wordStarts true (trim text).
Proof.
  unfold countWords, splitWhiteSpace.
  destruct (filter_nonempty_count (trim text)) as [_ H]. now rewrite H.
Qed.

Lemma wordStarts_app (x y : jstr) (bd : bool) :
  wordStarts bd (x ++ y)
  = wordStarts bd x
    + wordStarts (match rev x with
                  | [] => bd
                  | c :: _ => isWhiteSpace c
                  end) y.
Proof.
  revert bd; induction x as [|a r IH]; intros bd; [reflexivity|].
  cbn [app wordStarts].
  assert (Hlast : match rev (a :: r) with
                  | [] => bd
                  | c :: _ => isWhiteSpace c
                  end
                  = match rev r with
                    | [] => isWhiteSpace a
                    | c :: _ => isWhiteSpace c
                    end).
  { cbn [rev]. destruct (rev r); reflexivity. }
  rewrite Hlast.
  destruct (isWhiteSpace a) eqn:E; rewrite IH; lia.
Qed.

Lemma wordStarts_all_ws (s : jstr) (bd : bool) :
  forallb isWhiteSpace s = true -> wordStarts bd s = 0.
Proof.
  revert bd; induction s as [|c r IH]; intros bd H; [reflexivity|].
  cbn [forallb] in H. apply andb_true_iff in H as [Hc Hr].
  cbn [wordStarts]. rewrite Hc. now apply IH.
Qed.

Lemma dropWhile_prefix_ws (s : jstr) :
  exists pre, s = pre ++ dropWhile isWhiteSpace s
              /\ forallb isWhiteSpace pre = true.
Proof.
  induction s as [|c r (pre & E & H)]; [now exists []|].
  cbn [dropWhile]. destruct (isWhiteSpace c) eqn:Ec.
  - exists (c :: pre). split; [now rewrite E at 1|]. cbn [forallb]. now rewrite Ec.
  - now exists [].
Qed.

Lemma wordStarts_ws_prefix (pre s : jstr) :
  forallb isWhiteSpace pre = true ->
  wordStarts true (pre ++ s) = wordStarts true s.
Proof.
  induction pre as [|c r IH]; intros H; [reflexivity|].
  cbn [forallb] in H. apply andb_true_iff in H as [Hc Hr].
  cbn [app wordStarts]. rewrite Hc. now apply IH.
Qed.

Lemma wordStarts_ws_suffix (s suf : jstr) (bd : bool) :
  forallb isWhiteSpace suf = true ->
  wordStarts bd (s ++ suf) = wordStarts bd s.
Proof.
  intros H. rewrite wordStarts_app, (wordStarts_all_ws suf _ H). lia.
Qed.

Lemma wordStarts_trim (s : jstr) :
  wordStarts true (trim s) = wordStarts true s.
Proof.
  unfold trim, trimEnd, trimStart.
  destruct (dropWhile_prefix_ws s) as (pre & E & Hpre).
  destruct (dropWhile_prefix_ws (rev (dropWhile isWhiteSpace s)))
    as (suf & E' & Hsuf).
  rewrite E at 2. rewrite wordStarts_ws_prefix by exact Hpre.
  apply (f_equal (@rev ascii)) in E'. rewrite rev_involutive, rev_app_distr in E'.
  rewrite E' at 2. rewrite wordStarts_ws_suffix; [reflexivity|].
  rewrite forallb_forall in Hsuf |- *. intros x Hx. apply Hsuf.
  now apply in_rev.
Qed.

(** X18.  The word count is the number of places where a word starts, so
    it adds up over white space: the count of two texts joined by a white
    space character is the sum of their counts, and a text of white space
    only counts zero words. *)
Theorem word_count_adds_up (u v : jstr) (w : ascii) :
  isWhiteSpace w = true ->
  countWords (u ++ w :: v) = countWords u + countWords v
  /\ countWords [w] = 0.
Proof.
  intros Hw. rewrite !countWords_starts, !wordStarts_trim. split.
  - rewrite wordStarts_app. f_equal. cbn [wordStarts]. now rewrite Hw.
  - cbn [wordStarts]. now rewrite Hw.
Qed.

Lemma word_count_adds_up_witness :
  countWords ("one two" ++ " "%char :: "three")
  = countWords "one two" + countWords "three"
  /\ countWords [" "%char] = 0.
Proof. apply word_count_adds_up. reflexivity. Defined.

(** ** The pattern helper against the autoformat handler *)

Lemma isDigit_not_marker (d : ascii) :
  isDigit d = true ->
  Ascii.eqb ">" d = false /\ Ascii.eqb "-" d = false /\ Ascii.eqb "*" d = false.
Proof.
  unfold isDigit. intros H. apply andb_true_iff in H as [H1 H2].
  apply Nat.leb_le in H1. apply Nat.leb_le in H2.
  repeat split; apply Ascii.eqb_neq; intros <-; cbn in H1, H2; lia.
Qed.

(** X19.  Where [detectListPattern] finds a list pattern in the text of a
    block with the typed space at its end, the autoformat handler
    converts the block to the type found and leaves it without text; the
    pattern length reported is the whole text with the space. *)
Theorem detectListPattern_agrees_with_autoformat (ed : Editor)
    (sel : Selection) (i : nat) (b : Block) (t : BlockType) (n : nat) :
  getCurrentBlock sel = Some i ->
  nth_error (blocks ed) i = Some b ->
  detectListPattern (blockText b ++ " ") (length (blockText b) + 1)
  = (Some t, n) ->
  n = length (blockText b) + 1
  /\ exists ed' f,
       beforeinputAutoformat spaceTyped ed sel = Handled ed' f
       /\ typeAndTextAt ed' i = Some (t, []).
Proof.
  intros Hc E Hd. unfold beforeinputAutoformat.
  change (isComposing spaceTyped) with false.
  change (isInsertText spaceTyped && jstr_eqb (data spaceTyped) " ") with true.
  cbv iota. rewrite Hc, E.
  unfold detectListPattern, substringTo in Hd.
  rewrite firstn_all2 in Hd by (rewrite length_app; simpl; lia).
  destruct (blockText b) as [|c1 [|c2 [|c3 [|c4 r]]]] eqn:Et;
    cbn [app] in Hd; try discriminate.
  - (* one character: a bullet *)
    destruct (Ascii.eqb c1 "-" || Ascii.eqb c1 "*") eqn:Em; [|discriminate].
    cbn [andb] in Hd. change (isWhiteSpace " ") with true in Hd.
    injection Hd as <- <-. split; [reflexivity|].
    assert (Hq : startsWith ">" [c1] = false).
    { cbn [startsWith]. rewrite andb_true_r. apply Ascii.eqb_neq. intros <-.
      discriminate Em. }
    assert (Hm : startsWith "-" [c1] || startsWith "*" [c1] = true).
    { cbn [startsWith]. rewrite !andb_true_r.
      now rewrite (Ascii.eqb_sym "-" c1), (Ascii.eqb_sym "*" c1). }
    rewrite Hq, Hm. do 2 eexists; split; [reflexivity|].
    rewrite (typeAndTextAt_updateAt autoformatBullet _ _ _ _ E).
    unfold autoformatBullet; cbn [btype]. unfold blockText in *; cbn [content].
    now rewrite textOf_setTextContent, Et.
  - (* a digit and a dot *)
    destruct (isDigit c1) eqn:Ed; [|discriminate].
    destruct (Ascii.eqb_spec c2 ".") as [->|]; [|discriminate].
    cbn [andb] in Hd. change (isWhiteSpace " ") with true in Hd.
    injection Hd as <- <-. split; [reflexivity|].
    destruct (isDigit_not_marker c1 Ed) as (H1 & H2 & H3).
    cbn [startsWith]. rewrite H1, H2, H3. cbn [andb orb].
    unfold numberedPrefix. rewrite Ed. cbn [andb].
    change (Ascii.eqb "." ".") with true. cbv iota.
    do 2 eexists; split; [reflexivity|].
    rewrite (typeAndTextAt_renumbered _ _ _ _
               (updateAt_nth_same (autoformatNumbered 2) _ _ _ E)).
    unfold autoformatNumbered; cbn [btype]. unfold blockText in *; cbn [content].
    now rewrite textOf_setTextContent, Et.
  - (* two digits and a dot *)
    destruct (isDigit c1) eqn:Ed1; [|discriminate].
    destruct (isDigit c2) eqn:Ed2; [|discriminate].
    destruct (Ascii.eqb_spec c3 ".") as [->|]; [|discriminate].
    cbn [andb] in Hd. change (isWhiteSpace " ") with true in Hd.
    injection Hd as <- <-. split; [reflexivity|].
    destruct (isDigit_not_marker c1 Ed1) as (H1 & H2 & H3).
    cbn [startsWith]. rewrite H1, H2, H3. cbn [andb orb].
    unfold numberedPrefix. rewrite Ed1, Ed2. cbn [andb].
    change (Ascii.eqb "." ".") with true. cbv iota.
    do 2 eexists; split; [reflexivity|].
    rewrite (typeAndTextAt_renumbered _ _ _ _
               (updateAt_nth_same (autoformatNumbered 3) _ _ _ E)).
    unfold autoformatNumbered; cbn [btype]. unfold blockText in *; cbn [content].
    now rewrite textOf_setTextContent, Et.
  - (* longer texts match no pattern *)
    destruct r; cbn [app] in Hd; discriminate.
Qed.

Lemma detectListPattern_agrees_with_autoformat_witness :
  2 = length (blockText (createBlockElement text "-" 0)) + 1
  /\ exists ed' f,
       beforeinputAutoformat spaceTyped dashEditor (caretIn 0 [0] 1)
       = Handled ed' f
       /\ typeAndTextAt ed' 0 = Some (bullet, []).
Proof.
  apply (detectListPattern_agrees_with_autoformat dashEditor (caretIn 0 [0] 1)
           0 (createBlockElement text "-" 0) bullet 2); reflexivity.
Defined.

(** ** Autoformat in a list item *)

Lemma relabelled_classes (b' b : Block) :
  relabelled b' b -> map mclass (markers b') = map mclass (markers b).
Proof.
  intros [->|(_ & s & ->)]; [reflexivity|].
  cbn [relabel markers]. apply mclass_setNumberMarker.
Qed.

Lemma Forall2_nth_error {A B : Type} (R : A -> B -> Prop) (l' : list A)
    (l : list B) (i : nat) (b : B) :
  Forall2 R l' l -> nth_error l i = Some b ->
  exists b', nth_error l' i = Some b' /\ R b' b.
Proof.
  intros H; revert i; induction H as [|x y r' r Hxy Hr IH]; intros [|i] E;
    try discriminate.
  - injection E as <-. now exists x.
  - now apply IH.
Qed.

Lemma wellFormed_list_item (b : Block) :
  wellFormed b -> isListType (btype b) = true -> length (markers b) = 1.
Proof.
  unfold wellFormed. intros H Hl.
  rewrite <- (length_map mclass), H. destruct (btype b); try discriminate;
    reflexivity.
Qed.

(** X20.  In a list item the autoformat handler leaves the marker of the
    item where it is: when it converts a well-formed bullet or numbered
    block, the block ends with the marker of a list item on a quote, or
    with two markers on a bullet or numbered block, at its old level. *)
Theorem autoformat_in_list_item_keeps_marker (ev : InputEvent) (ed : Editor)
    (sel : Selection) (i : nat) (b : Block) (ed' : Editor) (f : option Focus) :
  getCurrentBlock sel = Some i ->
  nth_error (blocks ed) i = Some b ->
  isListType (btype b) = true ->
  wellFormed b ->
  beforeinputAutoformat ev ed sel = Handled ed' f ->
  exists b',
    nth_error (blocks ed') i = Some b'
    /\ blevel b' = blevel b
    /\ length (markers b')
       = (match btype b' with quote => 1 | _ => 2 end)
    /\ ~ wellFormed b'.
Proof.
  intros Hc E Hl Hw Ho. unfold beforeinputAutoformat in Ho.
  destruct (isComposing ev); [discriminate|].
  destruct (_ && _); [|discriminate].
  rewrite Hc, E in Ho.
  pose proof (wellFormed_list_item b Hw Hl) as Hone.
  assert (Hbad : forall b', length (markers b')
                            = (match btype b' with quote => 1 | _ => 2 end) ->
                            (btype b' = quote \/ btype b' = bullet
                             \/ btype b' = numbered) ->
                            ~ wellFormed b').
  { intros b' Hlen Ht Hwf. unfold wellFormed in Hwf.
    apply (f_equal (@length _)) in Hwf. rewrite length_map, Hlen in Hwf.
    destruct Ht as [Ht|[Ht|Ht]]; rewrite Ht in Hwf; discriminate. }
  destruct (startsWith ">" (blockText b)).
  { injection Ho as <- _. cbn [blocks].
    rewrite (updateAt_nth_same autoformatQuote _ _ _ E).
    eexists; split; [reflexivity|]. split; [reflexivity|].
    assert (Hlen : length (markers (autoformatQuote b)) = 1) by exact Hone.
    split; [exact Hlen|]. apply Hbad; [exact Hlen|now left]. }
  destruct (_ || _).
  { injection Ho as <- _. cbn [blocks].
    rewrite (updateAt_nth_same autoformatBullet _ _ _ E).
    eexists; split; [reflexivity|]. split; [reflexivity|].
    assert (Hlen : length (markers (autoformatBullet b)) = 2)
      by (cbn [autoformatBullet markers]; rewrite length_app, Hone; reflexivity).
    split; [exact Hlen|]. apply Hbad; [exact Hlen|right; now left]. }
  destruct (numberedPrefix (blockText b)) as [n|]; [|discriminate].
  injection Ho as <- _. cbn [blocks].
  pose proof (updateAt_nth_same (autoformatNumbered n) _ _ _ E) as E'.
  destruct (Forall2_nth_error _ _ _ _ _
              (relabelled_update [] (updateAt i (autoformatNumbered n) (blocks ed)))
              E') as (b' & Hn & Hr).
  exists b'. split; [exact Hn|].
  pose proof (relabelled_shape _ _ Hr) as Hs. unfold blockShape in Hs.
  injection Hs as Hty Hlv.
  split; [exact Hlv|].
  assert (Hlen : length (markers b') = 2).
  { rewrite <- (length_map mclass), (relabelled_classes _ _ Hr), length_map.
    cbn [autoformatNumbered markers]. rewrite length_app, Hone. reflexivity. }
  rewrite Hty. cbn [autoformatNumbered btype].
  split; [exact Hlen|]. apply Hbad; [now rewrite Hty|right; right; exact Hty].
Qed.

Lemma autoformat_in_list_item_keeps_marker_witness :
  exists b',
    nth_error
      (blocks (mkEditor
                 (updateAt 0 autoformatBullet (blocks dashItemEditor)) []))
      0 = Some b'
    /\ blevel b' = blevel (createBlockElement bullet "-" 1)
    /\ length (markers b') = (match btype b' with quote => 1 | _ => 2 end)
    /\ ~ wellFormed b'.
Proof.
  apply (autoformat_in_list_item_keeps_marker spaceTyped dashItemEditor
           (caretIn 0 [0] 1) 0 (createBlockElement bullet "-" 1)
           (mkEditor (updateAt 0 autoformatBullet (blocks dashItemEditor)) [])
           (Some (mkFocus 0 true)));
    reflexivity.
Defined.

(** ** The Word export *)

Lemma replaceAll_app (c : ascii) (by_ x y : jstr) :
  replaceAll c by_ (x ++ y) = replaceAll c by_ x ++ replaceAll c by_ y.
Proof. apply flat_map_app. Qed.

Lemma replaceAll_absent (c : ascii) (by_ s : jstr) :
  forallb (fun x => negb (Ascii.eqb x c)) s = true -> replaceAll c by_ s = s.
Proof.
  induction s as [|x r IH]; [reflexivity|]. cbn [forallb]. intros H.
  apply andb_true_iff in H as [Hx Hr]. apply negb_true_iff in Hx.
  unfold replaceAll in *. cbn [flat_map]. rewrite Hx, IH by exact Hr. reflexivity.
Qed.

Lemma escapedContent_char (c : ascii) : escapedContent [c] = escapeChar c.
Proof.
  unfold escapedContent, escapeChar.
  unfold replaceAll at 5. cbn [flat_map]. rewrite app_nil_r.
  destruct (Ascii.eqb_spec c "&") as [->|Hamp]; [reflexivity|].
  unfold replaceAll at 4. cbn [flat_map]. rewrite app_nil_r.
  destruct (Ascii.eqb_spec c "<") as [->|Hlt]; [reflexivity|].
  unfold replaceAll at 3. cbn [flat_map]. rewrite app_nil_r.
  destruct (Ascii.eqb_spec c ">") as [->|Hgt]; [reflexivity|].
  unfold replaceAll at 2. cbn [flat_map]. rewrite app_nil_r.
  destruct (Ascii.eqb_spec c doubleQuote) as [->|Hq]; [reflexivity|].
  unfold replaceAll. cbn [flat_map]. rewrite app_nil_r.
  destruct (Ascii.eqb_spec c "'") as [->|Ha]; reflexivity.
Qed.

Lemma escapedContent_app (x y : jstr) :
  escapedContent (x ++ y) = escapedContent x ++ escapedContent y.
Proof. unfold escapedContent. now rewrite !replaceAll_app. Qed.

Lemma escapedContent_one_pass (s : jstr) :
  escapedContent s = flat_map escapeChar s.
Proof.
  induction s as [|c r IH]; [reflexivity|].
  change (c :: r) with ([c] ++ r).
  rewrite escapedContent_app, escapedContent_char, IH. reflexivity.
Qed.

Lemma escapeChar_safe (c : ascii) :
  forallb (fun x => negb (isXmlDelimiter x)) (escapeChar c) = true.
Proof.
  unfold escapeChar.
  destruct (Ascii.eqb c "&"); [reflexivity|].
  destruct (Ascii.eqb c "<") eqn:E1; [reflexivity|].
  destruct (Ascii.eqb c ">") eqn:E2; [reflexivity|].
  destruct (Ascii.eqb c doubleQuote) eqn:E3; [reflexivity|].
  destruct (Ascii.eqb c "'") eqn:E4; [reflexivity|].
  cbn [forallb]. unfold isXmlDelimiter. now rewrite E1, E2, E3, E4.
Qed.

(** X21.  The text of a block enters the Word document escaped once: the
    five replacements in a row do what escaping every character on its
    own does, no replacement touching the result of an earlier one, and
    the escaped text holds none of the characters that end text or an
    attribute value in XML. *)
Theorem docx_text_is_escaped (content : jstr) :
  escapedContent content = flat_map escapeChar content
  /\ forallb (fun x => negb (isXmlDelimiter x)) (escapedContent content) = true.
Proof.
  split; [apply escapedContent_one_pass|].
  rewrite escapedContent_one_pass.
  induction content as [|c r IH]; [reflexivity|].
  cbn [flat_map]. rewrite forallb_app, IH, escapeChar_safe. reflexivity.
Qed.

Lemma tagsClosed_skip (inTag : bool) (x y : jstr) :
  noBracket x = true -> tagsClosed inTag (x ++ y) = tagsClosed inTag y.
Proof.
  induction x as [|c r IH]; [reflexivity|]. unfold noBracket. cbn [forallb app].
  intros H. apply andb_true_iff in H as [Hc Hr]. apply negb_true_iff in Hc.
  apply orb_false_elim in Hc as [H1 H2]. cbn [tagsClosed].
  rewrite H1, H2. now apply IH.
Qed.

Lemma tagsClosed_app (x y : jstr) :
  tagsClosed false x = true ->
  tagsClosed false (x ++ y) = tagsClosed false y.
Proof.
  enough (H : forall st, tagsClosed st x = true ->
                         tagsClosed st (x ++ y) = tagsClosed false y)
    by apply H.
  induction x as [|c r IH]; intros st Hx.
  - destruct st; [discriminate|reflexivity].
  - cbn [app tagsClosed] in *.
    destruct (Ascii.eqb c "<").
    + apply andb_true_iff in Hx as [-> Hx]. now apply IH.
    + destruct (Ascii.eqb c ">").
      * apply andb_true_iff in Hx as [-> Hx]. now apply IH.
      * now apply IH.
Qed.

Lemma uint_digits (d : Decimal.uint) :
  noBracket (String.list_ascii_of_string (DecimalString.NilEmpty.string_of_uint d))
  = true.
Proof. induction d; cbn; auto. Qed.

Lemma natToString_noBracket (n : nat) : noBracket (natToString n) = true.
Proof. apply uint_digits. Qed.

Lemma escapedContent_noBracket (s : jstr) : noBracket (escapedContent s) = true.
Proof.
  rewrite escapedContent_one_pass. unfold noBracket.
  induction s as [|c r IH]; [reflexivity|].
  cbn [flat_map]. rewrite forallb_app, IH, andb_true_r.
  pose proof (escapeChar_safe c) as H. rewrite forallb_forall in H |- *.
  intros x Hx. specialize (H x Hx). apply negb_true_iff in H.
  unfold isXmlDelimiter in H. apply negb_true_iff.
  destruct (Ascii.eqb x "<"); [discriminate|].
  destruct (Ascii.eqb x ">"); [discriminate|reflexivity].
Qed.

Lemma docxRun_closed (content : jstr) : tagsClosed false (docxRun content) = true.
Proof.
  unfold docxRun.
  change (tagsClosed false ("<w:r><w:t>" ++ ?x)) with (tagsClosed false x).
  rewrite tagsClosed_skip by apply escapedContent_noBracket. reflexivity.
Qed.

Lemma docxStyled_closed (style content : jstr) :
  noBracket style = true -> tagsClosed false (docxStyled style content) = true.
Proof.
  intros Hs. unfold docxStyled, quoted. rewrite <- !app_assoc.
  change (tagsClosed false ("<w:p><w:pPr><w:pStyle w:val=" ++ [doubleQuote] ++ ?x))
    with (tagsClosed true x).
  rewrite tagsClosed_skip by exact Hs.
  change (tagsClosed true ([doubleQuote] ++ "/></w:pPr>" ++ ?x))
    with (tagsClosed false x).
  apply docxRun_closed.
Qed.

Lemma docxListItem_closed (numId : jstr) (level : nat) (content : jstr) :
  noBracket numId = true ->
  tagsClosed false (docxListItem numId level content) = true.
Proof.
  intros Hn. unfold docxListItem, quoted. rewrite <- !app_assoc.
  change (tagsClosed false
            ("<w:p><w:pPr><w:pStyle w:val=" ++ [doubleQuote] ++ "ListParagraph"
             ++ [doubleQuote] ++ "/><w:numPr><w:ilvl w:val=" ++ [doubleQuote] ++ ?x))
    with (tagsClosed true x).
  rewrite tagsClosed_skip by apply natToString_noBracket.
  change (tagsClosed true ([doubleQuote] ++ "/><w:numId w:val=" ++ [doubleQuote] ++ ?x))
    with (tagsClosed true x).
  rewrite tagsClosed_skip by exact Hn.
  change (tagsClosed true
            ([doubleQuote] ++ "/></w:numPr><w:ind w:left=" ++ [doubleQuote] ++ ?x))
    with (tagsClosed true x).
  rewrite tagsClosed_skip by apply natToString_noBracket.
  change (tagsClosed true ([doubleQuote] ++ "/></w:pPr>" ++ ?x))
    with (tagsClosed false x).
  apply docxRun_closed.
Qed.

Lemma docxPlain_closed (content : jstr) :
  tagsClosed false ("<w:p>" ++ docxRun content) = true.
Proof.
  change (tagsClosed false ("<w:p>" ++ docxRun content))
    with (tagsClosed false (docxRun content)).
  apply docxRun_closed.
Qed.

Lemma docxStep_closed (kc : Counters) (b : Block) :
  tagsClosed false (snd (docxStep kc b)) = true.
Proof.
  unfold docxStep.
  destruct (btype b) as [|[|[|[|[|n]]]]| | |];
    destruct (trim (blockText b)) as [|c r]; cbn [snd].
  (* text *)
  - exact eq_refl.
  - apply docxPlain_closed.
  (* headings *)
  - exact eq_refl.
  - apply docxPlain_closed.
  - apply (docxStyled_closed "Heading1"). exact eq_refl.
  - apply (docxStyled_closed "Heading1"). exact eq_refl.
  - apply (docxStyled_closed "Heading2"). exact eq_refl.
  - apply (docxStyled_closed "Heading2"). exact eq_refl.
  - apply (docxStyled_closed "Heading3"). exact eq_refl.
  - apply (docxStyled_closed "Heading3"). exact eq_refl.
  - exact eq_refl.
  - apply docxPlain_closed.
  (* bullet, numbered, quote *)
  - apply (docxListItem_closed "1"). exact eq_refl.
  - apply (docxListItem_closed "1"). exact eq_refl.
  - apply (docxListItem_closed "2"). exact eq_refl.
  - apply (docxListItem_closed "2"). exact eq_refl.
  - apply (docxStyled_closed "Quote"). exact eq_refl.
  - apply (docxStyled_closed "Quote"). exact eq_refl.
Qed.

(** X22.  In the XML that the Word export generates for the blocks the
    pointed brackets pair up as the delimiters of tags, whatever the
    blocks hold: there is no ['<'] inside a tag, no ['>'] outside one and
    no tag left open. *)
Theorem docx_tags_are_closed (bs : list Block) :
  tagsClosed false (generateDocxXml bs) = true.
Proof.
  unfold generateDocxXml. generalize (@nil (nat * nat)) as kc.
  induction bs as [|b r IH]; intros kc; [reflexivity|].
  cbn [generateDocxXmlFrom].
  pose proof (docxStep_closed kc b) as H.
  destruct (docxStep kc b) as [kc' xml]. cbn [snd] in H.
  rewrite tagsClosed_app by exact H. apply IH.
Qed.
